(** * Lazy signals: chunk planning, block iteration and decomposition

    A shallow embedding of [hyperspy/_signals/lazy.py] (class [LazySignal]):
    the chunk planner [_get_dask_chunks], the materialisation [compute],
    the guard of [_map_iterate], the block iterator [_block_iterator] and
    the control flow of [decomposition].

    Conventions.
    - Python integers are [Z].  The float64 operations of the source
      ([100. * 2.**20 / want_to_keep], [np.floor (x / 2)], [np.ceil (a / b)])
      act on integers far below 2^53 (array extents, which [np.arange]
      materialises), where they are exact; they are written as the integer
      or rational operations they compute.
    - A Python exception is a value of [exn]; a call either [Returns] a
      value or [Raises]; [OutOfFuel] only marks a [while] loop that was cut
      short by the fuel of the model and never stands for a Python result.
    - An axis of the axes manager is identified with its position in
      [axes_manager._axes], which is what its [index_in_array] property
      returns. *)

From Stdlib Require Import String ZArith QArith Qround Bool Lia List Permutation.
Import ListNotations.
Close Scope Q_scope.

Set Implicit Arguments.

(** ** Exceptions and outcomes *)

Inductive exn : Type :=
| ValueError
| ZeroDivisionError
| IndexError
| NotImplementedError
| ImportError
| KeyboardInterrupt
| AttributeError
| OtherError (tag : nat).

Inductive outcome (A : Type) : Type :=
| Returns (a : A)
| Raises (e : exn)
| OutOfFuel.

Arguments Returns {A} a.
Arguments Raises {A} e.
Arguments OutOfFuel {A}.

Definition obind {A B} (m : outcome A) (k : A -> outcome B) : outcome B :=
  match m with
  | Returns a => k a
  | Raises e => Raises e
  | OutOfFuel => OutOfFuel
  end.

(** ** numpy scalar types *)

Inductive dtype : Type :=
| bool_ | int8 | uint8 | int16 | uint16 | int32 | uint32 | int64 | uint64
| float16 | float32 | float64 | float128
| complex64 | complex128 | complex256.

Definition itemsize (d : dtype) : Z :=
  match d with
  | bool_ | int8 | uint8 => 1
  | int16 | uint16 | float16 => 2
  | int32 | uint32 | float32 => 4
  | int64 | uint64 | float64 | complex64 => 8
  | float128 | complex128 => 16
  | complex256 => 32
  end%Z.

(** [np.can_cast('float', d)]: can a float64 be cast to [d] under the
    default ["safe"] rule. *)
Definition can_cast_float (d : dtype) : bool :=
  match d with
  | float64 | float128 | complex128 | complex256 => true
  | _ => false
  end.

(** ** 1. The chunk planner *)

Module ChunkPlanner.
Local Open Scope Z_scope.

(** [hyperspy.misc.utils.multiply]: the running product, starting from 1. *)
Definition multiply (l : list Z) : Z := fold_left Z.mul l 1.

(** 100 MiB, the [100. * 2.**20] of the source. *)
Definition budget : Z := 100 * 2 ^ 20.

(** [np.argmax]: the first position of the maximum; it raises on an empty
    sequence. *)
Fixpoint argmax_from (best : Z) (besti i : nat) (l : list Z) : nat :=
  match l with
  | [] => besti
  | x :: r =>
      if best <? x then argmax_from x i (S i) r
      else argmax_from best besti (S i) r
  end.

Definition argmax (l : list Z) : option nat :=
  match l with
  | [] => None
  | x :: r => Some (argmax_from x 0%nat 1%nat r)
  end.

(** [l[i] = v] on a Python list (the index is always in range here). *)
Fixpoint set_nth {A} (i : nat) (v : A) (l : list A) : list A :=
  match l, i with
  | [], _ => []
  | _ :: r, O => v :: r
  | x :: r, S j => x :: set_nth j v r
  end.

(** The [while True] loop: halve the largest size until the product fits. *)
Fixpoint halve_loop (fuel : nat) (num_that_fit : Z) (sizes : list Z)
  : outcome (list Z) :=
  if multiply sizes <=? num_that_fit then Returns sizes
  else
    match fuel with
    | O => OutOfFuel
    | S fuel' =>
        match argmax sizes with
        | None => Raises ValueError
        | Some i =>
            halve_loop fuel' num_that_fit
                       (set_nth i (nth i sizes 0 / 2) sizes)
        end
    end.

(** The sum of the sizes, which decreases at every halving. *)
Definition zsum (l : list Z) : Z := fold_right Z.add 0 l.

(** [np.ceil (a / b)] for a non-zero divisor. *)
Definition ceil_div (a b : Z) : Z := - ((- a) / b).

(** The lengths of the pieces of [np.array_split (np.arange n) sections]:
    [n mod sections] pieces of [n / sections + 1], then pieces of
    [n / sections]. *)
Definition array_split_lengths (n sections : Z) : outcome (list Z) :=
  if sections <=? 0 then Raises ValueError
  else
    let each := n / sections in
    let extras := n mod sections in
    Returns (repeat (each + 1) (Z.to_nat extras)
             ++ repeat each (Z.to_nat (sections - extras))).

(** The part of a lazy signal the planner reads: the shape of the dask
    array, its dtype, and the sizes recorded on the axes. *)
Record signal : Type := {
  dc_shape : list Z;
  dc_dtype : dtype;
  axes_size : list Z
}.

(** [for _axis in _axes: if _axis.index_in_array < len(dcshape): ...] *)
Fixpoint refresh_from (k : nat) (dcshape axes : list Z) : list Z :=
  match axes with
  | [] => []
  | old :: r =>
      (if (k <? length dcshape)%nat then nth k dcshape 0 else old)
        :: refresh_from (S k) dcshape r
  end.

Definition refresh (dcshape axes : list Z) : list Z :=
  refresh_from 0 dcshape axes.

Definition mem (k : nat) (l : list nat) : bool :=
  existsb (Nat.eqb k) l.

(** Positions of the axes that are not in [need_axes]. *)
Definition free_axes (n : nat) (need_axes : list nat) : list nat :=
  filter (fun k => negb (mem k need_axes)) (seq 0 n).

(** [list.index]. *)
Fixpoint index_of (i : nat) (l : list nat) : option nat :=
  match l with
  | [] => None
  | x :: r => if Nat.eqb i x then Some O
              else option_map S (index_of i r)
  end.

(** The degenerate branch: one element per chunk, then the kept axes whole. *)
Fixpoint keep_whole (dcshape : list Z) (need_axes : list nat)
         (chunks : list (list Z)) : outcome (list (list Z)) :=
  match need_axes with
  | [] => Returns chunks
  | k :: r =>
      if (k <? length dcshape)%nat
      then keep_whole dcshape r (set_nth k [nth k dcshape 0] chunks)
      else Raises IndexError
  end.

(** The body of the final [for i in range(ndim)] loop. *)
Definition chunk_of_dim (dcshape : list Z) (indices : list nat)
           (sizes : list Z) (i : nat) : outcome (list Z) :=
  match index_of i indices with
  | Some j =>
      let size := nth i dcshape 0 in
      let s := nth j sizes 0 in
      if s =? 0 then Raises ZeroDivisionError
      else array_split_lengths size (ceil_div size s)
  | None => Returns [nth i dcshape 0]
  end.

Fixpoint collect {A} (l : list (outcome A)) : outcome (list A) :=
  match l with
  | [] => Returns []
  | m :: r => obind m (fun a => obind (collect r) (fun t => Returns (a :: t)))
  end.

(** [typesize = max(dtype.itemsize, dc.dtype.itemsize)], where [dtype]
    defaults to the dtype of the data. *)
Definition typesize (s : signal) (dtype_arg : option dtype) : Z :=
  let dt := match dtype_arg with None => dc_dtype s | Some d => d end in
  Z.max (itemsize dt) (itemsize (dc_dtype s)).

Definition _get_dask_chunks (fuel : nat) (s : signal)
           (need_axes : list nat) (dtype_arg : option dtype)
  : outcome (list (list Z)) :=
  let dcshape := dc_shape s in
  let axes := refresh dcshape (axes_size s) in
  let typesize := typesize s dtype_arg in
  let want_to_keep :=
    multiply (map (fun k => nth k axes 0) need_axes) * typesize in
  if want_to_keep =? 0 then Raises ZeroDivisionError
  else
    let num_that_fit := budget / want_to_keep in
    if num_that_fit <? 2 then
      keep_whole dcshape need_axes
                 (map (fun n => repeat 1 (Z.to_nat n)) dcshape)
    else
      let indices := free_axes (length axes) need_axes in
      let sizes := map (fun k => nth k axes 0) indices in
      obind (halve_loop fuel num_that_fit sizes) (fun sizes' =>
        collect (map (chunk_of_dim dcshape indices sizes')
                     (seq 0 (length dcshape)))).

End ChunkPlanner.

(** ** 2. Methods with side effects: the machine

    The methods below read and assign attributes of the signal and call
    into collaborators (dask, numpy, the base signal class, the axes
    manager, the estimators).  A run is a function of a [machine]: the
    attributes of [self] that the source assigns, the [world] of the
    collaborators, and the [trace] of what has been done so far.  Arrays
    and other collaborator objects are handles ([ref]); what a collaborator
    call returns, raises and does to the world is given by an oracle, so
    every theorem holds for every behaviour of the collaborators. *)

Module Effects.

Definition ref : Type := nat.

(** What a call does: it returns a value or raises. *)
Inductive result (A : Type) : Type :=
| Val (a : A)
| Exn (e : exn).

Arguments Val {A} a.
Arguments Exn {A} e.

(** External operations, as they appear in the source. *)
Inductive op : Type :=
| OpCmEnter            (* [cm().__enter__()] *)
| OpCmExit             (* [cm().__exit__(...)] *)
| OpCompute            (* [da.compute()] *)
| OpGraphKeys          (* [self.data.dask.keys()] *)
| OpFileOf             (* [self.data.dask[arrkey].file] *)
| OpClose              (* [handle.close()] *)
| OpAssignSubclass     (* [self._assign_subclass()] *)
| OpAligned            (* [self._data_aligned_with_axes] *)
| OpNewEstimator       (* [IncrementalPCA(...)], [ORPCA(...)], [ORNMF(...)] *)
| OpZeros              (* [da.zeros(shape, chunks=...)] *)
| OpFromArray          (* [da.from_array(thing, chunks=chunks)] *)
| OpRechunk            (* [thing.rechunk(chunks)] *)
| OpLogicalNot         (* [da.logical_not(...)] *)
| OpPoissonSums        (* [da.compute(data.sum(...), data.sum(...))] *)
| OpPoissonScale       (* [da.where] ... [data / coeff] *)
| OpUnfold             (* [self.unfold()] *)
| OpFold               (* [self.fold()] *)
| OpSvd                (* [svd(self.data)] and the truncation that follows *)
| OpCheckNavMask       (* [self._check_navigation_mask(...)] *)
| OpCheckSigMask       (* [self._check_signal_mask(...)] *)
| OpLazyData           (* [self._lazy_data()] *)
| OpBlockSetup         (* the reshape and mask preparation of the iterator *)
| OpGetBlock           (* [get(data.dask, key)] and the masking of a block *)
| OpFit                (* [method(np.concatenate(this_data, axis=0))] *)
| OpFitted             (* [obj.components_], [obj.finish()], ... *)
| OpProject            (* [obj.transform(thing)], [obj.project(thing)] *)
| OpPost               (* [post(H)] *)
| OpVarianceRatio      (* [explained_variance / explained_variance.sum()] *)
| OpReshuffle          (* [_reshuffle_mixed_blocks(...).reshape(...)] *)
| OpRescale            (* [target.factors * rbH.ravel()[:, np.newaxis]] ... *)
| OpPrint              (* [print(...)] *)
| OpRechunkCopy        (* [self.rechunk(inplace=False)] *)
| OpPrepareKwarg       (* the body of [for key in iterating_kwargs] *)
| OpProbe              (* [guess_output_signal_size(...)] on a test block *)
| OpMapBlocks          (* [da.map_blocks(process_function_blockwise, ...)] *)
| OpDeepcopy           (* [self._deepcopy_with_new_data(mapped)] *)
| OpRaggedAxes         (* the axes manager of a ragged result *)
| OpUpdateAxes         (* removing and appending signal axes *)
| OpGetDimensions      (* [sig.get_dimensions_from_data()] *)
| OpReshape            (* [array.reshape(new_shape)] *)
| OpAsLazy.            (* the loop body on [self.as_lazy()] *)

(** How an external call ended. *)
Inductive status : Type :=
| Done
| DoneBool (b : bool)
| DoneRef (r : ref)
| Failed (e : exn).

Inductive event : Type :=
| Ev (o : op) (s : status)   (* an external call and how it ended *)
| ReadData                   (* [... = self.data] *)
| WriteData (r : ref)        (* [self.data = ...] *)
| Warning.                   (* [warnings.warn], [_logger.warning] *)

(** [self.learning_results], as [decomposition] commits it. *)
Record learning_results : Type := {
  decomposition_algorithm : string;
  lr_output_dimension : option Z;
  _object : option ref;
  factors : ref;
  loadings : ref;
  explained_variance : option ref;
  explained_variance_ratio : option ref
}.

Section Machine.

(** The state of the collaborators. *)
Variable W : Type.

Record machine : Type := {
  data : ref;                                  (* [self.data] *)
  _lazy : bool;                                (* [self._lazy] *)
  _unfolded4decomposition : option bool;       (* unset, or a bool *)
  results : option learning_results;
  world : W;
  trace : list event
}.

Definition M (A : Type) : Type := machine -> result A * machine.

Definition ret {A} (a : A) : M A := fun m => (Val a, m).

Definition raise {A} (e : exn) : M A := fun m => (Exn e, m).

Definition bind {A B} (c : M A) (k : A -> M B) : M B :=
  fun m =>
    match c m with
    | (Val a, m') => k a m'
    | (Exn e, m') => (Exn e, m')
    end.

(** [try: body finally: cleanup] *)
Definition try_finally {A} (body : M A) (cleanup : M unit) : M A :=
  fun m =>
    let (r, m1) := body m in
    match cleanup m1 with
    | (Val _, m2) => (r, m2)
    | (Exn e, m2) => (Exn e, m2)
    end.

(** [try: body except <handles>: handler] *)
Definition try_except {A} (body : M A) (handles : exn -> bool)
           (handler : M A) : M A :=
  fun m =>
    match body m with
    | (Exn e, m') => if handles e then handler m' else (Exn e, m')
    | r => r
    end.

Definition log (e : event) : M unit :=
  fun m =>
    (Val tt,
     {| data := data m; _lazy := _lazy m;
        _unfolded4decomposition := _unfolded4decomposition m;
        results := results m; world := world m;
        trace := trace m ++ [e] |}).

Definition set_world (w : W) : M unit :=
  fun m =>
    (Val tt,
     {| data := data m; _lazy := _lazy m;
        _unfolded4decomposition := _unfolded4decomposition m;
        results := results m; world := w; trace := trace m |}).

Definition get_world : M W := fun m => (Val (world m), m).

Definition assign_data (r : ref) : M unit :=
  fun m =>
    (Val tt,
     {| data := r; _lazy := _lazy m;
        _unfolded4decomposition := _unfolded4decomposition m;
        results := results m; world := world m; trace := trace m |}).

(** [... = self.data] *)
Definition read_data : M ref :=
  fun m => bind (log ReadData) (fun _ m' => (Val (data m'), m')) m.

(** [self.data = r] *)
Definition write_data (r : ref) : M unit :=
  bind (log (WriteData r)) (fun _ => assign_data r).

Definition set_lazy (b : bool) : M unit :=
  fun m =>
    (Val tt,
     {| data := data m; _lazy := b;
        _unfolded4decomposition := _unfolded4decomposition m;
        results := results m; world := world m; trace := trace m |}).

Definition get_lazy : M bool := fun m => (Val (_lazy m), m).

Definition set_unfolded4decomposition (b : bool) : M unit :=
  fun m =>
    (Val tt,
     {| data := data m; _lazy := _lazy m;
        _unfolded4decomposition := Some b;
        results := results m; world := world m; trace := trace m |}).

(** Reading the attribute before it was ever assigned is an
    [AttributeError]. *)
Definition get_unfolded4decomposition : M bool :=
  fun m =>
    match _unfolded4decomposition m with
    | Some b => (Val b, m)
    | None => (Exn AttributeError, m)
    end.

Definition set_results (l : learning_results) : M unit :=
  fun m =>
    (Val tt,
     {| data := data m; _lazy := _lazy m;
        _unfolded4decomposition := _unfolded4decomposition m;
        results := Some l; world := world m; trace := trace m |}).

Definition warn : M unit := log Warning.

Definition status_of {A} (summary : A -> status) (r : result A) : status :=
  match r with
  | Val a => summary a
  | Exn e => Failed e
  end.

(** A call into a collaborator that cannot assign [self.data]: the oracle
    [f] gives its result and the world it leaves. *)
Definition call_with {A} (o : op) (summary : A -> status)
           (f : W -> result A * W) : M A :=
  fun m =>
    let (r, w) := f (world m) in
    bind (set_world w)
         (fun _ => bind (log (Ev o (status_of summary r)))
                        (fun _ m' => (r, m'))) m.

Definition call {A} (o : op) (f : W -> result A * W) : M A :=
  call_with o (fun _ => Done) f.

(** A method of the base signal class that may replace [self.data]
    ([unfold], [fold]): the oracle also gives the array it leaves. *)
Definition call_on_data {A} (o : op) (summary : A -> status)
           (f : ref -> W -> result A * ref * W) : M A :=
  fun m =>
    match f (data m) (world m) with
    | (r, d, w) =>
        bind (set_world w)
             (fun _ => bind (assign_data d)
                (fun _ => bind (log (Ev o (status_of summary r)))
                               (fun _ m' => (r, m')))) m
    end.

(** [for x in l: body x] *)
Fixpoint for_each {X} (l : list X) (body : X -> M unit) : M unit :=
  match l with
  | [] => ret tt
  | x :: r => bind (body x) (fun _ => for_each r body)
  end.

Definition when (b : bool) (c : M unit) : M unit :=
  if b then c else ret tt.

Definition run {A} (c : M A) (m : machine) : result A * machine := c m.

End Machine.

Arguments ret {W A} a.
Arguments raise {W A} e.
Arguments read_data {W}.
Arguments get_world {W}.
Arguments get_lazy {W}.
Arguments get_unfolded4decomposition {W}.
Arguments warn {W}.

Declare Scope effect_scope.
Delimit Scope effect_scope with eff.
Notation "x <- c ;; k" := (bind c (fun x => k))
  (at level 61, c at next level, right associativity) : effect_scope.
Notation "c ;;; k" := (bind c (fun _ => k))
  (at level 61, right associativity) : effect_scope.

End Effects.

(** ** 3. [LazySignal.compute], [close_file] and [_get_file_handle] *)

Module Materialise.
Import Effects.
Local Open Scope string_scope.
Local Open Scope eff.

Section Compute.

Variable W : Type.

(** The collaborators of [compute]. *)
Record collaborators : Type := {
  (** [preferences.General.show_progressbar] *)
  pref_show_progressbar : W -> bool;
  (** entering and leaving [ProgressBar()] (flag [true]) or
      [dummy_context_manager()] (flag [false]) *)
  cm_enter : bool -> W -> result unit * W;
  cm_exit : bool -> W -> result unit * W;
  (** [da.compute()]: the numpy array the dask array evaluates to *)
  da_compute : ref -> W -> result ref * W;
  (** [self.data.dask.keys()] *)
  graph_keys : ref -> W -> result (list string) * W;
  (** [self.data.dask[arrkey].file] *)
  file_of : ref -> string -> W -> result ref * W;
  (** [handle.close()] *)
  close_handle : ref -> W -> result unit * W;
  (** [self._assign_subclass()] *)
  assign_subclass : W -> result unit * W
}.

Variable env : collaborators.

(** ["array-original" in key] *)
Definition is_original (key : string) : bool :=
  match index 0 "array-original" key with
  | Some _ => true
  | None => false
  end.

Definition attribute_or_value_error (e : exn) : bool :=
  match e with
  | AttributeError | ValueError => true
  | _ => false
  end.

Definition attribute_error (e : exn) : bool :=
  match e with
  | AttributeError => true
  | _ => false
  end.

(** The file handle, or [None]. *)
Definition _get_file_handle (warn_arg : bool) : M W (option ref) :=
  d <- read_data ;;
  keys <- call OpGraphKeys (graph_keys env d) ;;
  match find is_original keys with
  | Some arrkey =>
      try_except
        (d' <- read_data ;;
         f <- call_with OpFileOf DoneRef (file_of env d' arrkey) ;;
         ret (Some f))
        attribute_or_value_error
        (when warn_arg warn ;;; ret None)
  | None => ret None
  end.

(** [None.close()] is an [AttributeError]. *)
Definition close_file : M W unit :=
  try_except
    (h <- _get_file_handle true ;;
     match h with
     | Some f => call OpClose (close_handle env f)
     | None => raise AttributeError
     end)
    attribute_error
    warn.

(** [kw_progressbar] is [kwargs["progressbar"]] when the deprecated
    keyword is given. *)
Definition compute (close_file_arg : bool) (show_progressbar : option bool)
           (kw_progressbar : option (option bool)) : M W unit :=
  show_progressbar <-
    match kw_progressbar with
    | Some v => warn ;;; ret v
    | None => ret show_progressbar
    end ;;
  show_progressbar <-
    match show_progressbar with
    | None => w <- get_world ;; ret (pref_show_progressbar env w)
    | Some b => ret b
    end ;;
  call OpCmEnter (cm_enter env show_progressbar) ;;;
  try_finally
    (da <- read_data ;;
     data <- call_with OpCompute DoneRef (da_compute env da) ;;
     when close_file_arg close_file ;;;
     write_data data)
    (call OpCmExit (cm_exit env show_progressbar)) ;;;
  set_lazy false ;;;
  call OpAssignSubclass (assign_subclass env).

End Compute.

(** A world for examples: a counter that numbers the objects created. *)
Definition fresh (w : nat) : result ref * nat := (Val w, S w).

Definition quiet : collaborators nat := {|
  pref_show_progressbar := fun _ => false;
  cm_enter := fun _ w => (Val tt, w);
  cm_exit := fun _ w => (Val tt, w);
  da_compute := fun _ => fresh;
  graph_keys := fun _ w => (Val ["array-original-1f0e"; "getitem-77"], w);
  file_of := fun _ _ => fresh;
  close_handle := fun _ w => (Val tt, w);
  assign_subclass := fun w => (Val tt, w)
|}.

Definition lazy_machine (d : ref) (w : nat) : machine nat := {|
  data := d; _lazy := true; _unfolded4decomposition := None;
  results := None; world := w; trace := []
|}.

(** The machine [lazy_machine 3 10] after [compute(close_file=True)] with
    the collaborators [quiet]. *)
Definition computed_machine : machine nat := {|
  data := 10; _lazy := false; _unfolded4decomposition := None;
  results := None; world := 12;
  trace := [Ev OpCmEnter Done; ReadData; Ev OpCompute (DoneRef 10);
            ReadData; Ev OpGraphKeys Done; ReadData;
            Ev OpFileOf (DoneRef 11); Ev OpClose Done; WriteData 10;
            Ev OpCmExit Done; Ev OpAssignSubclass Done]
|}.

(** Collaborators for examples where [da.compute()] raises (a
    [MemoryError], say) and no file backs the data. *)
Definition out_of_memory : collaborators nat := {|
  pref_show_progressbar := fun _ => false;
  cm_enter := fun _ w => (Val tt, w);
  cm_exit := fun _ w => (Val tt, w);
  da_compute := fun _ w => (Exn (OtherError 7), w);
  graph_keys := fun _ w => (Val ["getitem-77"; "rechunk-merge-5"], w);
  file_of := fun _ _ w => (Exn ValueError, w);
  close_handle := fun _ w => (Val tt, w);
  assign_subclass := fun w => (Val tt, w)
|}.

(** The machine [lazy_machine 3 10] after [compute] with the collaborators
    [out_of_memory]. *)
Definition failed_machine : machine nat := {|
  data := 3; _lazy := true; _unfolded4decomposition := None;
  results := None; world := 10;
  trace := [Ev OpCmEnter Done; ReadData;
            Ev OpCompute (Failed (OtherError 7)); Ev OpCmExit Done]
|}.

(** Collaborators for examples where the hdf5 file is already closed:
    looking up the handle raises [ValueError]. *)
Definition closed_file : collaborators nat := {|
  pref_show_progressbar := fun _ => false;
  cm_enter := fun _ w => (Val tt, w);
  cm_exit := fun _ w => (Val tt, w);
  da_compute := fun _ => fresh;
  graph_keys := fun _ w => (Val ["getitem-77"; "array-original-1f0e"], w);
  file_of := fun _ _ w => (Exn ValueError, w);
  close_handle := fun _ w => (Val tt, w);
  assign_subclass := fun w => (Val tt, w)
|}.

End Materialise.

(** ** 5. [LazySignal.rechunk], [_get_navigation_chunk_size] and
       [_map_iterate] *)

Module BlockwiseMap.
Import Effects.
Local Open Scope eff.

(** A chunk request for one dimension: ["auto"], [-1], a size, or the
    tuple of the chunk lengths. *)
Inductive chunk_request : Type :=
| Auto
| Whole
| Size (n : Z)
| Chunks (cs : list Z).

(** [nav_chunks] and [sig_chunks] are a tuple, or one request for every
    dimension. *)
Inductive chunk_argument : Type :=
| Each (r : chunk_request)
| Tuple (rs : list chunk_request).

(** A signal object: [self], or a copy made on the way. *)
Inductive signal_object : Type :=
| Self
| Copy (h : ref).

(** The value of an iterating keyword argument: the signal [self], or
    another object (a signal or an array). *)
Inductive iterated : Type :=
| Itself
| Another (h : ref).

Record arguments : Type := {
  iterating_kwargs : list (string * iterated);
  ragged : bool;
  inplace : bool;
  output_signal_size : option (list Z);
  output_dtype : option dtype
}.

Fixpoint insert_sorted (x : nat) (l : list nat) : list nat :=
  match l with
  | [] => [x]
  | y :: r => if (x <=? y)%nat then x :: l else y :: insert_sorted x r
  end.

(** [sorted(...)] *)
Definition sorted (l : list nat) : list nat :=
  fold_right insert_sorted [] l.

Section MapIterate.

Variable W : Type.

Record collaborators : Type := {
  navigation_indices_in_array : W -> list nat;
  signal_indices_in_array : W -> list nat;
  navigation_shape : W -> list Z;
  signal_shape : W -> list Z;
  (** the same four, on a copy *)
  copy_navigation_indices : ref -> W -> list nat;
  copy_signal_indices : ref -> W -> list nat;
  copy_signal_shape : ref -> W -> list Z;
  copy_data : ref -> W -> ref;
  chunksize_of : ref -> W -> list Z;
  shape_of : ref -> W -> list Z;
  chunks_of : ref -> W -> list (list Z);
  (** [array.rechunk(new_chunks)] *)
  da_rechunk : ref -> list chunk_request -> W -> result ref * W;
  (** [self._deepcopy_with_new_data(array)] *)
  deepcopy_with_new_data : ref -> W -> result ref * W;
  (** the body of the loop over [iterating_kwargs], for a key whose value
      is another object than [self]: the array passed on to [map_blocks] *)
  prepare_kwarg :
    signal_object -> list (list Z) -> string * ref -> W -> result ref * W;
  (** the same, for [self] when it is not lazy: the body works on
      [self.as_lazy()], a new signal *)
  prepare_as_lazy :
    signal_object -> list (list Z) -> string -> W -> result ref * W;
  (** [array.reshape(old_shape + (1,) * extra_dims)] *)
  reshape : ref -> nat -> W -> result ref * W;
  (** the trial run on the block at index zero *)
  probe : signal_object -> W -> result (list Z * dtype) * W;
  (** [da.map_blocks(process_function_blockwise, ...)], from the data,
      the extra arrays, [drop_axis], [new_axis] and the output geometry *)
  map_blocks :
    ref -> list ref -> option (list nat) -> option (list nat) ->
    list Z -> dtype -> list (list Z) -> W -> result ref * W;
  ragged_axes : ref -> W -> result unit * W;
  update_axes : signal_object -> list Z -> W -> result unit * W;
  get_dimensions_from_data : signal_object -> W -> result unit * W
}.

Variable env : collaborators.

Definition spread (c : chunk_argument) (n : nat) : list chunk_request :=
  match c with
  | Tuple rs => rs
  | Each r => repeat r n
  end.

(** [rechunk] (lines 134-168): the copy when [inplace] is false. *)
Definition rechunk (nav_chunks sig_chunks : chunk_argument) (inplace : bool)
  : M W (option ref) :=
  w <- get_world ;;
  let sig_chunks := spread sig_chunks (length (signal_shape env w)) in
  let nav_chunks := spread nav_chunks (length (navigation_shape env w)) in
  let new_chunks := nav_chunks ++ sig_chunks in
  d <- read_data ;;
  r <- call OpRechunk (da_rechunk env d new_chunks) ;;
  if inplace then write_data r ;;; ret None
  else c <- call OpDeepcopy (deepcopy_with_new_data env r) ;; ret (Some c).

Definition data_of (s : signal_object) : M W ref :=
  match s with
  | Self => read_data
  | Copy h => w <- get_world ;; ret (copy_data env h w)
  end.

(** [_get_navigation_chunk_size] (lines 276-279) *)
Definition _get_navigation_chunk_size (s : signal_object)
  : M W (list (list Z)) :=
  w <- get_world ;;
  let nav_axes := match s with
                  | Self => navigation_indices_in_array env w
                  | Copy h => copy_navigation_indices env h w
                  end in
  d <- data_of s ;;
  w <- get_world ;;
  ret (map (fun i => nth i (chunks_of env d w) []) (sorted nav_axes)).

Definition list_eqb (l1 l2 : list Z) : bool :=
  if list_eq_dec Z.eq_dec l1 l2 then true else false.

Definition chunks_eqb (c1 c2 : list (list Z)) : bool :=
  if list_eq_dec (list_eq_dec Z.eq_dec) c1 c2 then true else false.

(** The body of the loop over [iterating_kwargs] (lines 613-634) when the
    value is [self]: a lazy signal whose navigation chunks differ from
    [nav_chunks] is rechunked in place. *)
Definition prepare_itself (old_sig : signal_object)
           (nav_chunks : list (list Z)) (key : string) : M W ref :=
  lazy <- get_lazy ;;
  if lazy then
    own_chunks <- _get_navigation_chunk_size Self ;;
    when (negb (chunks_eqb own_chunks nav_chunks))
         (rechunk (Tuple (map Chunks nav_chunks)) (Each Whole) true ;;;
          ret tt) ;;;
    w <- get_world ;;
    let old_shape := match old_sig with
                     | Self => signal_shape env w
                     | Copy h => copy_signal_shape env h w
                     end in
    let extra_dims := (length old_shape - length (signal_shape env w))%nat in
    d <- read_data ;;
    if (0 <? extra_dims)%nat
    then call OpReshape (reshape env d extra_dims)
    else ret d
  else
    call OpAsLazy (prepare_as_lazy env old_sig nav_chunks key).

(** [for key in iterating_kwargs: ...] *)
Fixpoint prepare_kwargs (old_sig : signal_object) (nav_chunks : list (list Z))
         (kw : list (string * iterated)) : M W (list ref) :=
  match kw with
  | [] => ret []
  | (key, v) :: r =>
      x <- match v with
           | Itself => prepare_itself old_sig nav_chunks key
           | Another h =>
               call OpPrepareKwarg
                    (prepare_kwarg env old_sig nav_chunks (key, h))
           end ;;
      xs <- prepare_kwargs old_sig nav_chunks r ;;
      ret (x :: xs)
  end.

(** [zip(output_signal_size, signal_shape, signal_indices_in_array)],
    keeping the indices where the sizes differ. *)
Fixpoint mismatched (out old : list Z) (idx : list nat) : list nat :=
  match out, old, idx with
  | o :: out', i :: old', it :: idx' =>
      if (o =? i)%Z then mismatched out' old' idx'
      else it :: mismatched out' old' idx'
  | _, _, _ => []
  end.

Definition _map_iterate (a : arguments) : M W signal_object :=
  w <- get_world ;;
  let nav_indexes := navigation_indices_in_array env w in
  if ragged a && inplace a then raise ValueError
  else
    d <- read_data ;;
    w <- get_world ;;
    let chunksize := chunksize_of env d w in
    let shape := shape_of env d w in
    let chunk_span :=
      map (fun i => (nth i chunksize 0 =? nth i shape 0)%Z)
          (signal_indices_in_array env w) in
    old_sig <- (if negb (forallb (fun b => b) chunk_span)
                then c <- rechunk (Each Auto) (Each Whole) false ;;
                     match c with
                     | Some h => ret (Copy h)
                     | None => ret Self
                     end
                else ret Self) ;;
    let autodetermine :=
      match output_signal_size a, output_dtype a with
      | Some _, Some _ => false
      | _, _ => true
      end in
    nav_chunks <- _get_navigation_chunk_size old_sig ;;
    args <- prepare_kwargs old_sig nav_chunks (iterating_kwargs a) ;;
    guess <- (match output_signal_size a, output_dtype a with
              | Some s, Some t => ret (s, t)
              | _, _ => call OpProbe (probe env old_sig)
              end) ;;
    let '(output_signal_size, output_dtype) := guess in
    w <- get_world ;;
    let old_shape := match old_sig with
                     | Self => signal_shape env w
                     | Copy h => copy_signal_shape env h w
                     end in
    let old_indices := match old_sig with
                       | Self => signal_indices_in_array env w
                       | Copy h => copy_signal_indices env h w
                       end in
    let axes_changed := negb (list_eqb output_signal_size old_shape) in
    let drop_axis :=
      if negb axes_changed then None
      else if negb (length output_signal_size =? length old_shape)%nat
           then Some old_indices
           else Some (mismatched output_signal_size old_shape old_indices) in
    let new_axis :=
      if negb axes_changed then None
      else if negb (length output_signal_size =? length old_shape)%nat
           then Some (seq (length nav_indexes) (length output_signal_size))
           else drop_axis in
    od <- data_of old_sig ;;
    w <- get_world ;;
    let chunks :=
      map (fun i => nth i (chunks_of env od w) []) (sorted nav_indexes)
          ++ map (fun n => [n]) output_signal_size in
    mapped <- call_with OpMapBlocks DoneRef
                        (map_blocks env od args drop_axis new_axis
                                    output_signal_size output_dtype chunks) ;;
    let finish sig :=
      when axes_changed
           (call OpUpdateAxes (update_axes env sig output_signal_size)) ;;;
      when (negb (ragged a))
           (call OpGetDimensions (get_dimensions_from_data env sig)) ;;;
      ret sig in
    if inplace a then
      write_data mapped ;;; finish Self
    else
      c <- call OpDeepcopy (deepcopy_with_new_data env mapped) ;;
      if ragged a then
        call OpRaggedAxes (ragged_axes env c) ;;; ret (Copy c)
      else finish (Copy c).

End MapIterate.

(** Collaborators for examples: a signal with navigation shape (4, 4) and
    signal shape (8,), stored in chunks of 2 x 2 x 8; every array created
    on the way is numbered by the world counter. *)
Definition plain : collaborators nat := {|
  navigation_indices_in_array := fun _ => [0; 1]%nat;
  signal_indices_in_array := fun _ => [2]%nat;
  navigation_shape := fun _ => [4; 4]%Z;
  signal_shape := fun _ => [8]%Z;
  copy_navigation_indices := fun _ _ => [0; 1]%nat;
  copy_signal_indices := fun _ _ => [2]%nat;
  copy_signal_shape := fun _ _ => [8]%Z;
  copy_data := fun h _ => h;
  chunksize_of := fun _ _ => [2; 2; 8]%Z;
  shape_of := fun _ _ => [4; 4; 8]%Z;
  chunks_of := fun _ _ => [[2; 2]; [2; 2]; [8]]%Z;
  da_rechunk := fun _ _ w => (Val w, S w);
  deepcopy_with_new_data := fun _ w => (Val w, S w);
  prepare_kwarg := fun _ _ _ w => (Val w, S w);
  prepare_as_lazy := fun _ _ _ w => (Val w, S w);
  reshape := fun _ _ w => (Val w, S w);
  probe := fun _ w => (Val ([8]%Z, float64), w);
  map_blocks := fun _ _ _ _ _ _ _ w => (Val w, S w);
  ragged_axes := fun _ w => (Val tt, w);
  update_axes := fun _ _ w => (Val tt, w);
  get_dimensions_from_data := fun _ w => (Val tt, w)
|}.

(** [s._map_iterate(f, iterating_kwargs={"x": x}, inplace=False)] *)
Definition copy_arguments : arguments := {|
  iterating_kwargs := [("x"%string, Another 5)];
  ragged := false; inplace := false;
  output_signal_size := None; output_dtype := None
|}.

(** [s._map_iterate(f, iterating_kwargs={"x": x}, output_signal_size=(8,),
    output_dtype=float)] *)
Definition inplace_arguments : arguments := {|
  iterating_kwargs := [("x"%string, Another 5)];
  ragged := false; inplace := true;
  output_signal_size := Some [8]%Z; output_dtype := Some float64
|}.

(** The same signal stored in chunks of 4 x 4 x 4 (array 3), which splits
    the signal axis; the arrays made by rechunking span it, in chunks of
    2 x 2 x 8. *)
Definition split_signal : collaborators nat := {|
  navigation_indices_in_array := fun _ => [0; 1]%nat;
  signal_indices_in_array := fun _ => [2]%nat;
  navigation_shape := fun _ => [4; 4]%Z;
  signal_shape := fun _ => [8]%Z;
  copy_navigation_indices := fun _ _ => [0; 1]%nat;
  copy_signal_indices := fun _ _ => [2]%nat;
  copy_signal_shape := fun _ _ => [8]%Z;
  copy_data := fun h _ => h;
  chunksize_of := fun d _ => if (d =? 3)%nat then [4; 4; 4]%Z
                             else [2; 2; 8]%Z;
  shape_of := fun _ _ => [4; 4; 8]%Z;
  chunks_of := fun d _ => if (d =? 3)%nat then [[4]; [4]; [4; 4]]%Z
                          else [[2; 2]; [2; 2]; [8]]%Z;
  da_rechunk := fun _ _ w => (Val w, S w);
  deepcopy_with_new_data := fun d w => (Val d, w);
  prepare_kwarg := fun _ _ _ w => (Val w, S w);
  prepare_as_lazy := fun _ _ _ w => (Val w, S w);
  reshape := fun _ _ w => (Val w, S w);
  probe := fun _ w => (Val ([8]%Z, float64), w);
  map_blocks := fun _ _ _ _ _ _ _ w => (Val w, S w);
  ragged_axes := fun _ w => (Val tt, w);
  update_axes := fun _ _ w => (Val tt, w);
  get_dimensions_from_data := fun _ w => (Val tt, w)
|}.

(** [s._map_iterate(f, iterating_kwargs={"x": s}, inplace=False)] *)
Definition aliased_arguments : arguments := {|
  iterating_kwargs := [("x"%string, Itself)];
  ragged := false; inplace := false;
  output_signal_size := None; output_dtype := None
|}.

Definition signal_machine (d : ref) (w : nat) : machine nat := {|
  data := d; _lazy := true; _unfolded4decomposition := None;
  results := None; world := w; trace := []
|}.

End BlockwiseMap.

(** ** 4. [LazySignal.decomposition] *)

Module Decomposition.
Import Effects.
Local Open Scope string_scope.
Local Open Scope eff.

(** *** The batch geometry (lines 879-886) *)

(** [np.ceil(blocksize / output_dimension)] and the comparison before it,
    on exact rationals. *)
Definition ratio (blocksize output_dimension : Z) : Q :=
  Qdiv (inject_Z blocksize) (inject_Z output_dimension).

Definition Qlt_bool (x y : Q) : bool := negb (Qle_bool y x).

(** [if output_dimension and blocksize / output_dimension < num_chunks:
       num_chunks = np.ceil(blocksize / output_dimension)] *)
Definition adjust_num_chunks (blocksize : Z) (output_dimension : option Z)
           (num_chunks : Z) : Z :=
  match output_dimension with
  | Some d =>
      if negb (d =? 0)%Z
         && Qlt_bool (ratio blocksize d) (inject_Z num_chunks)
      then Qceiling (ratio blocksize d)
      else num_chunks
  | None => num_chunks
  end.

(** [num_chunks = 1 if num_chunks is None else num_chunks], the adjustment,
    and [blocksize *= num_chunks]: the adjusted [num_chunks] and the batch
    size. *)
Definition batch_geometry (blocksize : Z) (output_dimension : option Z)
           (num_chunks : option Z) : Z * Z :=
  let num_chunks := match num_chunks with None => 1 | Some n => n end%Z in
  let num_chunks := adjust_num_chunks blocksize output_dimension num_chunks in
  (num_chunks, (blocksize * num_chunks)%Z).

(** [itertools.product] of the lists, in its order (last factor fastest). *)
Fixpoint product {A} (ls : list (list A)) : list (list A) :=
  match ls with
  | [] => [[]]
  | l :: r => flat_map (fun x => map (cons x) (product r)) l
  end.

(** [np.min] of a sequence raises on an empty one. *)
Definition np_min (l : list Z) : result Z :=
  match l with
  | [] => Exn ValueError
  | x :: r => Val (fold_left Z.min r x)
  end.

(** [np.min] of [multiply(ar)] over [ar] in the product of [nav_chunks]. *)
Definition min_blocksize (nav_chunks : list (list Z)) : result Z :=
  np_min (map ChunkPlanner.multiply (product nav_chunks)).

(** The batches the learning loop makes of what the block iterator
    yields: an item joins the pending ones, and when there are
    [num_chunks] of them they make a batch; what is pending at the end
    makes a last batch. *)
Fixpoint group {X} (num_chunks : Z) (pending l : list X) : list (list X) :=
  match l with
  | [] => match pending with [] => [] | _ => [pending] end
  | x :: r =>
      let pending := (pending ++ [x])%list in
      if (Z.of_nat (length pending) =? num_chunks)%Z
      then pending :: group num_chunks [] r
      else group num_chunks pending r
  end.

(** *** Arguments and collaborators *)

(** What a mask argument can be. *)
Inductive thing : Type :=
| Ndarray (a : ref)
| DaskArray (a : ref)
| BaseSignal (data : thing)
| Other.

Record arguments : Type := {
  normalize_poissonian_noise : bool;
  algorithm : string;
  output_dimension : option Z;
  signal_mask : option thing;
  navigation_mask : option thing;
  num_chunks : option Z;
  reproject : bool;
  print_info : bool;
  kw_bounds : bool      (* [kwargs.get("bounds", False)] *)
}.

Definition chunks : Type := list (list Z).

Section Decompose.

Variable W : Type.

Record collaborators : Type := {
  (** [self._data_aligned_with_axes], from [self.data] *)
  aligned : ref -> W -> result ref * W;
  (** [array.chunks] *)
  chunks_of : ref -> W -> chunks;
  (** [self.axes_manager.navigation_dimension] *)
  navigation_dimension : W -> nat;
  (** [import_sklearn.sklearn_installed] *)
  sklearn_installed : W -> bool;
  (** the estimator for an algorithm and an output dimension *)
  new_estimator : string -> option Z -> W -> result ref * W;
  (** [da.zeros(shape, chunks=chunks)] over the navigation ([true]) or the
      signal ([false]) shape *)
  zeros : bool -> chunks -> W -> result ref * W;
  da_compute : ref -> W -> result ref * W;
  from_array : ref -> chunks -> W -> result ref * W;
  rechunk : ref -> chunks -> W -> result ref * W;
  logical_not : ref -> W -> result ref * W;
  (** [bH, aG = da.compute(data.sum(...), data.sum(...))] *)
  poisson_sums : ref -> W -> result (ref * ref) * W;
  (** lines 949-958, from [data], [nm], [sm], [bH], [aG]: the scaled
      data, [raG] and [rbH] *)
  poisson_scale :
    ref -> ref -> ref -> ref * ref -> W -> result (ref * ref * ref) * W;
  (** [self.unfold()] and [self.fold()] may replace [self.data] *)
  unfold : ref -> W -> result bool * ref * W;
  fold : ref -> W -> result unit * ref * W;
  (** lines 972-985, from [self.data] and [output_dimension]: [factors],
      [explained_variance], [loadings] *)
  svd : ref -> option Z -> W -> result (ref * ref * ref) * W;
  check_navigation_mask : option thing -> W -> result unit * W;
  check_signal_mask : option thing -> W -> result unit * W;
  (** [self._lazy_data()], from [self.data] *)
  lazy_data : ref -> W -> result ref * W;
  (** the reshape of [_block_iterator] and its preparation of the masks *)
  block_setup :
    ref -> option thing -> option thing -> W -> result unit * W;
  (** one block of the iterator, masked and flattened *)
  get_block : list nat -> W -> result ref * W;
  (** [method(np.concatenate(this_data, axis=0))] *)
  fit : string -> ref -> list ref -> W -> result unit * W;
  (** lines 1018-1029: [explained_variance], [explained_variance_ratio],
      [factors], [loadings] as far as the estimator gives them *)
  fitted :
    string -> ref -> W ->
    result (option ref * option ref * ref * option ref) * W;
  (** [method(thing)] of the reprojection *)
  project : string -> ref -> ref -> W -> result ref * W;
  (** [post(H)] *)
  post : string -> list ref -> W -> result ref * W;
  (** [explained_variance / explained_variance.sum()] *)
  variance_ratio : ref -> W -> result ref * W;
  (** [_reshuffle_mixed_blocks(loadings, ...).reshape(...)] *)
  reshuffle : ref -> nat -> option Z -> chunks -> W -> result ref * W;
  (** [x * r.ravel()[:, np.newaxis]] *)
  rescale : ref -> ref -> W -> result ref * W;
  print : W -> result unit * W
}.

Variable env : collaborators.

(** *** [to_array] (lines 49-84) *)

Definition chunks_eqb (c1 c2 : chunks) : bool :=
  if list_eq_dec (list_eq_dec Z.eq_dec) c1 c2 then true else false.

Definition to_array (t : option thing) (cs : option chunks)
  : M W (option ref) :=
  match t with
  | None => ret None
  | Some t =>
      let t := match t with BaseSignal d => d | _ => t end in
      match cs with
      | None =>
          t <- match t with
               | DaskArray a =>
                   a' <- call OpCompute (da_compute env a) ;; ret (Ndarray a')
               | _ => ret t
               end ;;
          match t with
          | Ndarray a => ret (Some a)
          | _ => raise ValueError
          end
      | Some cs =>
          t <- match t with
               | Ndarray a =>
                   a' <- call OpFromArray (from_array env a cs) ;;
                   ret (DaskArray a')
               | _ => ret t
               end ;;
          match t with
          | DaskArray a =>
              w <- get_world ;;
              if chunks_eqb (chunks_of env a w) cs then ret (Some a)
              else a' <- call OpRechunk (rechunk env a cs) ;; ret (Some a')
          | _ => raise ValueError
          end
      end
  end.

(** *** The prelude (lines 847-921) *)

Record context : Type := {
  ctx_algorithm : string;
  nav_chunks : chunks;
  sig_chunks : chunks;
  ctx_num_chunks : Z;
  nblocks : Z;
  obj : option ref;
  ctx_reproject : bool
}.

Definition requires_dimension (algorithm : string) : bool :=
  existsb (String.eqb algorithm) ["PCA"; "ORPCA"; "ORNMF"].

Definition is_none {A} (o : option A) : bool :=
  match o with None => true | Some _ => false end.

Definition lift {A} (r : result A) : M W A :=
  match r with
  | Val a => ret a
  | Exn e => raise e
  end.

Definition prelude (a : arguments) : M W context :=
  when (kw_bounds a) warn ;;;
  algorithm <- (if algorithm a =? "ONMF" then warn ;;; ret "ORNMF"
                else ret (algorithm a)) ;;
  if requires_dimension algorithm && is_none (output_dimension a)
  then raise ValueError
  else
    d <- read_data ;;
    _al_data <- call OpAligned (aligned env d) ;;
    w <- get_world ;;
    let all_chunks := chunks_of env _al_data w in
    let nav_chunks := firstn (navigation_dimension env w) all_chunks in
    let sig_chunks := skipn (navigation_dimension env w) all_chunks in
    blocksize <- lift (min_blocksize nav_chunks) ;;
    let nblocks :=
      ChunkPlanner.multiply (map (fun c => Z.of_nat (length c)) nav_chunks) in
    let num_chunks :=
      fst (batch_geometry blocksize (output_dimension a) (num_chunks a)) in
    let finish obj reproject :=
      ret {| ctx_algorithm := algorithm; nav_chunks := nav_chunks;
             sig_chunks := sig_chunks; ctx_num_chunks := num_chunks;
             nblocks := nblocks; obj := obj; ctx_reproject := reproject |} in
    if algorithm =? "PCA" then
      w <- get_world ;;
      if negb (sklearn_installed env w) then raise ImportError
      else
        o <- call OpNewEstimator
                  (new_estimator env algorithm (output_dimension a)) ;;
        finish (Some o) true
    else if (algorithm =? "ORPCA") || (algorithm =? "ORNMF") then
      o <- call OpNewEstimator
                (new_estimator env algorithm (output_dimension a)) ;;
      finish (Some o) (reproject a)
    else if negb (algorithm =? "SVD") then raise ValueError
    else finish None (reproject a).

(** *** Poissonian noise normalisation (lines 927-959) *)

Definition mask_or_zeros (mask : option thing) (nav : bool) (cs : chunks)
  : M W ref :=
  m <- match mask with
       | None => call OpZeros (zeros env nav cs)
       | Some _ =>
           r <- to_array mask (Some cs) ;;
           match r with
           | Some x => ret x
           | None => raise (OtherError 0)
           end
       end ;;
  call OpLogicalNot (logical_not env m).

(** Returns [raG] and [rbH]. *)
Definition normalise (a : arguments) (c : context) : M W (ref * ref) :=
  d <- read_data ;;
  data <- call OpAligned (aligned env d) ;;
  nm <- mask_or_zeros (navigation_mask a) true (nav_chunks c) ;;
  sm <- mask_or_zeros (signal_mask a) false (sig_chunks c) ;;
  sums <- call OpPoissonSums (poisson_sums env data) ;;
  scaled <- call OpPoissonScale (poisson_scale env data nm sm sums) ;;
  let '(data', raG, rbH) := scaled in
  write_data data' ;;;
  ret (raG, rbH).

(** *** The SVD branch (lines 962-989) *)

(** [factors], [explained_variance], [loadings]. *)
Definition svd_branch (a : arguments) : M W (ref * ref * ref) :=
  try_finally
    (b <- call_on_data OpUnfold DoneBool (unfold env) ;;
     set_unfolded4decomposition b ;;;
     if negb (is_none (navigation_mask a))
        || negb (is_none (signal_mask a))
     then raise NotImplementedError
     else
       d <- read_data ;;
       call OpSvd (svd env d (output_dimension a)))
    (u <- get_unfolded4decomposition ;;
     if u then
       call_on_data OpFold (fun _ => Done) (fold env) ;;;
       (* [self._unfolded4decomposition is False]: a comparison whose
          value is dropped *)
       u' <- get_unfolded4decomposition ;;
       let _ := Bool.eqb u' false in
       ret tt
     else ret tt).

(** *** The block iterator as [decomposition] consumes it *)

(** [for chunk in self._block_iterator(...)]: the generator runs its
    set-up when the first block is asked for, then hands over one block at
    a time to the body of the loop. *)
Fixpoint for_fold {X S} (l : list X) (s : S) (body : X -> S -> M W S)
  : M W S :=
  match l with
  | [] => ret s
  | x :: r => s' <- body x s ;; for_fold r s' body
  end.

(** The [product] of [range(len(c))] over [c] in [nav_chunks]. *)
Definition block_indices (nav_chunks : chunks) : list (list nat) :=
  product (map (fun cs => seq 0 (length cs)) nav_chunks).

Definition iterate_blocks {S} (a : arguments) (s : S)
           (body : ref -> S -> M W S) : M W S :=
  d <- read_data ;;
  lazy <- call OpLazyData (lazy_data env d) ;;
  write_data lazy ;;;
  d <- read_data ;;
  data <- call OpAligned (aligned env d) ;;
  w <- get_world ;;
  let nav_chunks :=
    firstn (navigation_dimension env w) (chunks_of env data w) in
  call OpBlockSetup
       (block_setup env data (signal_mask a) (navigation_mask a)) ;;;
  for_fold (block_indices nav_chunks) s
           (fun ind s => chunk <- call OpGetBlock (get_block env ind) ;;
                         body chunk s).

Definition keyboard_interrupt (e : exn) : bool :=
  match e with
  | KeyboardInterrupt => true
  | _ => false
  end.

(** *** Streaming the blocks into the estimator (lines 991-1015) *)

Definition stream_learn (a : arguments) (c : context) (o : ref)
  : M W unit :=
  call OpCheckNavMask (check_navigation_mask env (navigation_mask a)) ;;;
  call OpCheckSigMask (check_signal_mask env (signal_mask a)) ;;;
  try_except
    (this_data <-
       iterate_blocks a []
         (fun chunk this_data =>
            let this_data := (this_data ++ [chunk])%list in
            if (Z.of_nat (length this_data) =? ctx_num_chunks c)%Z
            then call OpFit (fit env (ctx_algorithm c) o this_data) ;;;
                 ret []
            else ret this_data) ;;
     match this_data with
     | [] => ret tt
     | _ => call OpFit (fit env (ctx_algorithm c) o this_data)
     end)
    keyboard_interrupt
    (ret tt).

(** Fetching the blocks at the indices [inds], in order. *)
Fixpoint fetch (inds : list (list nat)) : M W (list ref) :=
  match inds with
  | [] => ret []
  | ind :: r =>
      chunk <- call OpGetBlock (get_block env ind) ;;
      chunks <- fetch r ;;
      ret (chunk :: chunks)
  end.

(** Learning batch by batch: fetch the blocks of a batch, then fit them. *)
Definition learn_batches (c : context) (o : ref)
           (batches : list (list (list nat))) : M W unit :=
  for_each batches
    (fun batch =>
       this_data <- fetch batch ;;
       call OpFit (fit env (ctx_algorithm c) o this_data)).

(** [stream_learn], batch by batch. *)
Definition stream_learn_batched (a : arguments) (c : context) (o : ref)
  : M W unit :=
  call OpCheckNavMask (check_navigation_mask env (navigation_mask a)) ;;;
  call OpCheckSigMask (check_signal_mask env (signal_mask a)) ;;;
  try_except
    (d <- read_data ;;
     lazy <- call OpLazyData (lazy_data env d) ;;
     write_data lazy ;;;
     d <- read_data ;;
     data <- call OpAligned (aligned env d) ;;
     w <- get_world ;;
     let nav_chunks :=
       firstn (navigation_dimension env w) (chunks_of env data w) in
     call OpBlockSetup
          (block_setup env data (signal_mask a) (navigation_mask a)) ;;;
     learn_batches c o
       (group (ctx_num_chunks c) [] (block_indices nav_chunks)))
    keyboard_interrupt
    (ret tt).

(** *** Reprojection (lines 1032-1066) *)

Definition reproject_blocks (a : arguments) (c : context) (o : ref)
  : M W ref :=
  H <- try_except
         (iterate_blocks a []
            (fun thing H =>
               p <- call OpProject (project env (ctx_algorithm c) o thing) ;;
               ret (H ++ [p])%list))
         keyboard_interrupt
         (ret []) ;;
  call OpPost (post env (ctx_algorithm c) H).

(** *** The body of the outer [try] (lines 925-1081) *)

Record learnt : Type := {
  l_factors : ref;
  l_loadings : ref;
  l_explained_variance : option ref;
  l_explained_variance_ratio : option ref;
  l_scales : option (ref * ref)          (* [raG], [rbH] *)
}.

Definition value_error (e : exn) : bool :=
  match e with
  | ValueError => true
  | _ => false
  end.

Definition unbound {A} : M W A := raise (OtherError 1).

Definition learn (a : arguments) (c : context) : M W learnt :=
  scales <- (if normalize_poissonian_noise a
             then s <- normalise a c ;; ret (Some s)
             else ret None) ;;
  got <-
    (if ctx_algorithm c =? "SVD" then
       r <- svd_branch a ;;
       let '(factors, explained_variance, loadings) := r in
       ret (Some explained_variance, None, factors, Some loadings, false)
     else
       match obj c with
       | Some o =>
           stream_learn a c o ;;;
           r <- call OpFitted (fitted env (ctx_algorithm c) o) ;;
           let '(ev, evr, factors, loadings) := r in
           ret (ev, evr, factors, loadings, ctx_reproject c)
       | None => unbound
       end) ;;
  let '(ev, evr, factors, loadings, reproject) := got in
  loadings <-
    (if reproject then
       match obj c with
       | Some o => l <- reproject_blocks a c o ;; ret (Some l)
       | None => unbound
       end
     else ret loadings) ;;
  evr <- match ev, evr with
         | Some v, None =>
             r <- call OpVarianceRatio (variance_ratio env v) ;; ret (Some r)
         | _, _ => ret evr
         end ;;
  loadings <- match loadings with
              | Some l => ret l
              | None => unbound
              end ;;
  w <- get_world ;;
  loadings <-
    (if negb (ctx_algorithm c =? "SVD") then
       try_except
         (call OpReshuffle
               (reshuffle env loadings (navigation_dimension env w)
                          (output_dimension a) (nav_chunks c)))
         value_error
         (ret loadings)
     else ret loadings) ;;
  ret {| l_factors := factors; l_loadings := loadings;
         l_explained_variance := ev; l_explained_variance_ratio := evr;
         l_scales := scales |}.

(** *** Committing the results (lines 1085-1102) *)

Definition commit (a : arguments) (c : context) (l : learnt) : M W unit :=
  let target f ld :=
    {| decomposition_algorithm := ctx_algorithm c;
       lr_output_dimension := output_dimension a;
       _object := if negb (ctx_algorithm c =? "SVD") then obj c else None;
       factors := f; loadings := ld;
       explained_variance := l_explained_variance l;
       explained_variance_ratio := l_explained_variance_ratio l |} in
  set_results (target (l_factors l) (l_loadings l)) ;;;
  (if normalize_poissonian_noise a then
     match l_scales l with
     | Some (raG, rbH) =>
         f <- call OpRescale (rescale env (l_factors l) rbH) ;;
         set_results (target f (l_loadings l)) ;;;
         ld <- call OpRescale (rescale env (l_loadings l) raG) ;;
         set_results (target f ld)
     | None => unbound
     end
   else ret tt) ;;;
  when (print_info a) (call OpPrint (print env)).

(** *** The method *)

Definition decomposition (a : arguments) : M W unit :=
  c <- prelude a ;;
  original_data <- read_data ;;
  l <- try_finally (learn a c) (write_data original_data) ;;
  commit a c l.

End Decompose.

(** Collaborators for examples: a signal with one navigation axis in two
    chunks of two, and a signal axis of eight; every object created on the
    way is numbered by the world counter; [unfold()] reshapes the data and
    returns [True]. *)
Definition bench : collaborators nat := {|
  aligned := fun d w => (Val d, w);
  chunks_of := fun _ _ => [[2; 2]; [8]]%Z;
  navigation_dimension := fun _ => 1%nat;
  sklearn_installed := fun _ => true;
  new_estimator := fun _ _ w => (Val w, S w);
  zeros := fun _ _ w => (Val w, S w);
  da_compute := fun _ w => (Val w, S w);
  from_array := fun _ _ w => (Val w, S w);
  rechunk := fun _ _ w => (Val w, S w);
  logical_not := fun _ w => (Val w, S w);
  poisson_sums := fun _ w => (Val (w, S w), S (S w));
  poisson_scale := fun _ _ _ _ w => (Val (w, S w, S (S w)), S (S (S w)));
  unfold := fun _ w => (Val true, w, S w);
  fold := fun _ w => (Val tt, w, S w);
  svd := fun _ _ w => (Val (w, S w, S (S w)), S (S (S w)));
  check_navigation_mask := fun _ w => (Val tt, w);
  check_signal_mask := fun _ w => (Val tt, w);
  lazy_data := fun d w => (Val d, w);
  block_setup := fun _ _ _ w => (Val tt, w);
  get_block := fun _ w => (Val w, S w);
  fit := fun _ _ _ w => (Val tt, w);
  fitted := fun _ _ w => (Val (Some w, None, S w, None), S (S w));
  project := fun _ _ _ w => (Val w, S w);
  post := fun _ _ w => (Val w, S w);
  variance_ratio := fun _ w => (Val w, S w);
  reshuffle := fun _ _ _ _ w => (Val w, S w);
  rescale := fun _ _ w => (Val w, S w);
  print := fun w => (Val tt, w)
|}.

(** [s.decomposition()], with a mask or an algorithm when given. *)
Definition call_arguments (algorithm : string) (output_dimension : option Z)
           (navigation_mask : option thing) : arguments := {|
  normalize_poissonian_noise := false;
  algorithm := algorithm;
  output_dimension := output_dimension;
  signal_mask := None;
  navigation_mask := navigation_mask;
  num_chunks := None;
  reproject := true;
  print_info := true;
  kw_bounds := false
|}.

Definition fresh_signal (d : ref) (w : nat) : machine nat := {|
  data := d; _lazy := true; _unfolded4decomposition := None;
  results := None; world := w; trace := []
|}.

(** Runs for examples. *)
Definition svd_run : result unit * machine nat :=
  decomposition bench (call_arguments "SVD" None None) (fresh_signal 3 10).

Definition masked_svd_run : result unit * machine nat :=
  decomposition bench (call_arguments "SVD" None (Some (Ndarray 4)))
                (fresh_signal 3 10).

Definition pca_run : result unit * machine nat :=
  decomposition bench (call_arguments "PCA" (Some 3%Z) None)
                (fresh_signal 3 10).

Definition nmf_run : result unit * machine nat :=
  decomposition bench (call_arguments "NMF" None None) (fresh_signal 3 10).

End Decomposition.

(** ** 6. What is observed of a run *)

Module Observations.
Import Effects.

Section Relations.
Variable W : Type.

(** Every run of [c] relates the machine it starts from to the machine it
    leaves, whether it returns or raises. *)
Definition stable {A} (R : machine W -> machine W -> Prop) (c : M W A) : Prop :=
  forall m r m', c m = (r, m') -> R m m'.

(** [self.data] is the same object. *)
Definition same_data (m m' : machine W) : Prop := data m' = data m.

(** The run added events to the trace, all of them in [P]. *)
Definition emits (P : event -> Prop) (m m' : machine W) : Prop :=
  exists t, trace m' = trace m ++ t /\ Forall P t.

(** [self._unfolded4decomposition] is as it was. *)
Definition same_unfolded (m m' : machine W) : Prop :=
  _unfolded4decomposition m' = _unfolded4decomposition m.

(** [self._lazy] is as it was. *)
Definition same_lazy (m m' : machine W) : Prop := _lazy m' = _lazy m.

(** [self.learning_results] is as it was. *)
Definition same_results (m m' : machine W) : Prop := results m' = results m.

(** Both relations hold. *)
Definition both (R1 R2 : machine W -> machine W -> Prop)
           (m m' : machine W) : Prop :=
  R1 m m' /\ R2 m m'.

(** Whenever [c] returns, the value it returns is in [P]. *)
Definition returns_only {A} (P : A -> Prop) (c : M W A) : Prop :=
  forall m a m', c m = (Val a, m') -> P a.

End Relations.

Arguments stable {W A} R c.
Arguments same_data {W} m m'.
Arguments emits {W} P m m'.
Arguments same_unfolded {W} m m'.
Arguments same_lazy {W} m m'.
Arguments same_results {W} m m'.
Arguments both {W} R1 R2 m m'.
Arguments returns_only {W A} P c.

Definition not_close (e : event) : Prop :=
  match e with
  | Ev OpClose _ => False
  | _ => True
  end.

(** The event is not a call of one of [ops]. *)
Definition avoids (ops : list op) (e : event) : Prop :=
  match e with
  | Ev o _ => ~ In o ops
  | _ => True
  end.

(** The exception a run ended with, if any. *)
Definition raised {A} (r : result A) : option exn :=
  match r with
  | Val _ => None
  | Exn e => Some e
  end.

(** Any event. *)
Definition anything (e : event) : Prop := True.

(** The event is a call of [o]. *)
Definition calls (o : op) (e : event) : Prop :=
  match e with
  | Ev o' _ => o' = o
  | _ => False
  end.

(** The event neither reads nor assigns [self.data]. *)
Definition off_data (e : event) : Prop :=
  match e with
  | ReadData | WriteData _ => False
  | _ => True
  end.

(** Every closing of a file handle in [t] comes after a [da.compute()]
    that returned. *)
Definition closes_after_compute (t : list event) : Prop :=
  forall pre s post,
    t = pre ++ Ev OpClose s :: post ->
    exists d, In (Ev OpCompute (DoneRef d)) pre.

(** No file was closed and [self.data] is the same object. *)
Definition keeps_open {W} (m m' : machine W) : Prop :=
  emits not_close m m' /\ same_data m m'.

End Observations.

(** * Properties *)

(** ** 1. The chunk planner *)

Section ChunkPlannerFacts.
Import ChunkPlanner.
Local Open Scope Z_scope.

Lemma fold_mul_acc (l : list Z) (a : Z) :
  fold_left Z.mul l a = a * fold_left Z.mul l 1.
Proof.
  revert a; induction l as [|x l IH]; intros a; cbn [fold_left].
  - lia.
  - rewrite (IH (a * x)), (IH (1 * x)). lia.
Qed.

Lemma multiply_nil : multiply [] = 1.
Proof. reflexivity. Qed.

Lemma multiply_cons (x : Z) (l : list Z) : multiply (x :: l) = x * multiply l.
Proof.
  unfold multiply; cbn [fold_left]. rewrite fold_mul_acc. lia.
Qed.

Lemma multiply_nonneg (l : list Z) :
  Forall (fun x => 0 <= x) l -> 0 <= multiply l.
Proof.
  induction 1 as [|x l Hx _ IH].
  - rewrite multiply_nil; lia.
  - rewrite multiply_cons; lia.
Qed.

Lemma multiply_pos (l : list Z) :
  Forall (fun x => 1 <= x) l -> 1 <= multiply l.
Proof.
  induction 1 as [|x l Hx _ IH].
  - rewrite multiply_nil; lia.
  - rewrite multiply_cons; nia.
Qed.

Lemma multiply_zero (l : list Z) : In 0 l -> multiply l = 0.
Proof.
  induction l as [|x l IH]; simpl; [tauto|].
  intros [->|H]; rewrite multiply_cons; [lia|].
  rewrite (IH H); lia.
Qed.

Lemma multiply_small (l : list Z) :
  Forall (fun x => 0 <= x <= 1) l -> 0 <= multiply l <= 1.
Proof.
  induction 1 as [|x l Hx _ IH].
  - rewrite multiply_nil; lia.
  - rewrite multiply_cons; nia.
Qed.

Lemma multiply_ones (l : list Z) :
  Forall (fun x => x = 1) l -> multiply l = 1.
Proof.
  induction 1 as [|x l Hx _ IH].
  - reflexivity.
  - rewrite multiply_cons, Hx, IH; reflexivity.
Qed.

(** The product is monotone on non-negative factors. *)
Lemma multiply_le (l m : list Z) :
  Forall2 (fun c s => 0 <= c <= s) l m -> 0 <= multiply l <= multiply m.
Proof.
  induction 1 as [|c s l m Hcs _ IH].
  - rewrite multiply_nil; lia.
  - rewrite !multiply_cons; nia.
Qed.

(** *** [set_nth] *)

Lemma set_nth_length {A} (i : nat) (v : A) (l : list A) :
  length (set_nth i v l) = length l.
Proof.
  revert i; induction l as [|x l IH]; intros [|i]; simpl; auto.
Qed.

Lemma set_nth_same {A} (i : nat) (v d : A) (l : list A) :
  (i < length l)%nat -> nth i (set_nth i v l) d = v.
Proof.
  revert i; induction l as [|x l IH]; intros [|i]; simpl; intros H;
    try lia; auto.
  apply IH; lia.
Qed.

Lemma set_nth_other {A} (i j : nat) (v d : A) (l : list A) :
  i <> j -> nth j (set_nth i v l) d = nth j l d.
Proof.
  revert i j; induction l as [|x l IH]; intros [|i] [|j]; simpl; intros H;
    try congruence; auto.
Qed.

Lemma set_nth_Forall {A} (P : A -> Prop) (i : nat) (v : A) (l : list A) :
  Forall P l -> P v -> Forall P (set_nth i v l).
Proof.
  intros Hl Hv; revert i; induction Hl as [|x l Hx Hl IH]; intros [|i]; simpl;
    constructor; auto.
Qed.

Lemma set_nth_zsum (i : nat) (v : Z) (l : list Z) :
  (i < length l)%nat -> zsum (set_nth i v l) = zsum l - nth i l 0 + v.
Proof.
  revert i; induction l as [|x l IH]; intros [|i]; simpl; intros H; try lia.
  rewrite IH by lia. lia.
Qed.

Lemma zsum_nonneg (l : list Z) : Forall (fun x => 0 <= x) l -> 0 <= zsum l.
Proof.
  induction 1; simpl; lia.
Qed.

(** *** [np.argmax] returns an index of a greatest element *)

Lemma argmax_from_spec (l : list Z) : forall best besti i,
  let j := argmax_from best besti i l in
  (j = besti /\ Forall (fun x => x <= best) l) \/
  ((i <= j < i + length l)%nat /\ best < nth (j - i) l 0 /\
   Forall (fun x => x <= nth (j - i) l 0) l).
Proof.
  induction l as [|x r IH]; intros best besti i; simpl.
  - left; auto.
  - destruct (Z.ltb_spec best x) as [Hlt|Hge].
    + destruct (IH x i (S i)) as [[Hj Hall]|[Hr [Hb Hall]]].
      * right. rewrite Hj, Nat.sub_diag. simpl.
        repeat split; try lia. constructor; [lia|assumption].
      * right.
        replace (argmax_from x i (S i) r - i)%nat
          with (S (argmax_from x i (S i) r - S i)) by lia.
        repeat split; try lia. constructor; [lia|assumption].
    + destruct (IH best besti (S i)) as [[Hj Hall]|[Hr [Hb Hall]]].
      * left. split; [assumption|]. constructor; assumption.
      * right.
        replace (argmax_from best besti (S i) r - i)%nat
          with (S (argmax_from best besti (S i) r - S i)) by lia.
        repeat split; try lia. constructor; [lia|assumption].
Qed.

Lemma argmax_spec (l : list Z) :
  l <> [] ->
  exists i, argmax l = Some i /\ (i < length l)%nat /\
            Forall (fun x => x <= nth i l 0) l.
Proof.
  destruct l as [|x r]; [congruence|]. intros _.
  eexists; split; [reflexivity|].
  destruct (argmax_from_spec r x 0%nat 1%nat) as [[Hj Hall]|[Hr [Hb Hall]]].
  - rewrite Hj; simpl. split; [lia|]. constructor; [lia|assumption].
  - set (j := argmax_from x 0%nat 1%nat r) in *.
    destruct j as [|j]; [lia|]. simpl in *.
    rewrite Nat.sub_0_r in *.
    split; [lia|]. constructor; [lia|assumption].
Qed.

(** *** The halving loop *)

Lemma halve_loop_fits (fuel : nat) (ntf : Z) : forall sizes sizes',
  halve_loop fuel ntf sizes = Returns sizes' -> multiply sizes' <= ntf.
Proof.
  induction fuel as [|fuel IH]; intros sizes sizes'; simpl;
    destruct (Z.leb_spec (multiply sizes) ntf) as [Hle|Hgt]; intros H;
    try (injection H as <-; assumption); try discriminate.
  destruct (argmax sizes) as [i|]; [|discriminate].
  eapply IH; eassumption.
Qed.

Lemma halve_loop_length (fuel : nat) (ntf : Z) : forall sizes sizes',
  halve_loop fuel ntf sizes = Returns sizes' -> length sizes' = length sizes.
Proof.
  induction fuel as [|fuel IH]; intros sizes sizes'; simpl;
    destruct (Z.leb_spec (multiply sizes) ntf) as [Hle|Hgt]; intros H;
    try (injection H as <-; reflexivity); try discriminate.
  destruct (argmax sizes) as [i|]; [|discriminate].
  rewrite (IH _ _ H). apply set_nth_length.
Qed.

(** When the product of positive sizes exceeds a budget of at least one,
    the greatest size is at least two. *)
Lemma largest_at_least_two (sizes : list Z) (ntf : Z) (i : nat) :
  Forall (fun x => 1 <= x) sizes -> 1 <= ntf -> ntf < multiply sizes ->
  Forall (fun x => x <= nth i sizes 0) sizes ->
  2 <= nth i sizes 0.
Proof.
  intros Hpos Hntf Hgt Hmax.
  destruct (Z_lt_le_dec (nth i sizes 0) 2) as [Hsmall|]; [|assumption].
  exfalso.
  assert (Hone : Forall (fun x => 0 <= x <= 1) sizes).
  { rewrite Forall_forall in *. intros x Hx.
    specialize (Hpos x Hx); specialize (Hmax x Hx); lia. }
  apply multiply_small in Hone. lia.
Qed.

Lemma halve_loop_positive (fuel : nat) (ntf : Z) : forall sizes sizes',
  1 <= ntf -> Forall (fun x => 1 <= x) sizes ->
  halve_loop fuel ntf sizes = Returns sizes' ->
  Forall (fun x => 1 <= x) sizes'.
Proof.
  induction fuel as [|fuel IH]; intros sizes sizes' Hntf Hpos; simpl;
    destruct (Z.leb_spec (multiply sizes) ntf) as [Hle|Hgt]; intros H;
    try (injection H as <-; assumption); try discriminate.
  destruct sizes as [|x r] eqn:E; [discriminate|]. rewrite <- E in *.
  destruct (argmax_spec (l := sizes)) as (i & Hi & Hlen & Hmax);
    [subst; discriminate|].
  rewrite Hi in H.
  apply (IH _ _ Hntf) in H; [assumption|].
  apply set_nth_Forall; [assumption|].
  pose proof (largest_at_least_two i Hpos Hntf Hgt Hmax) as H2.
  apply Z.div_le_lower_bound; lia.
Qed.

(** The loop ends: the sum of the sizes bounds the number of halvings. *)
Lemma halve_loop_returns (fuel : nat) (ntf : Z) : forall sizes,
  1 <= ntf -> Forall (fun x => 1 <= x) sizes ->
  (Z.to_nat (zsum sizes) <= fuel)%nat ->
  exists sizes', halve_loop fuel ntf sizes = Returns sizes'.
Proof.
  induction fuel as [|fuel IH]; intros sizes Hntf Hpos Hfuel; simpl;
    destruct (Z.leb_spec (multiply sizes) ntf) as [Hle|Hgt];
    try (eexists; reflexivity).
  - exfalso.
    assert (Hz : zsum sizes <= 0).
    { assert (0 <= zsum sizes).
      { apply zsum_nonneg. eapply Forall_impl; [|exact Hpos].
        simpl; intros; lia. }
      lia. }
    destruct Hpos as [|x r Hx Hr]; [rewrite multiply_nil in Hgt; lia|].
    simpl in Hz.
    assert (0 <= zsum r).
    { apply zsum_nonneg. eapply Forall_impl; [|exact Hr].
      simpl; intros; lia. }
    lia.
  - destruct sizes as [|x r] eqn:E;
      [rewrite multiply_nil in Hgt; lia|]. rewrite <- E in *.
    destruct (argmax_spec (l := sizes)) as (i & Hi & Hlen & Hmax);
      [subst; discriminate|].
    rewrite Hi.
    pose proof (largest_at_least_two i Hpos Hntf Hgt Hmax) as H2.
    apply IH; [assumption| |].
    + apply set_nth_Forall; [assumption|].
      apply Z.div_le_lower_bound; lia.
    + rewrite set_nth_zsum by assumption.
      assert (nth i sizes 0 / 2 < nth i sizes 0)
        by (apply Z.div_lt; lia).
      assert (0 <= zsum sizes).
      { apply zsum_nonneg. eapply Forall_impl; [|exact Hpos].
        simpl; intros; lia. }
      lia.
Qed.

Lemma halve_loop_fuel (fuel : nat) (ntf : Z) : forall fuel' sizes sizes',
  halve_loop fuel ntf sizes = Returns sizes' -> (fuel <= fuel')%nat ->
  halve_loop fuel' ntf sizes = Returns sizes'.
Proof.
  induction fuel as [|fuel IH]; intros fuel' sizes sizes' H Hle.
  - destruct fuel'; simpl in *;
      destruct (multiply sizes <=? ntf); congruence.
  - destruct fuel' as [|fuel']; [lia|]. simpl in *.
    destruct (multiply sizes <=? ntf); [assumption|].
    destruct (argmax sizes); [|discriminate].
    apply IH; [assumption|lia].
Qed.

Lemma halve_loop_stops (fuel : nat) (ntf : Z) (sizes : list Z) :
  multiply sizes <= ntf -> halve_loop fuel ntf sizes = Returns sizes.
Proof.
  intros H. apply Z.leb_le in H. destruct fuel; simpl; rewrite H; reflexivity.
Qed.

(** *** Balanced splitting *)

Lemma ceil_div_spec (a b : Z) :
  0 < b -> a <= ceil_div a b * b /\ (ceil_div a b - 1) * b < a.
Proof.
  intros Hb. unfold ceil_div.
  pose proof (Z.div_mod (- a) b) as E.
  pose proof (Z.mod_pos_bound (- a) b Hb) as R.
  nia.
Qed.

Lemma array_split_bound (size s : Z) :
  1 <= size -> 1 <= s ->
  exists l, array_split_lengths size (ceil_div size s) = Returns l /\
            Forall (fun c => 0 <= c <= s) l.
Proof.
  intros Hsize Hs.
  destruct (ceil_div_spec size (b := s)) as [Hup Hlow]; [lia|].
  set (n := ceil_div size s) in *.
  assert (Hn : 1 <= n) by nia.
  unfold array_split_lengths.
  destruct (Z.leb_spec n 0) as [|_]; [lia|].
  eexists; split; [reflexivity|].
  pose proof (Z.div_mod size n) as E.
  pose proof (Z.mod_pos_bound size n) as R.
  assert (0 <= size / n) by (apply Z.div_pos; lia).
  apply Forall_forall. intros c Hc. apply in_app_or in Hc.
  destruct Hc as [Hc|Hc].
  - destruct (Z.to_nat (size mod n)) eqn:En; [contradiction|].
    apply repeat_spec in Hc. subst c. nia.
  - apply repeat_spec in Hc. subst c. nia.
Qed.

(** *** Collecting the per-dimension results *)

Lemma collect_seq_nth {A} (f : nat -> outcome A) (d : A) (n : nat) :
  forall start l,
  collect (map f (seq start n)) = Returns l ->
  length l = n /\
  forall i, (i < n)%nat -> f (start + i)%nat = Returns (nth i l d).
Proof.
  induction n as [|n IH]; intros start l; simpl.
  - intros H; injection H as <-. split; [reflexivity|intros; lia].
  - destruct (f start) as [a| |] eqn:Ea; simpl; try discriminate.
    destruct (collect (map f (seq (S start) n))) as [t| |] eqn:Et; simpl;
      try discriminate.
    intros H; injection H as <-.
    destruct (IH _ _ Et) as [Hlen Hnth]. simpl. split; [lia|].
    intros [|i] Hi.
    + rewrite Nat.add_0_r. assumption.
    + replace (start + S i)%nat with (S start + i)%nat by lia.
      apply Hnth. lia.
Qed.

Lemma collect_seq_returns {A} (f : nat -> outcome A) (n : nat) :
  forall start,
  (forall i, (i < n)%nat -> exists a, f (start + i)%nat = Returns a) ->
  exists l, collect (map f (seq start n)) = Returns l.
Proof.
  induction n as [|n IH]; intros start H; simpl.
  - eexists; reflexivity.
  - destruct (H 0%nat) as [a Ha]; [lia|]. rewrite Nat.add_0_r in Ha.
    rewrite Ha; simpl.
    destruct (IH (S start)) as [t Ht].
    { intros i Hi. destruct (H (S i)) as [b Hb]; [lia|].
      exists b. rewrite <- Hb. f_equal. lia. }
    rewrite Ht; simpl. eexists; reflexivity.
Qed.

(** *** Free axes and [list.index] *)

Lemma mem_In (k : nat) (l : list nat) : mem k l = true <-> In k l.
Proof.
  unfold mem. rewrite existsb_exists. split.
  - intros (x & Hx & E). apply Nat.eqb_eq in E. subst; assumption.
  - intros H. exists k. split; [assumption|apply Nat.eqb_refl].
Qed.

Lemma free_axes_In (n : nat) (need : list nat) (i : nat) :
  In i (free_axes n need) <-> (i < n)%nat /\ ~ In i need.
Proof.
  unfold free_axes. rewrite filter_In, in_seq, negb_true_iff.
  rewrite <- mem_In. destruct (mem i need); intuition (try congruence; lia).
Qed.

Lemma free_axes_NoDup (n : nat) (need : list nat) : NoDup (free_axes n need).
Proof. apply NoDup_filter, seq_NoDup. Qed.

Lemma index_of_None (i : nat) (l : list nat) :
  ~ In i l -> index_of i l = None.
Proof.
  induction l as [|x l IH]; simpl; [reflexivity|]. intros H.
  destruct (Nat.eqb_spec i x) as [->|_]; [tauto|].
  rewrite IH by tauto. reflexivity.
Qed.

Lemma index_of_nth (l : list nat) : forall j,
  NoDup l -> (j < length l)%nat -> index_of (nth j l 0%nat) l = Some j.
Proof.
  induction l as [|x l IH]; intros j Hnd Hj; simpl in *; [lia|].
  inversion Hnd as [|? ? Hx Hl]; subst.
  destruct j as [|j].
  - rewrite Nat.eqb_refl. reflexivity.
  - destruct (Nat.eqb_spec (nth j l 0%nat) x) as [E|_].
    + exfalso. apply Hx. rewrite <- E. apply nth_In. lia.
    + rewrite IH by (assumption || lia). reflexivity.
Qed.

(** *** Refreshing the axis sizes *)

Lemma skipn_nth_cons (l : list Z) : forall k,
  (k < length l)%nat -> skipn k l = nth k l 0 :: skipn (S k) l.
Proof.
  induction l as [|x l IH]; intros [|k] H; simpl in *; try lia.
  - reflexivity.
  - apply IH. lia.
Qed.

Lemma refresh_from_skipn (dcshape : list Z) : forall axes k,
  (k + length axes = length dcshape)%nat ->
  refresh_from k dcshape axes = skipn k dcshape.
Proof.
  induction axes as [|old r IH]; intros k H; simpl in *.
  - rewrite skipn_all2 by lia. reflexivity.
  - destruct (Nat.ltb_spec k (length dcshape)) as [Hk|Hk]; [|lia].
    rewrite IH by lia. symmetry. apply skipn_nth_cons. assumption.
Qed.

Lemma refresh_aligned (dcshape axes : list Z) :
  length axes = length dcshape -> refresh dcshape axes = dcshape.
Proof.
  intros H. unfold refresh. rewrite refresh_from_skipn by lia. reflexivity.
Qed.

(** *** The degenerate branch *)

Lemma keep_whole_spec (dcshape : list Z) : forall need chunks chunks',
  length chunks = length dcshape ->
  keep_whole dcshape need chunks = Returns chunks' ->
  length chunks' = length dcshape /\
  (forall k, In k need -> nth k chunks' [] = [nth k dcshape 0]) /\
  (forall i, ~ In i need -> nth i chunks' [] = nth i chunks []).
Proof.
  induction need as [|k r IH]; intros chunks chunks' Hlen; simpl.
  - intros H; injection H as <-. repeat split; [assumption|tauto].
  - destruct (Nat.ltb_spec k (length dcshape)) as [Hk|]; [|discriminate].
    intros H. apply IH in H; [|rewrite set_nth_length; assumption].
    destruct H as (Hl & Hneed & Hfree). split; [assumption|]. split.
    + intros k' [<-|Hin]; [|auto].
      destruct (in_dec Nat.eq_dec k r) as [Hr|Hr]; [auto|].
      rewrite (Hfree _ Hr). apply set_nth_same. lia.
    + intros i Hi. rewrite Hfree by tauto.
      apply set_nth_other. intros ->. tauto.
Qed.

Lemma keep_whole_returns (dcshape : list Z) : forall need chunks,
  Forall (fun k => (k < length dcshape)%nat) need ->
  exists chunks', keep_whole dcshape need chunks = Returns chunks'.
Proof.
  induction need as [|k r IH]; intros chunks H; simpl.
  - eexists; reflexivity.
  - inversion H as [|? ? Hk Hr]; subst.
    apply Nat.ltb_lt in Hk. rewrite Hk. apply IH. assumption.
Qed.

Lemma index_of_Some (i : nat) (l : list nat) : forall j,
  index_of i l = Some j -> (j < length l)%nat /\ nth j l 0%nat = i.
Proof.
  induction l as [|x l IH]; intros j; simpl; [discriminate|].
  destruct (Nat.eqb_spec i x) as [->|_].
  - intros H; injection H as <-. split; [lia|reflexivity].
  - destruct (index_of i l) as [j'|]; simpl; [|discriminate].
    intros H; injection H as <-. destruct (IH j' eq_refl). split; [lia|auto].
Qed.

Lemma nth_map_lt {A B} (f : A -> B) (l : list A) (d : B) (d' : A) :
  forall j, (j < length l)%nat -> nth j (map f l) d = f (nth j l d').
Proof.
  induction l as [|x l IH]; intros [|j] H; simpl in *; try lia; auto.
  apply IH; lia.
Qed.

Lemma Forall_nth_lt {A} (P : A -> Prop) (l : list A) (d : A) (j : nat) :
  Forall P l -> (j < length l)%nat -> P (nth j l d).
Proof.
  intros H Hj. rewrite Forall_forall in H. apply H, nth_In, Hj.
Qed.

Lemma Forall2_witness {A B} (R : A -> B -> Prop) (l : list A) (m : list B) :
  Forall2 R l m -> Forall (fun a => exists b, In b m /\ R a b) l.
Proof.
  induction 1 as [|a b l m Hab _ IH]; constructor.
  - exists b; simpl; auto.
  - eapply Forall_impl; [|exact IH]. simpl.
    intros a' (b' & Hin & HR). exists b'; auto.
Qed.

Lemma select_bound (R1 : Z -> nat -> Prop) (R2 : Z -> Z -> Prop)
      (sel : list Z) (indices : list nat) :
  Forall2 R1 sel indices ->
  forall sizes,
  length sizes = length indices ->
  (forall j c, (j < length indices)%nat ->
               R1 c (nth j indices 0%nat) -> R2 c (nth j sizes 0)) ->
  Forall2 R2 sel sizes.
Proof.
  induction 1 as [|c i sel indices Hci _ IH]; intros sizes Hlen Hstep;
    destruct sizes as [|s sizes]; simpl in Hlen; try discriminate;
    constructor.
  - apply (Hstep 0%nat c); simpl; [lia|assumption].
  - apply IH; [lia|]. intros j c' Hj Hc'.
    apply (Hstep (S j) c'); simpl; [lia|assumption].
Qed.

Lemma budget_value : budget = 104857600.
Proof. reflexivity. Qed.

Lemma typesize_bounds (s : signal) (dtype_arg : option dtype) :
  1 <= typesize s dtype_arg <= 32.
Proof.
  unfold typesize.
  destruct dtype_arg as [[]|]; destruct (dc_dtype s); simpl; lia.
Qed.

(** The body of the final loop on a free axis: every chunk is at most the
    size the halving loop left for that axis. *)
Lemma chunk_of_dim_free (dcshape : list Z) (indices : list nat)
      (sizes : list Z) (j : nat) (l : list Z) :
  NoDup indices -> (j < length indices)%nat ->
  1 <= nth (nth j indices 0%nat) dcshape 0 -> 1 <= nth j sizes 0 ->
  chunk_of_dim dcshape indices sizes (nth j indices 0%nat) = Returns l ->
  Forall (fun c => 0 <= c <= nth j sizes 0) l.
Proof.
  intros Hnd Hj Hsize Hs. unfold chunk_of_dim.
  rewrite (index_of_nth Hnd Hj).
  destruct (Z.eqb_spec (nth j sizes 0) 0) as [|_]; [lia|].
  destruct (array_split_bound Hsize Hs) as (l' & -> & Hl').
  intros H; injection H as <-. assumption.
Qed.

(** The non-degenerate branch, once the halving loop has returned. *)
Lemma planned_chunks_spec (dcshape : list Z) (need : list nat)
      (ntf : Z) (fuel : nat) (sizes' : list Z) (chunks : list (list Z)) :
  let indices := free_axes (length dcshape) need in
  Forall (fun n => 0 <= n) dcshape ->
  Forall (fun k => (k < length dcshape)%nat) need ->
  2 <= ntf ->
  halve_loop fuel ntf (map (fun k => nth k dcshape 0) indices)
    = Returns sizes' ->
  collect (map (chunk_of_dim dcshape indices sizes')
               (seq 0 (length dcshape))) = Returns chunks ->
  length chunks = length dcshape /\
  (forall k, In k need -> nth k chunks [] = [nth k dcshape 0]) /\
  (forall sel, Forall2 (fun c i => In c (nth i chunks [])) sel indices ->
               0 <= multiply sel <= ntf).
Proof.
  intros indices Hnn Hneed Hntf Hloop Hcol.
  destruct (collect_seq_nth _ [] _ _ Hcol) as [Hlen Hnth].
  simpl in Hnth.
  assert (Hnd : NoDup indices) by apply free_axes_NoDup.
  set (sizes0 := map (fun k => nth k dcshape 0) indices) in *.
  assert (Hlen0 : length sizes0 = length indices)
    by (unfold sizes0; apply length_map).
  assert (Hsz0 : forall j, (j < length indices)%nat ->
                 nth j sizes0 0 = nth (nth j indices 0%nat) dcshape 0).
  { intros j Hj. unfold sizes0.
    apply (nth_map_lt (fun k => nth k dcshape 0)). assumption. }
  assert (Hidx : forall j, (j < length indices)%nat ->
                 (nth j indices 0%nat < length dcshape)%nat).
  { intros j Hj. apply (free_axes_In (length dcshape) need).
    apply nth_In. assumption. }
  (* a free axis of extent 0 makes the final loop divide by zero *)
  assert (Hpos0 : Forall (fun x => 1 <= x) sizes0).
  { apply Forall_forall. intros x Hx.
    destruct (In_nth _ _ 0 Hx) as (j & Hj & Ej). rewrite Hlen0 in Hj.
    assert (0 <= x).
    { rewrite <- Ej, Hsz0 by assumption.
      apply Forall_nth_lt; auto. }
    destruct (Z.eq_dec x 0) as [->|]; [exfalso|lia].
    rewrite halve_loop_stops in Hloop
      by (rewrite (multiply_zero _ Hx); lia).
    injection Hloop as <-.
    specialize (Hnth _ (Hidx j Hj)). unfold chunk_of_dim in Hnth.
    rewrite (index_of_nth Hnd Hj), Ej in Hnth. simpl in Hnth.
    discriminate. }
  assert (Hpos : Forall (fun x => 1 <= x) sizes')
    by (eapply halve_loop_positive; [| |eassumption]; [lia|assumption]).
  assert (Hlen' : length sizes' = length indices)
    by (rewrite (halve_loop_length _ _ _ Hloop); assumption).
  split; [assumption|]. split.
  - intros k Hk.
    assert (Hklt : (k < length dcshape)%nat)
      by (rewrite Forall_forall in Hneed; auto).
    specialize (Hnth _ Hklt). unfold chunk_of_dim in Hnth.
    rewrite index_of_None in Hnth.
    + injection Hnth as <-. reflexivity.
    + intros Hin. apply free_axes_In in Hin. tauto.
  - intros sel Hsel.
    assert (Hb : Forall2 (fun c s => 0 <= c <= s) sel sizes').
    { eapply select_bound; [exact Hsel|assumption|].
      intros j c Hj Hc.
      assert (Hall : Forall (fun c => 0 <= c <= nth j sizes' 0)
                            (nth (nth j indices 0%nat) chunks [])).
      { eapply chunk_of_dim_free with (dcshape := dcshape);
          [exact Hnd|exact Hj| | |apply Hnth, Hidx, Hj].
        - rewrite <- Hsz0 by assumption.
          apply Forall_nth_lt; [assumption|lia].
        - apply Forall_nth_lt; [assumption|lia]. }
      rewrite Forall_forall in Hall. auto. }
    apply multiply_le in Hb.
    pose proof (halve_loop_fits _ _ _ Hloop). lia.
Qed.

(** The non-degenerate branch returns on arrays without empty axes. *)
Lemma planned_chunks_returns (dcshape : list Z) (need : list nat) (ntf : Z) :
  let indices := free_axes (length dcshape) need in
  Forall (fun n => 1 <= n) dcshape ->
  2 <= ntf ->
  exists fuel0 chunks, forall fuel, (fuel0 <= fuel)%nat ->
    obind (halve_loop fuel ntf (map (fun k => nth k dcshape 0) indices))
          (fun sizes' =>
             collect (map (chunk_of_dim dcshape indices sizes')
                          (seq 0 (length dcshape)))) = Returns chunks.
Proof.
  intros indices Hpos Hntf.
  set (sizes0 := map (fun k => nth k dcshape 0) indices).
  assert (Hidx : forall j, (j < length indices)%nat ->
                 (nth j indices 0%nat < length dcshape)%nat).
  { intros j Hj. apply (free_axes_In (length dcshape) need).
    apply nth_In. assumption. }
  assert (Hpos0 : Forall (fun x => 1 <= x) sizes0).
  { apply Forall_forall. intros x Hx. unfold sizes0 in Hx.
    apply in_map_iff in Hx. destruct Hx as (i & <- & Hi).
    apply free_axes_In in Hi. apply Forall_nth_lt; tauto. }
  destruct (halve_loop_returns (fuel := Z.to_nat (zsum sizes0)) (ntf := ntf)
              (sizes := sizes0)) as [sizes' Hloop];
    [lia|assumption|lia|].
  assert (Hpos' : Forall (fun x => 1 <= x) sizes')
    by (eapply halve_loop_positive; [| |eassumption]; [lia|assumption]).
  assert (Hlen' : length sizes' = length indices).
  { rewrite (halve_loop_length _ _ _ Hloop). apply length_map. }
  destruct (@collect_seq_returns _ (chunk_of_dim dcshape indices sizes')
              (length dcshape) 0%nat) as [chunks Hc].
  { intros i Hi. simpl. unfold chunk_of_dim.
    destruct (index_of i indices) as [j|] eqn:Ej;
      [|eexists; reflexivity].
    destruct (index_of_Some _ _ Ej) as [Hj _].
    assert (1 <= nth j sizes' 0)
      by (apply Forall_nth_lt; [assumption|lia]).
    destruct (Z.eqb_spec (nth j sizes' 0) 0) as [|_]; [lia|].
    destruct (array_split_bound (size := nth i dcshape 0)
                                (s := nth j sizes' 0)) as (l & -> & _);
      [apply Forall_nth_lt; assumption|assumption|].
    eexists; reflexivity. }
  exists (Z.to_nat (zsum sizes0)), chunks. intros fuel Hfuel.
  rewrite (halve_loop_fuel _ _ Hloop Hfuel). simpl. exact Hc.
Qed.

(** C1.  On a signal whose axes manager is aligned with its array (one axis
    per dimension), for any dtype and any set [need_axes] of axes to keep
    whole: whenever [_get_dask_chunks] returns a chunk specification, that
    specification has one entry per dimension, every axis of [need_axes]
    is a single chunk of the full extent of the axis, and for every block
    (one chunk picked on each free axis) the product of the chunk lengths
    times the element byte width is at most the 100 MiB budget; and on an
    array without empty axes the planner does return (its halving loop
    ends). *)
Theorem get_dask_chunks_whole_axes_and_budget
        (s : signal) (need_axes : list nat) (dtype_arg : option dtype) :
  length (axes_size s) = length (dc_shape s) ->
  Forall (fun n => 0 <= n) (dc_shape s) ->
  Forall (fun k => (k < length (dc_shape s))%nat) need_axes ->
  (forall fuel chunks,
      _get_dask_chunks fuel s need_axes dtype_arg = Returns chunks ->
      length chunks = length (dc_shape s) /\
      (forall k, In k need_axes ->
                 nth k chunks [] = [nth k (dc_shape s) 0]) /\
      (forall sel,
          Forall2 (fun c i => In c (nth i chunks [])) sel
                  (free_axes (length (dc_shape s)) need_axes) ->
          multiply sel * typesize s dtype_arg <= budget)) /\
  (Forall (fun n => 1 <= n) (dc_shape s) ->
   exists fuel0 chunks, forall fuel, (fuel0 <= fuel)%nat ->
     _get_dask_chunks fuel s need_axes dtype_arg = Returns chunks).
Proof.
  intros Hax Hnn Hneed.
  pose proof (typesize_bounds s dtype_arg) as Ht.
  pose proof budget_value as Hb.
  unfold _get_dask_chunks.
  rewrite (refresh_aligned _ _ Hax).
  set (t := typesize s dtype_arg) in *.
  set (K := multiply (map (fun k => nth k (dc_shape s) 0) need_axes)).
  cbv zeta.
  assert (HK : 0 <= K).
  { apply multiply_nonneg, Forall_forall. intros x Hx.
    apply in_map_iff in Hx. destruct Hx as (k & <- & Hk).
    rewrite Forall_forall in Hneed.
    apply Forall_nth_lt; auto. }
  split.
  - intros fuel chunks.
    destruct (Z.eqb_spec (K * t) 0) as [|Hne]; [discriminate|].
    assert (1 <= K) by nia.
    pose proof (Z.mul_div_le budget (K * t)) as Hdiv.
    destruct (Z.ltb_spec (budget / (K * t)) 2) as [Hdeg|Hfit].
    + intros Hret. apply keep_whole_spec in Hret; [|apply length_map].
      destruct Hret as (Hlen & Hwhole & Hfree).
      split; [assumption|]. split; [assumption|].
      intros sel Hsel.
      rewrite multiply_ones; [lia|].
      apply Forall2_witness in Hsel.
      eapply Forall_impl; [|exact Hsel]. simpl.
      intros c (i & Hi & Hc). apply free_axes_In in Hi.
      rewrite Hfree in Hc by tauto.
      change (@nil Z) with ((fun n => repeat 1 (Z.to_nat n)) 0) in Hc.
      rewrite map_nth in Hc. apply repeat_spec in Hc. assumption.
    + destruct (halve_loop fuel _ _) as [sizes'| |] eqn:Hloop; simpl;
        try discriminate.
      intros Hcol.
      destruct (@planned_chunks_spec (dc_shape s) need_axes _ _ _ _
                  Hnn Hneed Hfit Hloop Hcol) as (Hlen & Hwhole & Hsel).
      split; [assumption|]. split; [assumption|].
      intros sel Hs. specialize (Hsel sel Hs). nia.
  - intros Hpos.
    assert (1 <= K).
    { apply multiply_pos, Forall_forall. intros x Hx.
      apply in_map_iff in Hx. destruct Hx as (k & <- & Hk).
      rewrite Forall_forall in Hneed.
      apply Forall_nth_lt; auto. }
    destruct (Z.eqb_spec (K * t) 0) as [|Hne]; [nia|].
    destruct (Z.ltb_spec (budget / (K * t)) 2) as [Hdeg|Hfit].
    + destruct (@keep_whole_returns (dc_shape s) need_axes
                  (map (fun n => repeat 1 (Z.to_nat n)) (dc_shape s)) Hneed)
        as [chunks Hc].
      exists 0%nat, chunks. intros; assumption.
    + apply planned_chunks_returns; assumption.
Qed.

Example get_dask_chunks_halving :
  _get_dask_chunks 100
    {| dc_shape := [100; 50; 1000; 1000]; dc_dtype := float64;
       axes_size := [1; 1; 1; 1] |} [2; 3]%nat None
  = Returns [repeat 3 32 ++ [2; 2]; repeat 3 16 ++ [2]; [1000]; [1000]].
Proof. reflexivity. Qed.

Example get_dask_chunks_degenerate :
  _get_dask_chunks 0
    {| dc_shape := [3; 2; 8000; 1000]; dc_dtype := float64;
       axes_size := [3; 2; 8000; 1000] |} [2; 3]%nat None
  = Returns [[1; 1; 1]; [1; 1]; [8000]; [1000]].
Proof. reflexivity. Qed.

Example get_dask_chunks_empty_axis :
  _get_dask_chunks 100
    {| dc_shape := [7; 0; 10; 10]; dc_dtype := float64;
       axes_size := [7; 0; 10; 10] |} [2; 3]%nat None
  = Raises ZeroDivisionError.
Proof. reflexivity. Qed.

Lemma get_dask_chunks_whole_axes_and_budget_witness :
  let s := {| dc_shape := [100; 50; 1000; 1000]; dc_dtype := float64;
              axes_size := [1; 1; 1; 1] |} in
  let need_axes := [2; 3]%nat in
  (length (axes_size s) = length (dc_shape s) /\
   Forall (fun n => 0 <= n) (dc_shape s) /\
   Forall (fun k => (k < length (dc_shape s))%nat) need_axes /\
   Forall (fun n => 1 <= n) (dc_shape s)) /\
  (forall fuel chunks,
      _get_dask_chunks fuel s need_axes None = Returns chunks ->
      length chunks = length (dc_shape s) /\
      (forall k, In k need_axes ->
                 nth k chunks [] = [nth k (dc_shape s) 0]) /\
      (forall sel,
          Forall2 (fun c i => In c (nth i chunks [])) sel
                  (free_axes (length (dc_shape s)) need_axes) ->
          multiply sel * typesize s None <= budget)) /\
  (exists fuel0 chunks, forall fuel, (fuel0 <= fuel)%nat ->
     _get_dask_chunks fuel s need_axes None = Returns chunks).
Proof.
  intros s need_axes.
  assert (H1 : length (axes_size s) = length (dc_shape s)) by reflexivity.
  assert (H2 : Forall (fun n => 0 <= n) (dc_shape s))
    by (repeat constructor; lia).
  assert (H3 : Forall (fun k => (k < length (dc_shape s))%nat) need_axes)
    by (repeat constructor; simpl; lia).
  assert (H4 : Forall (fun n => 1 <= n) (dc_shape s))
    by (repeat constructor; lia).
  destruct (get_dask_chunks_whole_axes_and_budget s None H1 H2 H3)
    as [Hspec Hret].
  split; [repeat split; assumption|].
  split; [exact Hspec|exact (Hret H4)].
Defined.

End ChunkPlannerFacts.

(** ** 2. Reasoning about runs of the machine *)

Section MachineFacts.
Import Effects Observations.
Variable W : Type.

Local Abbreviation stable := (@Observations.stable W _).

Lemma bind_inv {A B} (c : M W A) (k : A -> M W B) m r m' :
  bind c k m = (r, m') ->
  (exists e, c m = (Exn e, m') /\ r = Exn e) \/
  (exists a m1, c m = (Val a, m1) /\ k a m1 = (r, m')).
Proof.
  unfold bind. destruct (c m) as [[a|e] m1]; intros H.
  - right. exists a, m1. auto.
  - left. exists e. injection H as <- <-. auto.
Qed.

Lemma try_finally_inv {A} (body : M W A) (cleanup : M W unit) m r m' :
  try_finally body cleanup m = (r, m') ->
  exists rb m1 rc,
    body m = (rb, m1) /\ cleanup m1 = (rc, m') /\
    r = match rc with Val _ => rb | Exn e => Exn e end.
Proof.
  unfold try_finally. destruct (body m) as [rb m1].
  destruct (cleanup m1) as [[u|e] m2] eqn:Ec; intros H;
    injection H as <- <-.
  - exists rb, m1, (Val u). auto.
  - exists rb, m1, (Exn e). auto.
Qed.

(** *** Relations between the machine before and after a run *)

Section Stable.

Variable R : machine W -> machine W -> Prop.
Hypothesis R_refl : forall m, R m m.
Hypothesis R_trans : forall m1 m2 m3, R m1 m2 -> R m2 m3 -> R m1 m3.

Lemma stable_ret {A} (a : A) : stable R (ret a).
Proof. intros m r m' H. injection H as _ <-. apply R_refl. Qed.

Lemma stable_raise {A} (e : exn) : stable R (raise (A := A) e).
Proof. intros m r m' H. injection H as _ <-. apply R_refl. Qed.

Lemma stable_get_world : stable R get_world.
Proof. intros m r m' H. injection H as _ <-. apply R_refl. Qed.

Lemma stable_get_unfolded : stable R get_unfolded4decomposition.
Proof.
  intros m r m' H. unfold get_unfolded4decomposition in H.
  destruct (_unfolded4decomposition m); injection H as _ <-; apply R_refl.
Qed.

Lemma stable_get_lazy : stable R get_lazy.
Proof. intros m r m' H. injection H as _ <-. apply R_refl. Qed.

Lemma stable_bind {A B} (c : M W A) (k : A -> M W B) :
  stable R c -> (forall a, stable R (k a)) -> stable R (bind c k).
Proof.
  intros Hc Hk m r m' H.
  destruct (bind_inv _ _ _ H) as [(e & Hce & _)|(a & m1 & Hca & Hka)].
  - eapply Hc; eassumption.
  - eapply R_trans; [eapply Hc|eapply Hk]; eassumption.
Qed.

Lemma stable_try_finally {A} (body : M W A) (cleanup : M W unit) :
  stable R body -> stable R cleanup -> stable R (try_finally body cleanup).
Proof.
  intros Hb Hc m r m' H.
  destruct (try_finally_inv _ _ _ H) as (rb & m1 & rc & H1 & H2 & _).
  eapply R_trans; [eapply Hb|eapply Hc]; eassumption.
Qed.

Lemma stable_try_except {A} (body : M W A) (handles : exn -> bool)
      (handler : M W A) :
  stable R body -> stable R handler -> stable R (try_except body handles handler).
Proof.
  intros Hb Hh m r m' H. unfold try_except in H.
  destruct (body m) as [[a|e] m1] eqn:Eb.
  - injection H as _ <-. eapply Hb; eassumption.
  - destruct (handles e).
    + eapply R_trans; [eapply Hb|eapply Hh]; eassumption.
    + injection H as _ <-. eapply Hb; eassumption.
Qed.

Lemma stable_when (b : bool) (c : M W unit) : stable R c -> stable R (when b c).
Proof. intros Hc. destruct b; [exact Hc|apply stable_ret]. Qed.

Lemma stable_for_each {X} (l : list X) (body : X -> M W unit) :
  (forall x, stable R (body x)) -> stable R (for_each l body).
Proof.
  intros Hb. induction l as [|x l IH]; simpl.
  - apply stable_ret.
  - apply stable_bind; auto.
Qed.

(** A step that cannot fail and changes the machine by a function. *)
Lemma stable_step {A} (c : M W A) :
  (forall m, R m (snd (c m))) -> stable R c.
Proof. intros Hc m r m' H. specialize (Hc m). rewrite H in Hc. exact Hc. Qed.

End Stable.

(** *** [self.data] is left alone *)

Lemma same_data_refl (m : machine W) : same_data m m.
Proof. reflexivity. Qed.

Lemma same_data_trans (m1 m2 m3 : machine W) :
  same_data m1 m2 -> same_data m2 m3 -> same_data m1 m3.
Proof. unfold same_data. congruence. Qed.

Lemma same_data_log e : stable same_data (log e).
Proof. apply stable_step. reflexivity. Qed.

Lemma same_data_read : stable same_data read_data.
Proof. apply stable_step. reflexivity. Qed.

Lemma same_data_set_results l : stable same_data (set_results l).
Proof. apply stable_step. reflexivity. Qed.

Lemma same_data_set_lazy b : stable same_data (set_lazy b).
Proof. apply stable_step. reflexivity. Qed.

Lemma same_data_call_with {A} o (summary : A -> status) f :
  stable same_data (call_with o summary f).
Proof.
  apply stable_step. intros m. unfold call_with.
  destruct (f (world m)) as [r w]. reflexivity.
Qed.

(** *** What a run adds to the trace *)

Lemma emits_refl P (m : machine W) : emits P m m.
Proof. exists []. rewrite app_nil_r. auto. Qed.

Lemma emits_trans P (m1 m2 m3 : machine W) :
  emits P m1 m2 -> emits P m2 m3 -> emits P m1 m3.
Proof.
  intros (t1 & E1 & F1) (t2 & E2 & F2). exists (t1 ++ t2).
  rewrite E2, E1, app_assoc. split; [reflexivity|].
  apply Forall_app; auto.
Qed.

Lemma emits_log P e : P e -> stable (emits P) (log e).
Proof.
  intros He. apply stable_step. intros m. exists [e]. simpl. auto.
Qed.

Lemma emits_read P : P ReadData -> stable (emits P) read_data.
Proof.
  intros He. apply stable_step. intros m. exists [ReadData]. simpl. auto.
Qed.

Lemma emits_write P r : P (WriteData r) -> stable (emits P) (write_data r).
Proof.
  intros He. apply stable_step. intros m. exists [WriteData r]. simpl. auto.
Qed.

Lemma emits_set_results P l : stable (emits P) (set_results l).
Proof.
  apply stable_step. intros m. exists []. simpl. rewrite app_nil_r. auto.
Qed.

Lemma emits_set_lazy P b : stable (emits P) (set_lazy b).
Proof.
  apply stable_step. intros m. exists []. simpl. rewrite app_nil_r. auto.
Qed.

Lemma emits_call_with {A} P o (summary : A -> status) f :
  (forall s, P (Ev o s)) -> stable (emits P) (call_with o summary f).
Proof.
  intros Ho. apply stable_step. intros m. unfold call_with.
  destruct (f (world m)) as [r w]. simpl.
  eexists; split; [reflexivity|]. auto.
Qed.

(** *** [_unfolded4decomposition] is left alone *)

Lemma same_unfolded_refl (m : machine W) : same_unfolded m m.
Proof. reflexivity. Qed.

Lemma same_unfolded_trans (m1 m2 m3 : machine W) :
  same_unfolded m1 m2 -> same_unfolded m2 m3 -> same_unfolded m1 m3.
Proof. unfold same_unfolded. congruence. Qed.

Lemma same_unfolded_log e : stable same_unfolded (log e).
Proof. apply stable_step. reflexivity. Qed.

Lemma same_unfolded_read : stable same_unfolded read_data.
Proof. apply stable_step. reflexivity. Qed.

Lemma same_unfolded_write r : stable same_unfolded (write_data r).
Proof. apply stable_step. reflexivity. Qed.

Lemma same_unfolded_set_results l : stable same_unfolded (set_results l).
Proof. apply stable_step. reflexivity. Qed.

Lemma same_unfolded_call_with {A} o (summary : A -> status) f :
  stable same_unfolded (call_with o summary f).
Proof.
  apply stable_step. intros m. unfold call_with.
  destruct (f (world m)) as [r w]. reflexivity.
Qed.

(** *** [_lazy] is left alone *)

Lemma same_lazy_refl (m : machine W) : same_lazy m m.
Proof. reflexivity. Qed.

Lemma same_lazy_trans (m1 m2 m3 : machine W) :
  same_lazy m1 m2 -> same_lazy m2 m3 -> same_lazy m1 m3.
Proof. unfold same_lazy. congruence. Qed.

Lemma same_lazy_log e : stable same_lazy (log e).
Proof. apply stable_step. reflexivity. Qed.

Lemma same_lazy_read : stable same_lazy read_data.
Proof. apply stable_step. reflexivity. Qed.

Lemma same_lazy_write r : stable same_lazy (write_data r).
Proof. apply stable_step. reflexivity. Qed.

Lemma same_lazy_call_with {A} o (summary : A -> status) f :
  stable same_lazy (call_with o summary f).
Proof.
  apply stable_step. intros m. unfold call_with.
  destruct (f (world m)) as [r w]. reflexivity.
Qed.

End MachineFacts.

(** Proves [stable R c] for a relation [R] with the lemmas [refl] and
    [trans], by following the structure of [c]; [prim] closes the steps. *)
Ltac stable_with refl trans prim :=
  repeat first
    [ prim
    | match goal with
      | |- Observations.stable _ (Effects.ret _) => apply (stable_ret _ refl)
      | |- Observations.stable _ (Effects.raise _) => apply (stable_raise _ refl)
      | |- Observations.stable _ Effects.get_world => apply (stable_get_world _ refl)
      | |- Observations.stable _ Effects.get_unfolded4decomposition =>
          apply (stable_get_unfolded _ refl)
      | |- Observations.stable _ Effects.get_lazy =>
          apply (stable_get_lazy _ refl)
      | |- Observations.stable _ (Effects.bind _ _) =>
          apply (stable_bind trans); [|intros ?]
      | |- Observations.stable _ (Effects.try_finally _ _) =>
          apply (stable_try_finally trans)
      | |- Observations.stable _ (Effects.try_except _ _ _) =>
          apply (stable_try_except trans)
      | |- Observations.stable _ (Effects.when _ _) => apply (stable_when refl)
      | |- Observations.stable _ (Effects.for_each _ _) =>
          apply (stable_for_each refl trans); intros ?
      | |- Observations.stable _ (match ?x with _ => _ end) => destruct x
      end
    | progress cbv beta iota zeta ].

(** ** 3. [compute] *)

Section ComputeFacts.
Import Effects Observations Materialise.
Variable W : Type.
Variable env : collaborators W.

Local Abbreviation stable := (@Observations.stable W _).

Lemma not_close_closes_after_compute t :
  Forall not_close t -> closes_after_compute t.
Proof.
  intros H pre s post E. subst t.
  apply Forall_app in H. destruct H as [_ H].
  inversion H as [|? ? Hc _]. contradiction.
Qed.

Lemma closes_after_compute_prefix t1 t2 :
  Forall not_close t1 -> closes_after_compute t2 ->
  closes_after_compute (t1 ++ t2).
Proof.
  intros H1 H2 pre s post E.
  apply app_eq_app in E. destruct E as (l & [[E1 E2]|[E1 E2]]).
  - (* the closing lies in [t1] *)
    subst t1. apply Forall_app in H1. destruct H1 as [_ H1].
    destruct l as [|e l]; simpl in E2.
    + destruct (H2 [] s post (eq_sym E2)) as (d & []).
    + injection E2 as <- _. inversion H1 as [|? ? Hc _]. contradiction.
  - subst pre. destruct (H2 l s post E2) as (d & Hd).
    exists d. apply in_or_app. auto.
Qed.

Lemma closes_after_compute_done d t :
  closes_after_compute (Ev OpCompute (DoneRef d) :: t).
Proof.
  intros pre s post E. destruct pre as [|e pre]; simpl in E.
  - discriminate.
  - injection E as <- _. exists d. simpl. auto.
Qed.

Lemma anything_refl (m : machine W) : emits anything m m.
Proof. apply emits_refl. Qed.

Lemma anything_trans (m1 m2 m3 : machine W) :
  emits anything m1 m2 -> emits anything m2 m3 -> emits anything m1 m3.
Proof. apply emits_trans. Qed.

Ltac anything_step :=
  first [ apply emits_log; exact I
        | apply emits_read; exact I
        | apply emits_write; exact I
        | apply emits_call_with; intros; exact I ].

Lemma close_file_extends : stable (emits anything) (close_file env).
Proof.
  unfold close_file, _get_file_handle, call, warn.
  stable_with anything_refl anything_trans anything_step.
Qed.

Lemma close_file_lazy : stable same_lazy (close_file env).
Proof.
  unfold close_file, _get_file_handle, call, warn.
  stable_with (@same_lazy_refl W) (@same_lazy_trans W)
    ltac:(first [ apply same_lazy_log | apply same_lazy_read
                | apply same_lazy_call_with ]).
Qed.

Lemma closes_after_compute_suffix t1 t2 :
  closes_after_compute t1 -> Forall not_close t2 ->
  closes_after_compute (t1 ++ t2).
Proof.
  intros H1 H2 pre s post E.
  apply app_eq_app in E. destruct E as (l & [[E1 E2]|[E1 E2]]).
  - destruct l as [|e l]; simpl in E2.
    + subst t2. inversion H2 as [|? ? Hc _]. contradiction.
    + injection E2 as <- ->. exact (H1 _ _ _ E1).
  - subst t2. apply Forall_app in H2. destruct H2 as [_ H2].
    inversion H2 as [|? ? Hc _]. contradiction.
Qed.

(** The body of the [with] statement. *)
Lemma compute_body_spec (close_file_arg : bool) m r m' :
  bind read_data
       (fun da =>
          bind (call_with OpCompute DoneRef (da_compute env da))
               (fun data =>
                  bind (when close_file_arg (close_file env))
                       (fun _ => write_data data))) m = (r, m') ->
  exists t, trace m' = trace m ++ t /\
    closes_after_compute t /\
    _lazy m' = _lazy m /\
    (forall v, r = Val v ->
       exists d w, da_compute env (data m) (world m) = (Val d, w) /\
                   In (Ev OpCompute (DoneRef d)) t /\ data m' = d).
Proof.
  intros H.
  assert (Hs : stable (emits anything) (when close_file_arg (close_file env)))
    by (apply stable_when; [apply anything_refl|apply close_file_extends]).
  assert (Hl : stable same_lazy (when close_file_arg (close_file env)))
    by (apply stable_when; [apply same_lazy_refl|apply close_file_lazy]).
  unfold bind at 1 2 in H. unfold read_data, call_with, bind at 1 2 3 4 in H.
  simpl in H.
  destruct (da_compute env (data m) (world m)) as [[d|e] w] eqn:Ec; simpl in H.
  - apply bind_inv in H.
    destruct H as [(e & H & ->)|(u & m3 & H3 & H)].
    + destruct (Hs _ _ _ H) as (t & Ht & _). simpl in Ht.
      apply Hl in H.
      exists ([ReadData] ++ Ev OpCompute (DoneRef d) :: t).
      rewrite Ht, <- !app_assoc. simpl. split; [reflexivity|].
      split; [|split; [exact H|discriminate]].
      apply closes_after_compute_prefix with (t1 := [ReadData]);
        [repeat constructor|apply closes_after_compute_done].
    + destruct (Hs _ _ _ H3) as (t & Ht & _). simpl in Ht.
      apply Hl in H3.
      injection H as <- <-. simpl.
      exists ([ReadData] ++ Ev OpCompute (DoneRef d) :: t ++ [WriteData d]).
      rewrite Ht, <- !app_assoc. simpl. split; [reflexivity|].
      split; [|split; [exact H3|]].
      * apply closes_after_compute_prefix with (t1 := [ReadData]);
          [repeat constructor|apply closes_after_compute_done].
      * intros _ _. exists d, w. simpl. rewrite in_app_iff. simpl. auto.
  - injection H as <- <-. simpl.
    exists [ReadData; Ev OpCompute (Failed e)].
    rewrite <- app_assoc. simpl. split; [reflexivity|].
    split; [|split; [reflexivity|discriminate]].
    apply not_close_closes_after_compute. repeat constructor.
Qed.

Lemma keeps_open_refl (m : machine W) : keeps_open m m.
Proof. split; [apply emits_refl|apply same_data_refl]. Qed.

Lemma keeps_open_trans (m1 m2 m3 : machine W) :
  keeps_open m1 m2 -> keeps_open m2 m3 -> keeps_open m1 m3.
Proof.
  intros [E1 D1] [E2 D2].
  split; [eapply emits_trans|eapply same_data_trans]; eassumption.
Qed.

Lemma keeps_open_log e : not_close e -> stable keeps_open (log (W := W) e).
Proof.
  intros He m r m' H.
  split; [eapply emits_log|eapply same_data_log]; eassumption.
Qed.

Lemma keeps_open_call {A} o (f : W -> result A * W) :
  o <> OpClose -> stable keeps_open (call o f).
Proof.
  intros Ho m r m' H. unfold call in H. split.
  - eapply emits_call_with; [|eassumption].
    intros s. destruct o; try exact I. contradiction.
  - eapply same_data_call_with; eassumption.
Qed.

Ltac keeps_open_step :=
  first [ apply keeps_open_log; exact I
        | apply keeps_open_call; discriminate ].

(** The deprecated keyword, when given, overrides [show_progressbar]. *)
Lemma deprecated_keyword_keeps_open (show_progressbar : option bool)
      (kw_progressbar : option (option bool)) :
  stable keeps_open
    (match kw_progressbar with
     | Some v => bind warn (fun _ => ret v)
     | None => ret show_progressbar
     end).
Proof.
  unfold warn.
  stable_with keeps_open_refl keeps_open_trans keeps_open_step.
Qed.

Lemma preference_keeps_open (show_progressbar : option bool) :
  stable keeps_open
    (match show_progressbar with
     | None => bind get_world (fun w => ret (pref_show_progressbar env w))
     | Some b => ret b
     end).
Proof.
  stable_with keeps_open_refl keeps_open_trans keeps_open_step.
Qed.

(** What [compute] guarantees of a run from [m] to [m'] with result [r]. *)
Let materialises (m : machine W) (r : result unit) (m' : machine W) : Prop :=
  exists t, trace m' = trace m ++ t /\
    closes_after_compute t /\
    (r = Val tt ->
       exists d w w', da_compute env (data m) w = (Val d, w') /\
                      In (Ev OpCompute (DoneRef d)) t /\
                      data m' = d /\ _lazy m' = false).

Lemma materialises_raised m e m' :
  keeps_open m m' -> materialises m (Exn e) m'.
Proof.
  intros [(t & Ht & Hc) _]. exists t.
  split; [exact Ht|]. split; [|discriminate].
  apply not_close_closes_after_compute, Hc.
Qed.

Lemma materialises_after m m1 r m' :
  keeps_open m m1 -> materialises m1 r m' -> materialises m r m'.
Proof.
  intros [(t1 & Ht1 & Hc1) Hd] (t & Ht & Hc & Hr).
  exists (t1 ++ t). rewrite Ht, Ht1, app_assoc.
  split; [reflexivity|].
  split; [apply closes_after_compute_prefix; assumption|].
  intros E. destruct (Hr E) as (d & w & w' & H1 & H2 & H3).
  exists d, w, w'. rewrite <- Hd. rewrite in_app_iff. tauto.
Qed.

(** Whatever the collaborators do, in every run of [compute] a file
    handle is closed only after [da.compute()] has returned the in-memory
    array, also with [close_file=True]; and when [compute] returns,
    [self.data] is the array that [da.compute()] returned for the lazy data
    the signal had at entry, and [self._lazy] is [False]. *)
Theorem compute_materialises_before_closing
        (close_file_arg : bool) (show_progressbar : option bool)
        (kw_progressbar : option (option bool)) (m : machine W)
        (r : result unit) (m' : machine W) :
  compute env close_file_arg show_progressbar kw_progressbar m = (r, m') ->
  exists t, trace m' = trace m ++ t /\
    closes_after_compute t /\
    (r = Val tt ->
       exists d w w', da_compute env (data m) w = (Val d, w') /\
                      In (Ev OpCompute (DoneRef d)) t /\
                      data m' = d /\ _lazy m' = false).
Proof.
  intros H. change (materialises m r m'). unfold compute in H.
  pose proof (deprecated_keyword_keeps_open show_progressbar kw_progressbar)
    as Hkw.
  apply bind_inv in H. destruct H as [(e & H & ->)|(s1 & m1 & H1 & H)].
  { apply materialises_raised. exact (Hkw _ _ _ H). }
  apply materialises_after with m1; [exact (Hkw _ _ _ H1)|clear H1 Hkw].
  pose proof (preference_keeps_open s1) as Hpref.
  apply bind_inv in H. destruct H as [(e & H & ->)|(s2 & m2 & H2 & H)].
  { apply materialises_raised. exact (Hpref _ _ _ H). }
  apply materialises_after with m2; [exact (Hpref _ _ _ H2)|clear H2 Hpref].
  assert (Henter : stable keeps_open (call OpCmEnter (cm_enter env s2)))
    by (apply keeps_open_call; discriminate).
  apply bind_inv in H. destruct H as [(e & H & ->)|(u3 & m3 & H3 & H)].
  { apply materialises_raised. exact (Henter _ _ _ H). }
  apply materialises_after with m3; [exact (Henter _ _ _ H3)|clear H3 Henter].
  assert (Hexit : stable keeps_open (call OpCmExit (cm_exit env s2)))
    by (apply keeps_open_call; discriminate).
  assert (Hexit_lazy : stable same_lazy (call OpCmExit (cm_exit env s2)))
    by apply same_lazy_call_with.
  apply bind_inv in H. destruct H as [(e & H & ->)|(u4 & m4 & H4 & H)].
  - apply try_finally_inv in H.
    destruct H as (rb & mb & rc & Hb & Hc & _).
    apply compute_body_spec in Hb.
    destruct Hb as (t & Ht & Hcl & _).
    destruct (Hexit _ _ _ Hc) as [(t' & Ht' & Hn) _].
    exists (t ++ t'). rewrite Ht', Ht, app_assoc.
    split; [reflexivity|]. split; [|discriminate].
    apply closes_after_compute_suffix; assumption.
  - apply try_finally_inv in H4.
    destruct H4 as (rb & mb & rc & Hb & Hc & Hr).
    apply compute_body_spec in Hb.
    destruct Hb as (t & Ht & Hcl & _ & Hv).
    destruct (Hexit _ _ _ Hc) as [(t' & Ht' & Hn) Hd].
    destruct rc as [uc|ec]; [subst rb|discriminate].
    destruct (Hv _ eq_refl) as (d & w & Hw & Hin & Hdata).
    unfold bind, set_lazy, call, call_with in H. simpl in H.
    destruct (assign_subclass env (world m4)) as [ra wa]. simpl in H.
    exists (t ++ t' ++ [Ev OpAssignSubclass (status_of (fun _ => Done) ra)]).
    destruct ra as [ua|ea]; injection H as <- <-; simpl;
      rewrite Ht', Ht, <- !app_assoc;
      (split; [reflexivity|]);
      (split;
       [apply closes_after_compute_suffix;
        [exact Hcl|apply Forall_app; split; [exact Hn|repeat constructor]]|]).
    + intros _. exists d, (world m3), w. rewrite in_app_iff.
      repeat split; auto. rewrite <- Hdata. exact Hd.
    + discriminate.
Qed.

End ComputeFacts.

(** On a file-backed lazy signal, [compute] with [close_file=True] computes
    the array, closes the file and installs the array. *)
Example compute_run :
  Effects.run
    (Materialise.compute Materialise.quiet true None None)
    (Materialise.lazy_machine 3 10)
  = (Effects.Val tt, Materialise.computed_machine).
Proof. reflexivity. Qed.

Lemma compute_materialises_before_closing_witness :
  exists t,
    Effects.trace Materialise.computed_machine
    = Effects.trace (Materialise.lazy_machine 3 10) ++ t /\
    Observations.closes_after_compute t /\
    (Effects.Val tt = Effects.Val tt ->
     exists d w w',
       Materialise.da_compute Materialise.quiet
         (Effects.data (Materialise.lazy_machine 3 10)) w
       = (Effects.Val d, w') /\
       In (Effects.Ev Effects.OpCompute (Effects.DoneRef d)) t /\
       Effects.data Materialise.computed_machine = d /\
       Effects._lazy Materialise.computed_machine = false).
Proof.
  apply (@compute_materialises_before_closing nat Materialise.quiet
           true None None (Materialise.lazy_machine 3 10) (Effects.Val tt)
           Materialise.computed_machine).
  reflexivity.
Defined.

(** ** 1b. The chunk planner: the chunks it returns are a chunking *)

Section ChunkPlannerCover.
Import ChunkPlanner.
Local Open Scope Z_scope.

Lemma zsum_app (l m : list Z) : zsum (l ++ m) = zsum l + zsum m.
Proof.
  unfold zsum. induction l as [|x l IH]; simpl; [reflexivity|].
  rewrite IH. lia.
Qed.

Lemma zsum_repeat (x : Z) (n : nat) : zsum (repeat x n) = Z.of_nat n * x.
Proof.
  unfold zsum. induction n as [|n IH]; [reflexivity|].
  cbn [repeat fold_right]. rewrite IH. lia.
Qed.

Lemma zsum_singleton (x : Z) : zsum [x] = x.
Proof. unfold zsum. simpl. lia. Qed.

(** The pieces of [np.array_split] add up to the length that was split. *)
Lemma array_split_sum (n sections : Z) (l : list Z) :
  array_split_lengths n sections = Returns l -> zsum l = n.
Proof.
  unfold array_split_lengths.
  destruct (Z.leb_spec sections 0) as [|Hpos]; [discriminate|].
  intros H; injection H as <-.
  rewrite zsum_app, !zsum_repeat.
  pose proof (Z.mod_pos_bound n sections Hpos) as R.
  pose proof (Z.div_mod n sections) as E.
  rewrite !Z2Nat.id by lia. nia.
Qed.

(** The pieces of [np.array_split] have one of two consecutive lengths. *)
Lemma array_split_balanced (n sections : Z) (l : list Z) :
  array_split_lengths n sections = Returns l ->
  Forall (fun c => n / sections <= c <= n / sections + 1) l.
Proof.
  unfold array_split_lengths.
  destruct (Z.leb_spec sections 0) as [|Hpos]; [discriminate|].
  intros H; injection H as <-.
  apply Forall_app; split; apply Forall_forall; intros c Hc;
    apply repeat_spec in Hc; subst c; lia.
Qed.

(** [np.array_split] gives as many pieces as it is asked for. *)
Lemma array_split_count (n sections : Z) (l : list Z) :
  array_split_lengths n sections = Returns l ->
  Z.of_nat (length l) = sections.
Proof.
  unfold array_split_lengths.
  destruct (Z.leb_spec sections 0) as [|Hpos]; [discriminate|].
  intros H; injection H as <-.
  pose proof (Z.mod_pos_bound n sections Hpos) as R.
  rewrite length_app, !repeat_length, Nat2Z.inj_add, !Z2Nat.id by lia.
  lia.
Qed.

(** What the final loop appends for dimension [i], when it returns. *)
Lemma chunk_of_dim_cases (dcshape : list Z) (indices : list nat)
      (sizes : list Z) (i : nat) (l : list Z) :
  chunk_of_dim dcshape indices sizes i = Returns l ->
  l = [nth i dcshape 0] \/
  exists sections, array_split_lengths (nth i dcshape 0) sections = Returns l.
Proof.
  unfold chunk_of_dim. destruct (index_of i indices) as [j|].
  - destruct (Z.eqb_spec (nth j sizes 0) 0) as [|_]; [discriminate|].
    intros H. right. eexists. exact H.
  - intros H; injection H as <-. left. reflexivity.
Qed.

(** What the degenerate branch returns for dimension [k]. *)
Lemma keep_whole_cases (dcshape : list Z) (need : list nat)
      (chunks' : list (list Z)) (k : nat) :
  keep_whole dcshape need
             (map (fun n => repeat 1 (Z.to_nat n)) dcshape) = Returns chunks' ->
  (k < length dcshape)%nat ->
  nth k chunks' [] = [nth k dcshape 0] \/
  nth k chunks' [] = repeat 1 (Z.to_nat (nth k dcshape 0)).
Proof.
  intros H Hk. apply keep_whole_spec in H; [|apply length_map].
  destruct H as (_ & Hneed & Hfree).
  destruct (in_dec Nat.eq_dec k need) as [Hin|Hout].
  - left. auto.
  - right. rewrite Hfree by assumption.
    apply (nth_map_lt (fun n => repeat 1 (Z.to_nat n))). assumption.
Qed.

(** Splits a goal about [_get_dask_chunks], once unfolded, into its
    degenerate branch and its halving branch. *)
Ltac planner_branches :=
  match goal with
  | |- context [if ?a =? 0 then _ else _] =>
      destruct (Z.eqb_spec a 0) as [|_]; [discriminate|]
  end;
  match goal with
  | |- context [if ?a <? 2 then _ else _] =>
      destruct (Z.ltb_spec a 2) as [_|_]
  end.

(** Along every dimension, the chunks that [_get_dask_chunks] returns add
    up to the length of the array in that dimension: the result is a
    chunking of the array, in the degenerate branch as well as after the
    halving loop. *)
Theorem get_dask_chunks_cover
        (s : signal) (need_axes : list nat) (dtype_arg : option dtype)
        (fuel : nat) (chunks : list (list Z)) :
  Forall (fun n => 0 <= n) (dc_shape s) ->
  _get_dask_chunks fuel s need_axes dtype_arg = Returns chunks ->
  length chunks = length (dc_shape s) /\
  forall k, (k < length (dc_shape s))%nat ->
    zsum (nth k chunks []) = nth k (dc_shape s) 0.
Proof.
  intros Hnn. unfold _get_dask_chunks. cbv zeta.
  planner_branches.
  - intros H. split.
    + apply keep_whole_spec in H; [tauto|apply length_map].
    + intros k Hk.
      destruct (keep_whole_cases _ _ H Hk) as [-> | ->].
      * apply zsum_singleton.
      * rewrite zsum_repeat, Z2Nat.id; [lia|].
        apply Forall_nth_lt; assumption.
  - destruct (halve_loop fuel _ _) as [sizes'| |]; simpl; try discriminate.
    intros Hcol.
    destruct (collect_seq_nth _ [] _ _ Hcol) as [Hlen Hnth].
    split; [assumption|]. intros k Hk.
    specialize (Hnth k Hk). simpl in Hnth.
    apply chunk_of_dim_cases in Hnth.
    destruct Hnth as [-> | (sections & Hsplit)].
    + apply zsum_singleton.
    + exact (array_split_sum _ _ Hsplit).
Qed.

Lemma get_dask_chunks_cover_witness :
  length [repeat 3 32 ++ [2; 2]; repeat 3 16 ++ [2]; [1000]; [1000]]
  = length [100; 50; 1000; 1000] /\
  forall k, (k < length [100; 50; 1000; 1000]%Z)%nat ->
    zsum (nth k [repeat 3 32 ++ [2; 2]; repeat 3 16 ++ [2]; [1000]; [1000]]
              [])
    = nth k [100; 50; 1000; 1000] 0.
Proof.
  apply (@get_dask_chunks_cover
           {| dc_shape := [100; 50; 1000; 1000]; dc_dtype := float64;
              axes_size := [1; 1; 1; 1] |} [2; 3]%nat None 100%nat).
  - repeat constructor; simpl; lia.
  - reflexivity.
Defined.

(** Along every dimension, any two chunks that [_get_dask_chunks] returns
    differ in length by at most one. *)
Theorem get_dask_chunks_balanced
        (s : signal) (need_axes : list nat) (dtype_arg : option dtype)
        (fuel : nat) (chunks : list (list Z)) :
  _get_dask_chunks fuel s need_axes dtype_arg = Returns chunks ->
  forall k c1 c2,
    In c1 (nth k chunks []) -> In c2 (nth k chunks []) ->
    Z.abs (c1 - c2) <= 1.
Proof.
  unfold _get_dask_chunks. cbv zeta.
  planner_branches.
  - intros H k c1 c2.
    destruct (Nat.lt_ge_cases k (length (dc_shape s))) as [Hk|Hk].
    + destruct (keep_whole_cases _ _ H Hk) as [-> | ->].
      * intros [<-|[]] [<-|[]]. lia.
      * intros H1 H2. apply repeat_spec in H1, H2. subst. lia.
    + apply keep_whole_spec in H; [|apply length_map].
      destruct H as (Hlen & _). rewrite nth_overflow by lia. intros [].
  - destruct (halve_loop fuel _ _) as [sizes'| |]; simpl; try discriminate.
    intros Hcol k c1 c2.
    destruct (collect_seq_nth _ [] _ _ Hcol) as [Hlen Hnth].
    destruct (Nat.lt_ge_cases k (length (dc_shape s))) as [Hk|Hk].
    + specialize (Hnth k Hk). simpl in Hnth.
      apply chunk_of_dim_cases in Hnth.
      destruct Hnth as [-> | (sections & Hsplit)].
      * intros [<-|[]] [<-|[]]. lia.
      * apply array_split_balanced in Hsplit.
        rewrite Forall_forall in Hsplit. intros H1 H2.
        apply Hsplit in H1, H2. lia.
    + rewrite nth_overflow by lia. intros [].
Qed.

Lemma get_dask_chunks_balanced_witness : Z.abs (3 - 2) <= 1.
Proof.
  apply (@get_dask_chunks_balanced
           {| dc_shape := [100; 50; 1000; 1000]; dc_dtype := float64;
              axes_size := [1; 1; 1; 1] |} [2; 3]%nat None 100%nat
           [repeat 3 32 ++ [2; 2]; repeat 3 16 ++ [2]; [1000]; [1000]]
           eq_refl 0%nat).
  - simpl. auto.
  - apply in_or_app. right. simpl. auto.
Defined.

End ChunkPlannerCover.

(** ** 1c. The chunk planner: empty axes, small arrays, large blocks *)

Section ChunkPlannerEdges.
Import ChunkPlanner.
Local Open Scope Z_scope.

Lemma collect_raises {A} (e : exn) (l : list (outcome A)) :
  Forall (fun m => m = Raises e \/ exists a, m = Returns a) l ->
  Exists (fun m => m = Raises e) l ->
  collect l = Raises e.
Proof.
  induction l as [|m l IH]; intros Hall Hex.
  - inversion Hex.
  - inversion Hall as [|? ? Hm Hl]; subst. simpl.
    destruct Hm as [-> | [a ->]]; [reflexivity|]. simpl.
    inversion Hex as [? ? Hm|? ? Hex']; subst; [discriminate|].
    rewrite (IH Hl Hex'). reflexivity.
Qed.

Lemma collect_map_returns {A B} (f : A -> outcome B) (g : A -> B)
      (l : list A) :
  (forall x, In x l -> f x = Returns (g x)) ->
  collect (map f l) = Returns (map g l).
Proof.
  induction l as [|x l IH]; intros H; simpl; [reflexivity|].
  rewrite (H x) by (left; reflexivity). simpl.
  rewrite IH by (intros; apply H; right; assumption). reflexivity.
Qed.

Lemma index_of_In (i : nat) (l : list nat) :
  In i l -> exists j, index_of i l = Some j.
Proof.
  induction l as [|x l IH]; simpl; [tauto|]. intros H.
  destruct (Nat.eqb_spec i x) as [|Hne]; [eexists; reflexivity|].
  destruct IH as [j ->]; [destruct H; congruence|].
  eexists; reflexivity.
Qed.

Lemma map_nth_seq_all (l : list Z) :
  map (fun i => nth i l 0) (seq 0 (length l)) = l.
Proof.
  induction l as [|x l IH]; [reflexivity|].
  cbn [length seq map nth]. f_equal.
  rewrite <- seq_shift, map_map. exact IH.
Qed.

Lemma multiply_app (l m : list Z) :
  multiply (l ++ m) = multiply l * multiply m.
Proof.
  induction l as [|x l IH]; cbn [app].
  - rewrite multiply_nil. lia.
  - rewrite !multiply_cons, IH. ring.
Qed.

Lemma multiply_perm (l m : list Z) :
  Permutation l m -> multiply l = multiply m.
Proof.
  induction 1 as [|x l m _ IH|x y l|l m n _ IH1 _ IH2].
  - reflexivity.
  - rewrite !multiply_cons, IH. reflexivity.
  - rewrite !multiply_cons. ring.
  - congruence.
Qed.

(** The kept axes and the free axes share out the dimensions. *)
Lemma kept_free_product (shape : list Z) (need : list nat) :
  NoDup need ->
  Forall (fun k => (k < length shape)%nat) need ->
  multiply (map (fun k => nth k shape 0) need)
  * multiply (map (fun k => nth k shape 0) (free_axes (length shape) need))
  = multiply shape.
Proof.
  intros Hnd Hin.
  rewrite <- multiply_app, <- map_app.
  transitivity (multiply (map (fun k => nth k shape 0)
                                (seq 0 (length shape))));
    [|rewrite map_nth_seq_all; reflexivity].
  apply multiply_perm, Permutation_map, NoDup_Permutation.
  - apply NoDup_app; [assumption|apply free_axes_NoDup|].
    intros k Hk Hf. apply free_axes_In in Hf. tauto.
  - apply seq_NoDup.
  - intros k. rewrite in_app_iff, free_axes_In, in_seq.
    rewrite Forall_forall in Hin.
    destruct (in_dec Nat.eq_dec k need) as [Hk|Hk].
    + specialize (Hin _ Hk). intuition lia.
    + intuition lia.
Qed.

(** The size the halving loop starts from, for the free axis at position
    [j] of [indices]. *)
Lemma free_size_nth (shape : list Z) (indices : list nat) (i j : nat) :
  index_of i indices = Some j ->
  nth j (map (fun k => nth k shape 0) indices) 0 = nth i shape 0.
Proof.
  intros H. destruct (index_of_Some _ _ H) as [Hj <-].
  apply (nth_map_lt (fun k => nth k shape 0)). assumption.
Qed.

Lemma ceil_div_same (a : Z) : 1 <= a -> ceil_div a a = 1.
Proof.
  intros Ha. destruct (ceil_div_spec a (b := a)) as [H1 H2]; [lia|]. nia.
Qed.

Lemma array_split_one (n : Z) : array_split_lengths n 1 = Returns [n].
Proof.
  unfold array_split_lengths. simpl (1 <=? 0).
  rewrite Z.mod_1_r, Z.div_1_r. reflexivity.
Qed.

(** An empty array cannot be planned: when an axis has length 0,
    [_get_dask_chunks] raises [ZeroDivisionError], at the budget division
    if the axis is kept whole and in the final loop if it is free;
    unless it takes the degenerate branch. *)
Theorem get_dask_chunks_empty_axis_raises
        (s : signal) (need_axes : list nat) (dtype_arg : option dtype)
        (k : nat) :
  length (axes_size s) = length (dc_shape s) ->
  Forall (fun n => 0 <= n) (dc_shape s) ->
  (k < length (dc_shape s))%nat ->
  nth k (dc_shape s) 0 = 0 ->
  In k need_axes \/
  2 * (multiply (map (fun i => nth i (dc_shape s) 0) need_axes)
       * typesize s dtype_arg) <= budget ->
  forall fuel,
    _get_dask_chunks fuel s need_axes dtype_arg = Raises ZeroDivisionError.
Proof.
  intros Hax Hnn Hk Hzero Hcase fuel.
  pose proof (typesize_bounds s dtype_arg) as Ht.
  pose proof budget_value as Hb.
  unfold _get_dask_chunks.
  rewrite (refresh_aligned _ _ Hax).
  set (t := typesize s dtype_arg) in *.
  set (K := multiply (map (fun k => nth k (dc_shape s) 0) need_axes)) in *.
  cbv zeta.
  destruct (Z.eqb_spec (K * t) 0) as [|Hne]; [reflexivity|].
  assert (Hfree : ~ In k need_axes).
  { intros Hin. apply Hne. unfold K.
    rewrite multiply_zero; [lia|].
    apply in_map_iff. exists k. auto. }
  destruct Hcase as [|Hfit]; [tauto|].
  assert (HK : 0 < K * t).
  { assert (0 <= K); [|lia].
    apply multiply_nonneg, Forall_forall. intros x Hx.
    apply in_map_iff in Hx. destruct Hx as (i & <- & _).
    destruct (Nat.lt_ge_cases i (length (dc_shape s))).
    - apply Forall_nth_lt; assumption.
    - rewrite nth_overflow by lia. lia. }
  assert (Hntf : 2 <= budget / (K * t))
    by (apply Z.div_le_lower_bound; lia).
  destruct (Z.ltb_spec (budget / (K * t)) 2) as [|_]; [lia|].
  set (indices := free_axes (length (dc_shape s)) need_axes).
  assert (Hkin : In k indices) by (apply free_axes_In; tauto).
  rewrite halve_loop_stops.
  2:{ rewrite multiply_zero; [lia|].
      apply in_map_iff. exists k. auto. }
  simpl. apply collect_raises.
  - apply Forall_forall. intros m Hm.
    apply in_map_iff in Hm. destruct Hm as (i & <- & Hi).
    apply in_seq in Hi. unfold chunk_of_dim.
    destruct (index_of i indices) as [j|] eqn:Ej;
      [|right; eexists; reflexivity].
    rewrite (@free_size_nth (dc_shape s) _ _ _ Ej).
    destruct (Z.eqb_spec (nth i (dc_shape s) 0) 0) as [|Hpos];
      [left; reflexivity|].
    right.
    assert (1 <= nth i (dc_shape s) 0).
    { assert (0 <= nth i (dc_shape s) 0); [|lia].
      apply Forall_nth_lt; [assumption|lia]. }
    rewrite ceil_div_same by assumption.
    rewrite array_split_one. eexists; reflexivity.
  - apply Exists_exists. exists (chunk_of_dim (dc_shape s) indices
       (map (fun k0 => nth k0 (dc_shape s) 0) indices) k).
    split; [apply in_map, in_seq; lia|].
    unfold chunk_of_dim.
    destruct (index_of_In _ _ Hkin) as [j Ej]. rewrite Ej.
    rewrite (@free_size_nth (dc_shape s) _ _ _ Ej), Hzero. reflexivity.
Qed.

Lemma get_dask_chunks_empty_axis_raises_witness :
  _get_dask_chunks 0
    {| dc_shape := [7; 0; 10; 10]; dc_dtype := float64;
       axes_size := [7; 0; 10; 10] |} [2; 3]%nat None
  = Raises ZeroDivisionError.
Proof.
  apply (@get_dask_chunks_empty_axis_raises
           {| dc_shape := [7; 0; 10; 10]; dc_dtype := float64;
              axes_size := [7; 0; 10; 10] |} [2; 3]%nat None 1%nat).
  - reflexivity.
  - repeat constructor; lia.
  - simpl. lia.
  - reflexivity.
  - right. vm_compute. discriminate.
Defined.

(** An array that fits the budget is not split: when the whole array
    takes at most 100 MiB and the kept block at most half of that, every
    axis is one chunk, and the halving loop is never entered. *)
Theorem get_dask_chunks_small_array_unsplit
        (s : signal) (need_axes : list nat) (dtype_arg : option dtype) :
  length (axes_size s) = length (dc_shape s) ->
  Forall (fun n => 1 <= n) (dc_shape s) ->
  Forall (fun k => (k < length (dc_shape s))%nat) need_axes ->
  NoDup need_axes ->
  2 * (multiply (map (fun i => nth i (dc_shape s) 0) need_axes)
       * typesize s dtype_arg) <= budget ->
  multiply (dc_shape s) * typesize s dtype_arg <= budget ->
  forall fuel,
    _get_dask_chunks fuel s need_axes dtype_arg
    = Returns (map (fun n => [n]) (dc_shape s)).
Proof.
  intros Hax Hpos Hneed Hnd Hhalf Hfits fuel.
  pose proof (typesize_bounds s dtype_arg) as Ht.
  pose proof (kept_free_product (dc_shape s) Hnd Hneed) as Hprod.
  unfold _get_dask_chunks.
  rewrite (refresh_aligned _ _ Hax).
  set (t := typesize s dtype_arg) in *.
  set (K := multiply (map (fun k => nth k (dc_shape s) 0) need_axes)) in *.
  set (indices := free_axes (length (dc_shape s)) need_axes) in *.
  set (F := multiply (map (fun k => nth k (dc_shape s) 0) indices)) in *.
  cbv zeta.
  assert (HK : 1 <= K).
  { apply multiply_pos, Forall_forall. intros x Hx.
    apply in_map_iff in Hx. destruct Hx as (i & <- & Hi).
    rewrite Forall_forall in Hneed.
    apply Forall_nth_lt; auto. }
  destruct (Z.eqb_spec (K * t) 0) as [|_]; [nia|].
  assert (Hntf : 2 <= budget / (K * t))
    by (apply Z.div_le_lower_bound; nia).
  destruct (Z.ltb_spec (budget / (K * t)) 2) as [|_]; [lia|].
  rewrite halve_loop_stops
    by (fold F; apply Z.div_le_lower_bound; nia).
  simpl.
  replace (map (fun n => [n]) (dc_shape s))
    with (map (fun i => [nth i (dc_shape s) 0])
              (seq 0 (length (dc_shape s))))
    by (rewrite <- (map_map (fun i => nth i (dc_shape s) 0)
                            (fun n => [n])), map_nth_seq_all; reflexivity).
  apply collect_map_returns. intros i Hi. apply in_seq in Hi.
  unfold chunk_of_dim.
  destruct (index_of i indices) as [j|] eqn:Ej; [|reflexivity].
  rewrite (@free_size_nth (dc_shape s) _ _ _ Ej).
  assert (1 <= nth i (dc_shape s) 0)
    by (apply Forall_nth_lt; [assumption|lia]).
  destruct (Z.eqb_spec (nth i (dc_shape s) 0) 0) as [|_]; [lia|].
  rewrite ceil_div_same by assumption. apply array_split_one.
Qed.

Lemma get_dask_chunks_small_array_unsplit_witness :
  _get_dask_chunks 0
    {| dc_shape := [10; 20; 100; 100]; dc_dtype := float32;
       axes_size := [10; 20; 100; 100] |} [2; 3]%nat None
  = Returns [[10]; [20]; [100]; [100]].
Proof.
  apply (@get_dask_chunks_small_array_unsplit
           {| dc_shape := [10; 20; 100; 100]; dc_dtype := float32;
              axes_size := [10; 20; 100; 100] |} [2; 3]%nat None).
  - reflexivity.
  - repeat constructor; lia.
  - repeat constructor; simpl; lia.
  - repeat constructor; simpl; intuition discriminate.
  - vm_compute. discriminate.
  - vm_compute. discriminate.
Defined.

(** When two kept blocks do not fit in 100 MiB, [_get_dask_chunks] returns
    at once: every kept axis is one whole chunk and every other axis is cut
    into chunks of one element. *)
Theorem get_dask_chunks_large_block_units
        (s : signal) (need_axes : list nat) (dtype_arg : option dtype) :
  length (axes_size s) = length (dc_shape s) ->
  Forall (fun k => (k < length (dc_shape s))%nat) need_axes ->
  budget < 2 * (multiply (map (fun i => nth i (dc_shape s) 0) need_axes)
                * typesize s dtype_arg) ->
  exists chunks,
    (forall fuel, _get_dask_chunks fuel s need_axes dtype_arg
                  = Returns chunks) /\
    length chunks = length (dc_shape s) /\
    forall k, (k < length (dc_shape s))%nat ->
      nth k chunks []
      = if mem k need_axes then [nth k (dc_shape s) 0]
        else repeat 1 (Z.to_nat (nth k (dc_shape s) 0)).
Proof.
  intros Hax Hneed Hbig.
  pose proof budget_value as Hb.
  destruct (@keep_whole_returns (dc_shape s) need_axes
              (map (fun n => repeat 1 (Z.to_nat n)) (dc_shape s)) Hneed)
    as [chunks Hc].
  exists chunks. split; [|split].
  - intros fuel. unfold _get_dask_chunks.
    rewrite (refresh_aligned _ _ Hax). cbv zeta.
    set (w := multiply (map (fun k => nth k (dc_shape s) 0) need_axes)
              * typesize s dtype_arg) in *.
    destruct (Z.eqb_spec w 0) as [|_]; [lia|].
    assert (budget / w < 2) by (apply Z.div_lt_upper_bound; lia).
    destruct (Z.ltb_spec (budget / w) 2) as [_|]; [exact Hc|lia].
  - apply keep_whole_spec in Hc; [tauto|apply length_map].
  - intros k Hk. apply keep_whole_spec in Hc; [|apply length_map].
    destruct Hc as (_ & Hwhole & Hfree).
    destruct (mem k need_axes) eqn:Em.
    + apply Hwhole, mem_In, Em.
    + rewrite Hfree.
      * apply (nth_map_lt (fun n => repeat 1 (Z.to_nat n))). assumption.
      * intros Hin. apply mem_In in Hin. congruence.
Qed.

Lemma get_dask_chunks_large_block_units_witness :
  exists chunks,
    (forall fuel,
        _get_dask_chunks fuel
          {| dc_shape := [3; 2; 8000; 1000]; dc_dtype := float64;
             axes_size := [3; 2; 8000; 1000] |} [2; 3]%nat None
        = Returns chunks) /\
    length chunks = length [3; 2; 8000; 1000] /\
    forall k, (k < length [3; 2; 8000; 1000]%Z)%nat ->
      nth k chunks []
      = if mem k [2; 3]%nat then [nth k [3; 2; 8000; 1000] 0]
        else repeat 1 (Z.to_nat (nth k [3; 2; 8000; 1000] 0)).
Proof.
  apply (@get_dask_chunks_large_block_units
           {| dc_shape := [3; 2; 8000; 1000]; dc_dtype := float64;
              axes_size := [3; 2; 8000; 1000] |} [2; 3]%nat None).
  - reflexivity.
  - repeat constructor; simpl; lia.
  - vm_compute. reflexivity.
Defined.

End ChunkPlannerEdges.

(** ** 2b. More on runs of the machine *)

Section MachineFactsMore.
Import Effects Observations.
Variable W : Type.

Local Abbreviation stable := (@Observations.stable W _).

Lemma stable_both {A} (R1 R2 : machine W -> machine W -> Prop) (c : M W A) :
  stable R1 c -> stable R2 c -> stable (both R1 R2) c.
Proof. intros H1 H2 m r m' H. split; [eapply H1|eapply H2]; eassumption. Qed.

Lemma stable_impl {A} (R1 R2 : machine W -> machine W -> Prop) (c : M W A) :
  (forall m m', R1 m m' -> R2 m m') -> stable R1 c -> stable R2 c.
Proof. intros HR H1 m r m' H. eapply HR, H1, H. Qed.

Lemma emits_impl (P Q : event -> Prop) (m m' : machine W) :
  (forall e, P e -> Q e) -> emits P m m' -> emits Q m m'.
Proof.
  intros HPQ (t & Ht & Hall). exists t. split; [assumption|].
  eapply Forall_impl; eassumption.
Qed.

Lemma call_with_eq {A} o (summary : A -> status) (f : W -> result A * W) m :
  call_with o summary f m
  = (fst (f (world m)),
     {| data := data m; _lazy := _lazy m;
        _unfolded4decomposition := _unfolded4decomposition m;
        results := results m; world := snd (f (world m));
        trace := trace m ++ [Ev o (status_of summary (fst (f (world m))))] |}).
Proof. unfold call_with. destruct (f (world m)) as [r w]. reflexivity. Qed.

Lemma call_on_data_eq {A} o (summary : A -> status)
      (f : ref -> W -> result A * ref * W) m :
  call_on_data o summary f m
  = (fst (fst (f (data m) (world m))),
     {| data := snd (fst (f (data m) (world m))); _lazy := _lazy m;
        _unfolded4decomposition := _unfolded4decomposition m;
        results := results m; world := snd (f (data m) (world m));
        trace := trace m
                 ++ [Ev o (status_of summary
                                     (fst (fst (f (data m) (world m)))))] |}).
Proof.
  unfold call_on_data. destruct (f (data m) (world m)) as [[r d] w].
  reflexivity.
Qed.

(** *** What a run returns *)

Lemma returns_only_ret {A} (P : A -> Prop) (a : A) :
  P a -> returns_only P (ret (W := W) a).
Proof. intros Ha m a' m' H. injection H as <- _. exact Ha. Qed.

Lemma returns_only_raise {A} (P : A -> Prop) (e : exn) :
  returns_only P (raise (W := W) e).
Proof. intros m a m' H. discriminate. Qed.

Lemma returns_only_bind {A B} (P : B -> Prop) (c : M W A) (k : A -> M W B) :
  (forall a, returns_only P (k a)) -> returns_only P (bind c k).
Proof.
  intros Hk m b m' H.
  destruct (bind_inv _ _ _ H) as [(e & _ & He)|(a & m1 & _ & Hka)];
    [discriminate|].
  exact (Hk a _ _ _ Hka).
Qed.

(** *** A property of whole runs, through a sequence *)

(** [Q] holds of a sequence when it holds of what follows the first step,
    survives the first step in front of it, and holds when the first step
    raises. *)
Lemma bind_post {A B} (R : machine W -> machine W -> Prop)
      (Q : machine W -> result B -> machine W -> Prop)
      (c : M W A) (k : A -> M W B) :
  stable R c ->
  (forall m m1 r m', R m m1 -> Q m1 r m' -> Q m r m') ->
  (forall m e m', R m m' -> Q m (Exn e) m') ->
  (forall a m1 r m', k a m1 = (r, m') -> Q m1 r m') ->
  forall m r m', bind c k m = (r, m') -> Q m r m'.
Proof.
  intros Hc Hafter Hraised Hk m r m' H.
  destruct (bind_inv _ _ _ H) as [(e & Hce & ->)|(a & m1 & Hca & Hka)].
  - apply Hraised. exact (Hc _ _ _ Hce).
  - apply Hafter with m1; [exact (Hc _ _ _ Hca)|exact (Hk _ _ _ _ Hka)].
Qed.

(** A sequence whose two parts keep different relations. *)
Lemma stable_bind3 {A B} (R1 R2 R3 : machine W -> machine W -> Prop)
      (c : M W A) (k : A -> M W B) :
  stable R1 c -> (forall a, stable R2 (k a)) ->
  (forall m m', R1 m m' -> R3 m m') ->
  (forall m m1 m', R1 m m1 -> R2 m1 m' -> R3 m m') ->
  stable R3 (bind c k).
Proof.
  intros Hc Hk Hraise Hseq m r m' H.
  destruct (bind_inv _ _ _ H) as [(e & Hce & _)|(a & m1 & Hca & Hka)].
  - apply Hraise. exact (Hc _ _ _ Hce).
  - apply Hseq with m1; [exact (Hc _ _ _ Hca)|exact (Hk a _ _ _ Hka)].
Qed.

Lemma stable_try_finally3 {A} (R1 R2 R3 : machine W -> machine W -> Prop)
      (body : M W A) (cleanup : M W unit) :
  stable R1 body -> stable R2 cleanup ->
  (forall m m1 m', R1 m m1 -> R2 m1 m' -> R3 m m') ->
  stable R3 (try_finally body cleanup).
Proof.
  intros Hb Hc Hseq m r m' H.
  destruct (try_finally_inv _ _ _ H) as (rb & m1 & rc & H1 & H2 & _).
  apply Hseq with m1; [exact (Hb _ _ _ H1)|exact (Hc _ _ _ H2)].
Qed.

(** [read_data] and [write_data], run. *)
Lemma read_data_eq (m : machine W) :
  read_data m
  = (Val (data m),
     {| data := data m; _lazy := _lazy m;
        _unfolded4decomposition := _unfolded4decomposition m;
        results := results m; world := world m;
        trace := trace m ++ [ReadData] |}).
Proof. reflexivity. Qed.

Lemma write_data_eq (r : ref) (m : machine W) :
  write_data r m
  = (Val tt,
     {| data := r; _lazy := _lazy m;
        _unfolded4decomposition := _unfolded4decomposition m;
        results := results m; world := world m;
        trace := trace m ++ [WriteData r] |}).
Proof. reflexivity. Qed.

(** *** [call_on_data], [set_unfolded4decomposition] *)

Lemma emits_call_on_data {A} P o (summary : A -> status) f :
  (forall s, P (Ev o s)) -> stable (emits P) (call_on_data o summary f).
Proof.
  intros Ho. apply stable_step. intros m. rewrite call_on_data_eq. simpl.
  eexists; split; [reflexivity|]. auto.
Qed.

Lemma emits_set_unfolded P b :
  stable (emits P) (set_unfolded4decomposition b).
Proof.
  apply stable_step. intros m. exists []. simpl. rewrite app_nil_r. auto.
Qed.

Lemma same_data_set_unfolded b :
  stable same_data (set_unfolded4decomposition b).
Proof. apply stable_step. reflexivity. Qed.

Lemma same_lazy_call_on_data {A} o (summary : A -> status) f :
  stable same_lazy (call_on_data o summary f).
Proof.
  apply stable_step. intros m. rewrite call_on_data_eq. reflexivity.
Qed.

Lemma same_lazy_set_unfolded b :
  stable same_lazy (set_unfolded4decomposition b).
Proof. apply stable_step. reflexivity. Qed.

Lemma same_lazy_set_results l : stable same_lazy (set_results l).
Proof. apply stable_step. reflexivity. Qed.

Lemma same_unfolded_call_on_data {A} o (summary : A -> status) f :
  stable same_unfolded (call_on_data o summary f).
Proof.
  apply stable_step. intros m. rewrite call_on_data_eq. reflexivity.
Qed.

Lemma same_unfolded_set_lazy b : stable same_unfolded (set_lazy b).
Proof. apply stable_step. reflexivity. Qed.

(** *** [learning_results] is left alone *)

Lemma same_results_refl (m : machine W) : same_results m m.
Proof. reflexivity. Qed.

Lemma same_results_trans (m1 m2 m3 : machine W) :
  same_results m1 m2 -> same_results m2 m3 -> same_results m1 m3.
Proof. unfold same_results. congruence. Qed.

Lemma same_results_log e : stable same_results (log e).
Proof. apply stable_step. reflexivity. Qed.

Lemma same_results_read : stable same_results read_data.
Proof. apply stable_step. reflexivity. Qed.

Lemma same_results_write r : stable same_results (write_data r).
Proof. apply stable_step. reflexivity. Qed.

Lemma same_results_set_lazy b : stable same_results (set_lazy b).
Proof. apply stable_step. reflexivity. Qed.

Lemma same_results_set_unfolded b :
  stable same_results (set_unfolded4decomposition b).
Proof. apply stable_step. reflexivity. Qed.

Lemma same_results_call_with {A} o (summary : A -> status) f :
  stable same_results (call_with o summary f).
Proof.
  apply stable_step. intros m. rewrite call_with_eq. reflexivity.
Qed.

Lemma same_results_call_on_data {A} o (summary : A -> status) f :
  stable same_results (call_on_data o summary f).
Proof.
  apply stable_step. intros m. rewrite call_on_data_eq. reflexivity.
Qed.

End MachineFactsMore.

(** Closes a side condition on one event. *)
Ltac event_ok :=
  intros;
  first [ exact I | simpl; intuition (discriminate || congruence) ].

(** Steps of the machine, for the relation [emits P]. *)
Ltac emits_step :=
  first [ apply emits_log; event_ok
        | apply emits_read; event_ok
        | apply emits_write; event_ok
        | apply emits_set_results
        | apply emits_set_lazy
        | apply emits_set_unfolded
        | apply emits_call_with; event_ok
        | apply emits_call_on_data; event_ok ].

Ltac emits_auto W P :=
  stable_with (@emits_refl W P) (@emits_trans W P) emits_step.

(** Steps of the machine that leave [self.data] alone. *)
Ltac same_data_step :=
  first [ apply same_data_log | apply same_data_read
        | apply same_data_set_results | apply same_data_set_lazy
        | apply same_data_set_unfolded | apply same_data_call_with ].

Ltac same_data_auto W :=
  stable_with (@same_data_refl W) (@same_data_trans W) same_data_step.

Ltac same_lazy_step :=
  first [ apply same_lazy_log | apply same_lazy_read | apply same_lazy_write
        | apply same_lazy_set_results | apply same_lazy_set_unfolded
        | apply same_lazy_call_with | apply same_lazy_call_on_data ].

Ltac same_lazy_auto W :=
  stable_with (@same_lazy_refl W) (@same_lazy_trans W) same_lazy_step.

Ltac same_unfolded_step :=
  first [ apply same_unfolded_log | apply same_unfolded_read
        | apply same_unfolded_write | apply same_unfolded_set_results
        | apply same_unfolded_set_lazy | apply same_unfolded_call_with
        | apply same_unfolded_call_on_data ].

Ltac same_unfolded_auto W :=
  stable_with (@same_unfolded_refl W) (@same_unfolded_trans W)
              same_unfolded_step.

Ltac same_results_step :=
  first [ apply same_results_log | apply same_results_read
        | apply same_results_write | apply same_results_set_lazy
        | apply same_results_set_unfolded | apply same_results_call_with
        | apply same_results_call_on_data ].

Ltac same_results_auto W :=
  stable_with (@same_results_refl W) (@same_results_trans W)
              same_results_step.

(** ** 3b. [close_file], [_get_file_handle] and failed materialisation *)

Section ComputeMore.
Import Effects Observations Materialise.
Variable W : Type.
Variable env : collaborators W.

Local Abbreviation stable := (@Observations.stable W _).

(** [close_file] never raises [AttributeError]: whether the handle is
    missing ([None.close()]), the lookup fails or [close()] itself raises
    it, the exception is caught and a warning logged. *)
Theorem close_file_never_attribute_error (m : machine W) :
  fst (close_file env m) <> Exn AttributeError.
Proof.
  unfold close_file, try_except.
  match goal with
  | |- fst (match ?x with _ => _ end) <> _ => destruct x as [[u|e] m1]
  end.
  - discriminate.
  - destruct e; simpl; discriminate.
Qed.

(** When no key of the dask graph contains ["array-original"], there is
    no file handle: [close_file] closes nothing, logs a warning and
    returns. *)
Theorem close_file_without_handle (m : machine W) (keys : list string)
        (w : W) :
  graph_keys env (data m) (world m) = (Val keys, w) ->
  find is_original keys = None ->
  exists m', close_file env m = (Val tt, m') /\
    trace m' = trace m ++ [ReadData; Ev OpGraphKeys Done; Warning] /\
    data m' = data m /\ world m' = w.
Proof.
  intros Hk Hf.
  unfold close_file, try_except, _get_file_handle, call, call_with, bind,
    read_data, warn, log, set_world, raise, ret.
  simpl. rewrite Hk. simpl. rewrite Hf. simpl.
  eexists. split; [reflexivity|]. simpl.
  rewrite <- !app_assoc. auto.
Qed.

(** When the lookup of the handle raises [AttributeError] or [ValueError]
    (the file is closed, or it is not an hdf5 file), [_get_file_handle]
    returns [None], and logs a warning exactly when [warn] is set. *)
Theorem get_file_handle_tolerates_failed_lookup
        (warn_arg : bool) (m : machine W) (keys : list string) (w w' : W)
        (arrkey : string) (e : exn) :
  graph_keys env (data m) (world m) = (Val keys, w) ->
  find is_original keys = Some arrkey ->
  file_of env (data m) arrkey w = (Exn e, w') ->
  attribute_or_value_error e = true ->
  exists m', _get_file_handle env warn_arg m = (Val None, m') /\
    trace m' = trace m ++ [ReadData; Ev OpGraphKeys Done; ReadData;
                           Ev OpFileOf (Failed e)]
                       ++ (if warn_arg then [Warning] else []) /\
    data m' = data m.
Proof.
  intros Hk Hf He Hcatch.
  unfold _get_file_handle, try_except, when, call, call_with, bind,
    read_data, warn, log, set_world, raise, ret.
  simpl. rewrite Hk. simpl. rewrite Hf. simpl. rewrite He. simpl.
  rewrite Hcatch.
  destruct warn_arg; simpl; eexists; (split; [reflexivity|]); simpl;
    rewrite <- ?app_assoc; auto.
Qed.

(** *** A failed [da.compute()] *)

Let calm : machine W -> machine W -> Prop :=
  both (emits (avoids [OpClose; OpCompute])) (both same_data same_lazy).

Lemma calm_intro {A} (c : M W A) :
  stable (emits (avoids [OpClose; OpCompute])) c ->
  stable same_data c -> stable same_lazy c -> stable calm c.
Proof. intros H1 H2 H3. repeat apply stable_both; assumption. Qed.

Lemma deprecated_keyword_calm (show_progressbar : option bool)
      (kw_progressbar : option (option bool)) :
  stable calm
    (match kw_progressbar with
     | Some v => bind warn (fun _ => ret v)
     | None => ret show_progressbar
     end).
Proof.
  unfold warn. apply calm_intro.
  - emits_auto W (avoids [OpClose; OpCompute]).
  - same_data_auto W.
  - same_lazy_auto W.
Qed.

Lemma preference_calm (show_progressbar : option bool) :
  stable calm
    (match show_progressbar with
     | None => bind get_world (fun w => ret (pref_show_progressbar env w))
     | Some b => ret b
     end).
Proof.
  apply calm_intro.
  - emits_auto W (avoids [OpClose; OpCompute]).
  - same_data_auto W.
  - same_lazy_auto W.
Qed.

Lemma call_calm {A} (o : op) (f : W -> result A * W) :
  o <> OpClose -> o <> OpCompute -> stable calm (call o f).
Proof.
  intros H1 H2. unfold call. apply calm_intro.
  - apply emits_call_with. intros s [E|[E|[]]]; congruence.
  - apply same_data_call_with.
  - apply same_lazy_call_with.
Qed.

Lemma close_file_no_compute :
  stable (emits (avoids [OpCompute])) (close_file env).
Proof.
  unfold close_file, _get_file_handle, call, warn.
  emits_auto W (avoids [OpCompute]).
Qed.

(** What a run of [compute] from [m] to [m'] with result [r] shows of a
    failed [da.compute()]. *)
Let lazy_on_failure (m : machine W) (r : result unit) (m' : machine W)
  : Prop :=
  exists t, trace m' = trace m ++ t /\
    forall e, In (Ev OpCompute (Failed e)) t ->
      (exists e', r = Exn e') /\ data m' = data m /\ _lazy m' = _lazy m /\
      Forall not_close t.

Lemma avoids_not_failed (ops : list op) (t : list event) (e : exn) :
  In OpCompute ops -> Forall (avoids ops) t ->
  ~ In (Ev OpCompute (Failed e)) t.
Proof.
  intros Hin Hall Hev. rewrite Forall_forall in Hall.
  apply (Hall _ Hev). exact Hin.
Qed.

Lemma avoids_not_close (ops : list op) (t : list event) :
  In OpClose ops -> Forall (avoids ops) t -> Forall not_close t.
Proof.
  intros Hin Hall. eapply Forall_impl; [|exact Hall].
  intros [o s| | |] Ha; try exact I.
  destruct o; try exact I. exact (Ha Hin).
Qed.

Lemma lazy_on_failure_calm m r m' : calm m m' -> lazy_on_failure m r m'.
Proof.
  intros [(t & Ht & Hall) _]. exists t. split; [assumption|].
  intros e He. exfalso.
  apply (avoids_not_failed (ops := [OpClose; OpCompute]) e) in Hall;
    [tauto|simpl; auto].
Qed.

Lemma lazy_on_failure_after m m1 r m' :
  calm m m1 -> lazy_on_failure m1 r m' -> lazy_on_failure m r m'.
Proof.
  intros [(t1 & Ht1 & Hall) [Hd Hl]] (t & Ht & Hfail).
  exists (t1 ++ t). rewrite Ht, Ht1, app_assoc. split; [reflexivity|].
  intros e He. apply in_app_or in He. destruct He as [He|He].
  - exfalso.
    apply (avoids_not_failed (ops := [OpClose; OpCompute]) e) in Hall;
      [tauto|simpl; auto].
  - destruct (Hfail e He) as (Hr & Hd' & Hl' & Hnc).
    split; [assumption|]. unfold same_data, same_lazy in *.
    split; [congruence|]. split; [congruence|].
    apply Forall_app. split; [|assumption].
    apply (avoids_not_close (ops := [OpClose; OpCompute]));
      [simpl; auto|assumption].
Qed.

(** If [da.compute()] raises, [compute] raises, no file is closed, and the
    signal is left as it was: [self.data] is still the array it held at
    entry and [_lazy] is unchanged. *)
Theorem compute_failure_leaves_signal_lazy
        (close_file_arg : bool) (show_progressbar : option bool)
        (kw_progressbar : option (option bool)) (m : machine W)
        (r : result unit) (m' : machine W) :
  compute env close_file_arg show_progressbar kw_progressbar m = (r, m') ->
  exists t, trace m' = trace m ++ t /\
    forall e, In (Ev OpCompute (Failed e)) t ->
      (exists e', r = Exn e') /\ data m' = data m /\ _lazy m' = _lazy m /\
      Forall not_close t.
Proof.
  intros H. change (lazy_on_failure m r m'). unfold compute in H.
  pose proof (deprecated_keyword_calm show_progressbar kw_progressbar)
    as Hkw.
  apply bind_inv in H. destruct H as [(e & H & ->)|(s1 & m1 & H1 & H)].
  { apply lazy_on_failure_calm. exact (Hkw _ _ _ H). }
  apply lazy_on_failure_after with m1; [exact (Hkw _ _ _ H1)|clear H1 Hkw].
  pose proof (preference_calm s1) as Hpref.
  apply bind_inv in H. destruct H as [(e & H & ->)|(s2 & m2 & H2 & H)].
  { apply lazy_on_failure_calm. exact (Hpref _ _ _ H). }
  apply lazy_on_failure_after with m2;
    [exact (Hpref _ _ _ H2)|clear H2 Hpref].
  assert (Henter : stable calm (call OpCmEnter (cm_enter env s2)))
    by (apply call_calm; discriminate).
  apply bind_inv in H. destruct H as [(e & H & ->)|(u3 & m3 & H3 & H)].
  { apply lazy_on_failure_calm. exact (Henter _ _ _ H). }
  apply lazy_on_failure_after with m3;
    [exact (Henter _ _ _ H3)|clear H3 Henter].
  assert (Hexit : stable calm (call OpCmExit (cm_exit env s2)))
    by (apply call_calm; discriminate).
  assert (Hsub : stable calm (call OpAssignSubclass (assign_subclass env)))
    by (apply call_calm; discriminate).
  assert (Hclose : stable (emits (avoids [OpCompute]))
                          (when close_file_arg (close_file env)))
    by (apply stable_when; [apply emits_refl|apply close_file_no_compute]).
  (* the body of the [with] statement *)
  assert (Hbody : forall rb mb,
    bind read_data
      (fun da =>
         bind (call_with OpCompute DoneRef (da_compute env da))
           (fun data =>
              bind (when close_file_arg (close_file env))
                   (fun _ => write_data data))) m3 = (rb, mb) ->
    exists t, trace mb = trace m3 ++ t /\
      ((forall e, ~ In (Ev OpCompute (Failed e)) t) \/
       ((exists e', rb = Exn e') /\ data mb = data m3 /\
        _lazy mb = _lazy m3 /\ Forall not_close t))).
  { intros rb mb Hb.
    unfold bind at 1 2 in Hb. unfold read_data, call_with, bind at 1 2 3 4 in Hb.
    simpl in Hb.
    destruct (da_compute env (data m3) (world m3)) as [[d|e] w]; simpl in Hb.
    - apply bind_inv in Hb.
      destruct Hb as [(e & Hb & ->)|(u & m4 & Hb4 & Hb)].
      + destruct (Hclose _ _ _ Hb) as (t & Ht & Hall). simpl in Ht.
        exists ([ReadData; Ev OpCompute (DoneRef d)] ++ t).
        rewrite Ht, <- !app_assoc. split; [reflexivity|]. left.
        intros e' He. simpl in He.
        destruct He as [He|[He|He]]; try discriminate.
        eapply avoids_not_failed; [|exact Hall|exact He]. simpl; auto.
      + destruct (Hclose _ _ _ Hb4) as (t & Ht & Hall). simpl in Ht.
        injection Hb as <- <-. simpl.
        exists ([ReadData; Ev OpCompute (DoneRef d)] ++ t ++ [WriteData d]).
        rewrite Ht, <- !app_assoc. split; [reflexivity|]. left.
        intros e' He. simpl in He.
        destruct He as [He|[He|He]]; try discriminate.
        apply in_app_or in He. destruct He as [He|[He|[]]];
          [|discriminate].
        eapply avoids_not_failed; [|exact Hall|exact He]. simpl; auto.
    - injection Hb as <- <-. simpl.
      exists [ReadData; Ev OpCompute (Failed e)].
      rewrite <- app_assoc. split; [reflexivity|]. right.
      split; [eexists; reflexivity|]. repeat split.
      repeat constructor. }
  apply bind_inv in H. destruct H as [(e & H & ->)|(u4 & m4 & H4 & H)].
  - apply try_finally_inv in H.
    destruct H as (rb & mb & rc & Hb & Hc & _).
    destruct (Hbody _ _ Hb) as (t & Ht & Hcase).
    destruct (Hexit _ _ _ Hc) as [(t' & Ht' & Hall') [Hd' Hl']].
    exists (t ++ t'). rewrite Ht', Ht, app_assoc. split; [reflexivity|].
    intros e' He. apply in_app_or in He.
    assert (Hno : ~ In (Ev OpCompute (Failed e')) t')
      by (eapply avoids_not_failed; [|exact Hall']; simpl; auto).
    destruct Hcase as [Hnone|(_ & Hd & Hl & Hnc)].
    + exfalso. destruct He as [He|He]; [exact (Hnone _ He)|tauto].
    + split; [eexists; reflexivity|].
      unfold same_data, same_lazy in *.
      split; [congruence|]. split; [congruence|].
      apply Forall_app. split; [assumption|].
      apply (avoids_not_close (ops := [OpClose; OpCompute]));
        [simpl; auto|assumption].
  - apply try_finally_inv in H4.
    destruct H4 as (rb & mb & rc & Hb & Hc & Hr).
    destruct (Hbody _ _ Hb) as (t & Ht & Hcase).
    destruct (Hexit _ _ _ Hc) as [(t' & Ht' & Hall') _].
    destruct rc as [uc|ec]; [subst rb|discriminate].
    destruct Hcase as [Hnone|((e' & He') & _)]; [|discriminate].
    apply bind_inv in H. destruct H as [(e & H & _)|(u5 & m5 & H5 & H)];
      [discriminate|].
    injection H5 as _ <-.
    destruct (Hsub _ _ _ H) as [(t'' & Ht'' & Hall'') _]. simpl in Ht''.
    exists (t ++ t' ++ t''). rewrite Ht'', Ht', Ht, <- !app_assoc.
    split; [reflexivity|]. intros e He. exfalso.
    apply in_app_or in He. destruct He as [He|He]; [exact (Hnone _ He)|].
    apply in_app_or in He. destruct He as [He|He].
    + eapply avoids_not_failed; [|exact Hall'|exact He]. simpl; auto.
    + eapply avoids_not_failed; [|exact Hall''|exact He]. simpl; auto.
Qed.

End ComputeMore.

(** Collaborators whose [da.compute()] fails. *)
Example compute_failure_run :
  Effects.run
    (Materialise.compute Materialise.out_of_memory true None None)
    (Materialise.lazy_machine 3 10)
  = (Effects.Exn (OtherError 7), Materialise.failed_machine).
Proof. reflexivity. Qed.

Lemma close_file_without_handle_witness :
  exists m',
    Materialise.close_file Materialise.out_of_memory
      (Materialise.lazy_machine 3 10) = (Effects.Val tt, m') /\
    Effects.trace m'
    = Effects.trace (Materialise.lazy_machine 3 10)
      ++ [Effects.ReadData; Effects.Ev Effects.OpGraphKeys Effects.Done;
          Effects.Warning] /\
    Effects.data m' = Effects.data (Materialise.lazy_machine 3 10) /\
    Effects.world m' = 10%nat.
Proof.
  apply (@close_file_without_handle nat Materialise.out_of_memory
           (Materialise.lazy_machine 3 10)
           ["getitem-77"; "rechunk-merge-5"]%string 10%nat);
    reflexivity.
Defined.

Lemma get_file_handle_tolerates_failed_lookup_witness :
  exists m',
    Materialise._get_file_handle Materialise.closed_file true
      (Materialise.lazy_machine 3 10) = (Effects.Val None, m') /\
    Effects.trace m'
    = Effects.trace (Materialise.lazy_machine 3 10)
      ++ [Effects.ReadData; Effects.Ev Effects.OpGraphKeys Effects.Done;
          Effects.ReadData;
          Effects.Ev Effects.OpFileOf (Effects.Failed ValueError)]
      ++ [Effects.Warning] /\
    Effects.data m' = Effects.data (Materialise.lazy_machine 3 10).
Proof.
  apply (@get_file_handle_tolerates_failed_lookup nat Materialise.closed_file
           true (Materialise.lazy_machine 3 10)
           ["getitem-77"; "array-original-1f0e"]%string 10%nat 10%nat
           "array-original-1f0e"%string ValueError);
    reflexivity.
Defined.

Lemma compute_failure_leaves_signal_lazy_witness :
  exists t,
    Effects.trace Materialise.failed_machine
    = Effects.trace (Materialise.lazy_machine 3 10) ++ t /\
    forall e,
      In (Effects.Ev Effects.OpCompute (Effects.Failed e)) t ->
      (exists e', Effects.Exn (OtherError 7) = Effects.Exn (A := unit) e') /\
      Effects.data Materialise.failed_machine
      = Effects.data (Materialise.lazy_machine 3 10) /\
      Effects._lazy Materialise.failed_machine
      = Effects._lazy (Materialise.lazy_machine 3 10) /\
      Forall Observations.not_close t.
Proof.
  apply (@compute_failure_leaves_signal_lazy nat Materialise.out_of_memory
           true None None (Materialise.lazy_machine 3 10)
           (Effects.Exn (OtherError 7)) Materialise.failed_machine).
  reflexivity.
Defined.

(** ** 5. [_map_iterate] *)

Section MapIterateFacts.
Import Effects Observations BlockwiseMap.
Variable W : Type.
Variable env : collaborators W.

Local Abbreviation stable := (@Observations.stable W _).

(** [ragged=True] with [inplace=True] is refused with a [ValueError]
    before anything is done: the data is neither read nor rechunked, no
    collaborator is called, and the signal is as it was. *)
Theorem map_iterate_ragged_inplace_refused (a : arguments) (m : machine W) :
  ragged a = true -> inplace a = true ->
  _map_iterate env a m = (Exn ValueError, m).
Proof.
  intros Hr Hi. unfold _map_iterate, bind, get_world.
  rewrite Hr, Hi. reflexivity.
Qed.

(** The loop over the iterating keyword arguments, when [self] is not one
    of them. *)
Lemma stable_prepare_kwargs (R : machine W -> machine W -> Prop)
      (old_sig : signal_object) (nav_chunks : list (list Z))
      (kw : list (string * iterated)) :
  (forall m, R m m) ->
  (forall m1 m2 m3, R m1 m2 -> R m2 m3 -> R m1 m3) ->
  (forall k, stable R (call OpPrepareKwarg
                            (prepare_kwarg env old_sig nav_chunks k))) ->
  Forall (fun kv => snd kv <> Itself) kw ->
  stable R (prepare_kwargs env old_sig nav_chunks kw).
Proof.
  intros Hrefl Htrans Hk. induction 1 as [|[key v] kw Hv _ IH]; simpl.
  - apply (stable_ret _ Hrefl).
  - apply (stable_bind Htrans).
    + destruct v as [|h]; [simpl in Hv; congruence|apply Hk].
    + intros x. apply (stable_bind Htrans); [apply IH|intros xs].
      apply (stable_ret _ Hrefl).
Qed.

(** With [inplace=False], and [self] not among the iterating keyword
    arguments, [_map_iterate] never assigns [self.data]: on every exit,
    normal or not, it is the array the signal had at entry (the
    rechunking, when needed, is done on a copy). *)
Theorem map_iterate_copy_leaves_data (a : arguments) (m : machine W)
        (r : result signal_object) (m' : machine W) :
  inplace a = false ->
  Forall (fun kv => snd kv <> Itself) (iterating_kwargs a) ->
  _map_iterate env a m = (r, m') ->
  data m' = data m.
Proof.
  intros Hi Hkw. revert m r m'.
  change (stable same_data (_map_iterate env a)).
  unfold _map_iterate, rechunk, _get_navigation_chunk_size, data_of, call.
  rewrite Hi.
  stable_with (@same_data_refl W) (@same_data_trans W)
    ltac:(first [ same_data_step
                | apply stable_prepare_kwargs;
                  [ apply same_data_refl | apply same_data_trans
                  | intros; apply same_data_call_with
                  | exact Hkw ] ]).
Qed.


(** *** [inplace=True] *)

Lemma prepare_kwargs_extends (old_sig : signal_object)
      (nav_chunks : list (list Z)) (kw : list (string * iterated)) :
  stable (emits anything) (prepare_kwargs env old_sig nav_chunks kw).
Proof.
  induction kw as [|[key v] kw IH]; simpl.
  - apply stable_ret, emits_refl.
  - apply (stable_bind (@emits_trans W anything)).
    + destruct v as [|h];
        unfold prepare_itself, rechunk, _get_navigation_chunk_size,
          data_of, call;
        emits_auto W anything.
    + intros x. apply (stable_bind (@emits_trans W anything));
        [apply IH|intros xs]. apply stable_ret, emits_refl.
Qed.

(** With [inplace=True], the signal [_map_iterate] returns is [self]. *)
Lemma map_iterate_inplace_returns_self (a : arguments) :
  inplace a = true ->
  returns_only (fun s => s = Self) (_map_iterate env a).
Proof.
  intros Hi. unfold _map_iterate. rewrite Hi.
  repeat first
    [ apply returns_only_bind; intros ?
    | apply returns_only_raise
    | apply returns_only_ret; reflexivity
    | match goal with
      | |- returns_only _ (match ?x with _ => _ end) => destruct x
      end
    | progress cbv beta iota zeta ].
Qed.

(** What a run from [m] to [m'] with result [r] shows when it returns: the
    array that [map_blocks] returned was assigned to [self.data], and is
    still there. *)
Let installs_mapped (m : machine W) (r : result signal_object)
    (m' : machine W) : Prop :=
  forall s, r = Val s ->
    exists d t1 t2,
      trace m' = trace m ++ t1
                 ++ [Ev OpMapBlocks (DoneRef d); WriteData d] ++ t2 /\
      Forall off_data t2 /\ data m' = d.

Lemma installs_mapped_after m m1 r m' :
  emits anything m m1 -> installs_mapped m1 r m' -> installs_mapped m r m'.
Proof.
  intros (t & Ht & _) H s Hs.
  destruct (H s Hs) as (d & t1 & t2 & Htr & Hoff & Hd).
  exists d, (t ++ t1), t2. rewrite Htr, Ht, <- !app_assoc. auto.
Qed.

Lemma installs_mapped_raised m e m' :
  emits anything m m' -> installs_mapped m (Exn e) m'.
Proof. intros _ s Hs. discriminate. Qed.


End MapIterateFacts.

Lemma map_iterate_ragged_inplace_refused_witness :
  BlockwiseMap._map_iterate BlockwiseMap.plain
    {| BlockwiseMap.iterating_kwargs := [];
       BlockwiseMap.ragged := true; BlockwiseMap.inplace := true;
       BlockwiseMap.output_signal_size := None;
       BlockwiseMap.output_dtype := None |}
    (BlockwiseMap.signal_machine 3 10)
  = (Effects.Exn ValueError, BlockwiseMap.signal_machine 3 10).
Proof.
  apply (@map_iterate_ragged_inplace_refused nat BlockwiseMap.plain);
    reflexivity.
Defined.

(** Passing the signal itself as an iterating keyword argument rechunks
    it in place, also with [inplace=False], when the map works on a
    rechunked copy whose navigation chunks differ. *)
Example map_iterate_copy_aliasing :
  Effects.data
    (snd (BlockwiseMap._map_iterate BlockwiseMap.split_signal
            BlockwiseMap.aliased_arguments
            (BlockwiseMap.signal_machine 3 10)))
  = 11%nat.
Proof. reflexivity. Qed.

Lemma map_iterate_copy_leaves_data_witness :
  Effects.data
    (snd (BlockwiseMap._map_iterate BlockwiseMap.plain
            BlockwiseMap.copy_arguments (BlockwiseMap.signal_machine 3 10)))
  = Effects.data (BlockwiseMap.signal_machine 3 10).
Proof.
  apply (@map_iterate_copy_leaves_data nat BlockwiseMap.plain
           BlockwiseMap.copy_arguments (BlockwiseMap.signal_machine 3 10)
           (fst (BlockwiseMap._map_iterate BlockwiseMap.plain
                   BlockwiseMap.copy_arguments
                   (BlockwiseMap.signal_machine 3 10)))
           _ eq_refl).
  - repeat constructor; discriminate.
  - apply surjective_pairing.
Defined.



(** ** 4. [decomposition] *)

(** *** The batch geometry *)

Section BatchGeometry.
Import Effects Decomposition.
Local Open Scope Z_scope.

Lemma Qlt_bool_true (x y : Q) : Qlt_bool x y = true -> (x < y)%Q.
Proof.
  unfold Qlt_bool. rewrite negb_true_iff. intros H.
  apply Qnot_le_lt. intros Hle. apply Qle_bool_iff in Hle. congruence.
Qed.

Lemma Qlt_bool_false (x y : Q) : Qlt_bool x y = false -> (y <= x)%Q.
Proof.
  unfold Qlt_bool. rewrite negb_false_iff. apply Qle_bool_iff.
Qed.

Lemma inject_Z_positive (d : Z) : 0 < d -> (0 < inject_Z d)%Q.
Proof. intros H. unfold Qlt. simpl. lia. Qed.

Lemma ratio_at_least_one (b d : Z) :
  0 < d -> d <= b -> (inject_Z 1 <= ratio b d)%Q.
Proof.
  intros Hd Hb. unfold ratio.
  apply Qle_shift_div_l.
  - apply inject_Z_positive. assumption.
  - rewrite <- inject_Z_mult, <- Zle_Qle. lia.
Qed.

Lemma ratio_positive (b d : Z) : 0 < d -> 0 < b -> (0 < ratio b d)%Q.
Proof.
  intros Hd Hb. unfold ratio. apply Qlt_shift_div_l.
  - apply inject_Z_positive. assumption.
  - rewrite Qmult_0_l. apply inject_Z_positive. assumption.
Qed.

Lemma ratio_below_one (b d : Z) :
  0 < d -> b < d -> (ratio b d < inject_Z 1)%Q.
Proof.
  intros Hd Hb. unfold ratio. apply Qlt_shift_div_r.
  - apply inject_Z_positive. assumption.
  - rewrite <- inject_Z_mult, <- Zlt_Qlt. lia.
Qed.

(** The adjustment never raises [num_chunks]: it leaves it alone or lowers
    it to [ceil (blocksize / output_dimension)]. *)
Theorem adjust_num_chunks_never_raises
        (blocksize : Z) (output_dimension : option Z) (num_chunks : Z) :
  adjust_num_chunks blocksize output_dimension num_chunks <= num_chunks.
Proof.
  unfold adjust_num_chunks. destruct output_dimension as [d|]; [|lia].
  destruct (negb (d =? 0)); simpl; [|lia].
  destruct (Qlt_bool (ratio blocksize d) (inject_Z num_chunks)) eqn:E; [|lia].
  apply Qlt_bool_true, Qlt_le_weak, Qceiling_resp_le in E.
  rewrite Qceiling_Z in E. exact E.
Qed.

(** For a positive block size and output dimension, with at least one
    chunk per batch asked for, a batch holds [output_dimension] samples or
    more exactly when one block already does: the adjustment never makes
    up for blocks that are smaller than [output_dimension]. *)
Theorem batch_reaches_output_dimension_iff
        (blocksize d : Z) (num_chunks : option Z) :
  0 < blocksize -> 0 < d ->
  match num_chunks with Some n => 1 <= n | None => True end ->
  d <= snd (batch_geometry blocksize (Some d) num_chunks) <-> d <= blocksize.
Proof.
  intros Hb Hd Hn. unfold batch_geometry, adjust_num_chunks. simpl.
  set (n := match num_chunks with Some n => n | None => 1 end).
  assert (Hn1 : 1 <= n) by (unfold n; destruct num_chunks; lia).
  destruct (Z.eqb_spec d 0) as [|_]; [lia|]. simpl.
  destruct (Qlt_bool (ratio blocksize d) (inject_Z n)) eqn:E.
  - destruct (Z_lt_le_dec blocksize d) as [Hlt|Hge].
    + (* one block is too small: the batch is one block *)
      assert (Hc : Qceiling (ratio blocksize d) = 1).
      { pose proof (ratio_below_one Hd Hlt) as Hup.
        apply Qlt_le_weak, Qceiling_resp_le in Hup.
        rewrite Qceiling_Z in Hup.
        pose proof (Qle_ceiling (ratio blocksize d)) as Hlow.
        pose proof (ratio_positive Hd Hb) as Hpos.
        assert (0 < Qceiling (ratio blocksize d)); [|lia].
        rewrite Zlt_Qlt. eapply Qlt_le_trans; [exact Hpos|exact Hlow]. }
      rewrite Hc. lia.
    + pose proof (ratio_at_least_one Hd Hge) as Hlow.
      apply Qceiling_resp_le in Hlow. rewrite Qceiling_Z in Hlow.
      split; intros _; [exact Hge|nia].
  - (* [num_chunks <= blocksize / output_dimension]: it is left alone *)
    assert (Hge : d <= blocksize).
    { destruct (Z_lt_le_dec blocksize d) as [Hlt|]; [exfalso|assumption].
      apply Qlt_bool_false in E.
      pose proof (ratio_below_one Hd Hlt) as Hup.
      apply (Qlt_irrefl (ratio blocksize d)).
      eapply Qlt_le_trans; [exact Hup|].
      eapply Qle_trans; [|exact E]. rewrite <- Zle_Qle. exact Hn1. }
    split; intros _; [exact Hge|nia].
Qed.

Lemma batch_reaches_output_dimension_iff_witness :
  5 <= snd (batch_geometry 2 (Some 5) None) <-> 5 <= 2.
Proof.
  apply (@batch_reaches_output_dimension_iff 2 5 None); [lia|lia|exact I].
Defined.

(** With blocks of two samples and five components asked for, a batch is
    one block of two samples. *)
Example batch_smaller_than_output_dimension :
  batch_geometry 2 (Some 5) None = (1, 2).
Proof. reflexivity. Qed.

(** *** Blocks *)

Lemma length_product {A} (ls : list (list A)) :
  Z.of_nat (length (product ls))
  = ChunkPlanner.multiply (map (fun l => Z.of_nat (length l)) ls).
Proof.
  induction ls as [|l ls IH]; [reflexivity|].
  cbn [map product]. rewrite multiply_cons, <- IH.
  induction l as [|x l IHl]; [simpl; lia|].
  cbn [flat_map]. rewrite length_app, length_map.
  cbn [length]. lia.
Qed.

(** The total announced to the progress bar, [nblocks], is the number of
    blocks that the block iterator goes through for the same navigation
    chunks. *)
Theorem nblocks_counts_block_indices (nav_chunks : list (list Z)) :
  Z.of_nat (length (block_indices nav_chunks))
  = ChunkPlanner.multiply (map (fun c => Z.of_nat (length c)) nav_chunks).
Proof.
  unfold block_indices. rewrite length_product, map_map.
  f_equal. apply map_ext. intros c. rewrite length_seq. reflexivity.
Qed.

Lemma fold_min_le (l : list Z) : forall x,
  fold_left Z.min l x <= x /\
  (forall y, In y l -> fold_left Z.min l x <= y) /\
  (fold_left Z.min l x = x \/ In (fold_left Z.min l x) l).
Proof.
  induction l as [|a l IH]; intros x; simpl.
  - split; [lia|]. split; [tauto|auto].
  - destruct (IH (Z.min x a)) as (H1 & H2 & H3).
    split; [lia|]. split.
    + intros y [<-|Hy]; [lia|auto].
    + destruct H3 as [H3|H3]; [|auto].
      rewrite H3. destruct (Z.min_spec x a) as [[_ ->]|[_ ->]]; auto.
Qed.

(** [blocksize] is the number of navigation positions of the smallest
    block: no block is smaller, and some block has exactly that many.  It
    is undefined ([np.min] raises [ValueError]) exactly when there is no
    block at all. *)
Theorem min_blocksize_is_smallest_block (nav_chunks : list (list Z)) :
  match min_blocksize nav_chunks with
  | Val b =>
      (forall ar, In ar (product nav_chunks) ->
                  b <= ChunkPlanner.multiply ar) /\
      (exists ar, In ar (product nav_chunks) /\
                  b = ChunkPlanner.multiply ar)
  | Exn e => e = ValueError /\ product nav_chunks = []
  end.
Proof.
  unfold min_blocksize, np_min.
  destruct (product nav_chunks) as [|ar0 rest]; simpl; [auto|].
  destruct (fold_min_le (map ChunkPlanner.multiply rest)
                        (ChunkPlanner.multiply ar0)) as (H1 & H2 & H3).
  split.
  - intros ar [<-|Har]; [assumption|]. apply H2, in_map, Har.
  - destruct H3 as [H3|H3].
    + exists ar0. auto.
    + apply in_map_iff in H3. destruct H3 as (ar & E & Har).
      exists ar. auto.
Qed.

End BatchGeometry.

(** *** Runs of [decomposition] *)

Section DecompositionFacts.
Import Effects Observations Decomposition.
Local Open Scope string_scope.
Variable W : Type.
Variable env : collaborators W.

Local Abbreviation stable := (@Observations.stable W _).

Lemma stable_for_fold {X S} (R : machine W -> machine W -> Prop)
      (l : list X) (body : X -> S -> M W S) :
  (forall m, R m m) ->
  (forall m1 m2 m3, R m1 m2 -> R m2 m3 -> R m1 m3) ->
  (forall x s, stable R (body x s)) ->
  forall s, stable R (for_fold l s body).
Proof.
  intros Hrefl Htrans Hb. induction l as [|x l IH]; intros s; simpl.
  - apply (stable_ret _ Hrefl).
  - apply (stable_bind Htrans); [apply Hb|intros s'; apply IH].
Qed.

(** Follows the helpers of [decomposition] that are sequences of calls
    into collaborators. *)
Ltac unfold_helpers :=
  unfold prelude, commit, stream_learn, reproject_blocks, iterate_blocks,
    normalise, mask_or_zeros, to_array, lift, unbound, warn, call.

Ltac helpers_emit P :=
  unfold_helpers;
  stable_with (@emits_refl W P) (@emits_trans W P)
    ltac:(first [ emits_step
                | apply stable_for_fold;
                  [ apply emits_refl | apply emits_trans | intros ? ? ] ]).

Ltac helpers_keep refl trans step :=
  unfold_helpers;
  stable_with refl trans
    ltac:(first [ step
                | apply stable_for_fold; [ apply refl | apply trans
                                         | intros ? ? ] ]).

(** *** [self.data] is restored *)

Lemma prelude_same_data (a : arguments) : stable same_data (prelude env a).
Proof.
  helpers_keep (@same_data_refl W) (@same_data_trans W) same_data_step.
Qed.

Lemma commit_same_data (a : arguments) (c : context) (l : learnt) :
  stable same_data (commit env a c l).
Proof.
  helpers_keep (@same_data_refl W) (@same_data_trans W) same_data_step.
Qed.

(** On every exit from [decomposition], by return or by exception,
    [self.data] is the array it was at entry: whatever the learning left
    there (the array scaled for Poissonian noise, the unfolded array, the
    array rechunked by the block iterator) is replaced by the original in
    the [finally] clause, and nothing before or after assigns it. *)
Theorem decomposition_restores_data (a : arguments) (m : machine W)
        (r : result unit) (m' : machine W) :
  decomposition env a m = (r, m') -> data m' = data m.
Proof.
  intros H. unfold decomposition in H.
  apply bind_inv in H. destruct H as [(e & H & _)|(c & m1 & H1 & H)].
  { apply prelude_same_data in H. exact H. }
  apply prelude_same_data in H1.
  apply bind_inv in H. rewrite read_data_eq in H.
  destruct H as [(e & H & _)|(orig & m2 & H2 & H)]; [discriminate|].
  injection H2 as <- <-.
  assert (Hfinally : forall rl ml,
    try_finally (learn env a c) (write_data (data m1))
      {| data := data m1; _lazy := _lazy m1;
         _unfolded4decomposition := _unfolded4decomposition m1;
         results := results m1; world := world m1;
         trace := (trace m1 ++ [ReadData])%list |} = (rl, ml) ->
    data ml = data m1).
  { intros rl ml Hl. apply try_finally_inv in Hl.
    destruct Hl as (rb & mb & rc & _ & Hc & _).
    rewrite write_data_eq in Hc. injection Hc as _ <-. reflexivity. }
  apply bind_inv in H. destruct H as [(e & H & _)|(l & m3 & H3 & H)].
  - apply Hfinally in H. unfold same_data in H1. congruence.
  - apply Hfinally in H3. apply commit_same_data in H.
    unfold same_data in *. congruence.
Qed.

(** *** Algorithms that need [output_dimension] *)

(** With [algorithm] one of "PCA", "ORPCA", "ORNMF" or the deprecated
    alias "ONMF", and [output_dimension] left at [None], [decomposition]
    raises [ValueError] at once: the data is not read, no collaborator is
    called, and nothing of the signal changes; only the deprecation
    warnings are issued. *)
Theorem decomposition_requires_output_dimension
        (a : arguments) (m : machine W) :
  In (algorithm a) ["PCA"; "ORPCA"; "ORNMF"; "ONMF"] ->
  output_dimension a = None ->
  exists m' t,
    decomposition env a m = (Exn ValueError, m') /\
    trace m' = (trace m ++ t)%list /\ Forall (fun e => e = Warning) t /\
    data m' = data m /\ world m' = world m /\ results m' = results m /\
    _unfolded4decomposition m' = _unfolded4decomposition m.
Proof.
  intros Halg Hdim.
  unfold decomposition, prelude, when, warn, bind, log, ret, raise.
  rewrite Hdim.
  simpl in Halg.
  destruct Halg as [<-|[<-|[<-|[<-|[]]]]]; destruct (kw_bounds a); simpl;
    eexists; eexists; (split; [reflexivity|]); simpl;
    rewrite <- ?app_assoc;
    (split; [simpl; reflexivity || (rewrite app_nil_r; reflexivity)
            |repeat split; repeat constructor]).
Qed.

(** *** What the prelude hands over *)

Lemma prelude_returns (a : arguments) (m : machine W) (c : context)
      (m' : machine W) :
  prelude env a m = (Val c, m') ->
  ctx_algorithm c
  = (if algorithm a =? "ONMF" then "ORNMF" else algorithm a) /\
  (ctx_algorithm c = "SVD" -> obj c = None) /\
  In (ctx_algorithm c) ["SVD"; "PCA"; "ORPCA"; "ORNMF"].
Proof.
  unfold prelude. intros H.
  apply bind_inv in H.
  destruct H as [(e & _ & He)|(u & m1 & _ & H)]; [discriminate|].
  apply bind_inv in H.
  destruct H as [(e & _ & He)|(alg & m2 & Halg & H)]; [discriminate|].
  assert (Ealg : alg = if algorithm a =? "ONMF" then "ORNMF"
                       else algorithm a).
  { destruct (algorithm a =? "ONMF").
    - unfold bind, warn, log, ret in Halg. injection Halg as <- _.
      reflexivity.
    - injection Halg as <- _. reflexivity. }
  rewrite <- Ealg. clear Halg Ealg.
  destruct (requires_dimension alg && is_none (output_dimension a));
    [discriminate|].
  repeat (apply bind_inv in H;
          destruct H as [(e & _ & He)|(? & ? & _ & H)]; [discriminate|]).
  cbv zeta in H.
  destruct (String.eqb_spec alg "PCA") as [->|Hpca].
  - apply bind_inv in H.
    destruct H as [(e & _ & He)|(? & ? & _ & H)]; [discriminate|].
    destruct (negb (sklearn_installed env _)); [discriminate|].
    apply bind_inv in H.
    destruct H as [(e & _ & He)|(? & ? & _ & H)]; [discriminate|].
    injection H as <- _. simpl.
    split; [reflexivity|]. split; [discriminate|auto].
  - destruct ((alg =? "ORPCA") || (alg =? "ORNMF")) eqn:E2.
    + apply bind_inv in H.
      destruct H as [(e & _ & He)|(? & ? & _ & H)]; [discriminate|].
      injection H as <- _. simpl.
      apply orb_true_iff in E2.
      destruct E2 as [E2|E2]; apply String.eqb_eq in E2; subst alg;
        (split; [reflexivity|]); (split; [discriminate|]); simpl; auto.
    + destruct (String.eqb_spec alg "SVD") as [->|Hsvd]; simpl in H;
        [|discriminate].
      injection H as <- _. simpl. auto.
Qed.

(** *** An algorithm that is not known *)

(** With an [algorithm] that is none of "SVD", "PCA", "ORPCA", "ORNMF" and
    "ONMF", [decomposition] raises before anything is learnt: it only
    reads [self.data] to look at its chunks, creates no estimator, and
    leaves the data and the learning results as they were.  The exception
    is the [ValueError] of the check, unless looking at the data already
    raised. *)
Theorem decomposition_unknown_algorithm
        (a : arguments) (m : machine W) (r : result unit) (m' : machine W) :
  ~ In (algorithm a) ["SVD"; "PCA"; "ORPCA"; "ORNMF"; "ONMF"] ->
  decomposition env a m = (r, m') ->
  exists t,
    trace m' = (trace m ++ t)%list /\
    Forall (fun e => e = Warning \/ e = ReadData \/ calls OpAligned e) t /\
    (r = Exn ValueError \/
     exists e, r = Exn e /\ In (Ev OpAligned (Failed e)) t) /\
    data m' = data m /\ results m' = results m.
Proof.
  intros Hunknown H.
  assert (Hne : forall s, In s ["SVD"; "PCA"; "ORPCA"; "ORNMF"; "ONMF"] ->
                          (algorithm a =? s) = false).
  { intros s Hs. apply String.eqb_neq. intros E. apply Hunknown.
    rewrite E. exact Hs. }
  pose proof (Hne "SVD" ltac:(simpl; auto 6)) as E1.
  pose proof (Hne "PCA" ltac:(simpl; auto 6)) as E2.
  pose proof (Hne "ORPCA" ltac:(simpl; auto 6)) as E3.
  pose proof (Hne "ORNMF" ltac:(simpl; auto 6)) as E4.
  pose proof (Hne "ONMF" ltac:(simpl; auto 6)) as E5.
  unfold decomposition, prelude, requires_dimension in H.
  unfold bind at 1 2 3 in H. unfold when, warn, log, lift in H.
  simpl in H.
  destruct (kw_bounds a); simpl in H.
  all: rewrite ?E5 in H; simpl in H.
  all: rewrite ?E1, ?E2, ?E3, ?E4 in H; simpl in H.
  all: unfold bind, read_data, call, call_with, get_world, log, set_world,
         ret, raise in H; simpl in H.
  all: destruct (aligned env (data m) (world m)) as [[d|e] w]; simpl in H.
  all: try (destruct (min_blocksize _) as [b|e] eqn:Eb; simpl in H;
            [|unfold min_blocksize, np_min in Eb;
              destruct (map _ _); [injection Eb as <-|discriminate]]).
  all: injection H as <- <-; simpl.
  all: eexists; (split; [rewrite <- ?app_assoc; reflexivity|]).
  all: split;
         [repeat (apply Forall_cons; [simpl; auto|]); apply Forall_nil|].
  all: split; [|auto].
  all: try (left; reflexivity).
  all: right; eexists; split; [reflexivity|]; simpl; auto.
Qed.

(** *** The learning results *)

Lemma prelude_same_results (a : arguments) :
  stable same_results (prelude env a).
Proof.
  helpers_keep (@same_results_refl W) (@same_results_trans W)
               same_results_step.
Qed.

Lemma learn_same_results (a : arguments) (c : context) :
  stable same_results (learn env a c).
Proof.
  unfold learn, svd_branch.
  helpers_keep (@same_results_refl W) (@same_results_trans W)
               same_results_step.
Qed.

(** What [decomposition] records of a call with the arguments [a]. *)
Let recorded (a : arguments) (lr : learning_results) : Prop :=
  decomposition_algorithm lr
  = (if algorithm a =? "ONMF" then "ORNMF" else algorithm a) /\
  lr_output_dimension lr = output_dimension a /\
  (decomposition_algorithm lr = "SVD" -> _object lr = None).

Let keeps_record (a : arguments) (m m' : machine W) : Prop :=
  (exists lr, results m = Some lr /\ recorded a lr) ->
  exists lr, results m' = Some lr /\ recorded a lr.

Lemma keeps_record_refl a (m : machine W) : keeps_record a m m.
Proof. intros H. exact H. Qed.

Lemma keeps_record_trans a (m1 m2 m3 : machine W) :
  keeps_record a m1 m2 -> keeps_record a m2 m3 -> keeps_record a m1 m3.
Proof. unfold keeps_record. auto. Qed.

Lemma same_results_keeps_record a (m m' : machine W) :
  same_results m m' -> keeps_record a m m'.
Proof. unfold same_results, keeps_record. intros ->. auto. Qed.

Lemma commit_records (a : arguments) (c : context) (l : learnt)
      (m : machine W) (r : result unit) (m' : machine W) :
  ctx_algorithm c
  = (if algorithm a =? "ONMF" then "ORNMF" else algorithm a) ->
  commit env a c l m = (r, m') ->
  exists lr, results m' = Some lr /\ recorded a lr.
Proof.
  intros Hc H. unfold commit in H. cbv zeta in H.
  assert (Hrec : forall f ld,
    recorded a
      {| decomposition_algorithm := ctx_algorithm c;
         lr_output_dimension := output_dimension a;
         _object := if negb (ctx_algorithm c =? "SVD") then obj c else None;
         factors := f; loadings := ld;
         explained_variance := l_explained_variance l;
         explained_variance_ratio := l_explained_variance_ratio l |}).
  { intros f ld. unfold recorded. simpl. split; [exact Hc|].
    split; [reflexivity|]. intros ->. reflexivity. }
  apply bind_inv in H.
  destruct H as [(e & He & _)|(u & m1 & H1 & H)]; [discriminate|].
  injection H1 as _ <-.
  revert H.
  match goal with
  | |- ?k ?m0 = _ -> _ => assert (Hk : stable (keeps_record a) k)
  end.
  { unfold unbound, call.
    stable_with (@keeps_record_refl a) (@keeps_record_trans a)
      ltac:(first
        [ apply stable_step; intros ? _; simpl; eexists;
          split; [reflexivity|apply Hrec]
        | eapply stable_impl;
          [apply same_results_keeps_record|same_results_step] ]). }
  intros H. apply (Hk _ _ _ H). simpl. eexists. split; [reflexivity|].
  apply Hrec.
Qed.


(** *** The SVD branch: [unfold] and [fold] *)

(** Nothing of the SVD branch happens, and [_unfolded4decomposition] is
    left alone. *)
Let quiet : machine W -> machine W -> Prop :=
  both (emits (avoids [OpUnfold; OpFold; OpSvd])) same_unfolded.

(** What a run shows of an [unfold()] that returned: the attribute holds
    what it returned; when that is [True], [fold()] was called; when it is
    [False], it was not. *)
Let folds_back (m m' : machine W) : Prop :=
  exists t, trace m' = (trace m ++ t)%list /\
    forall b, In (Ev OpUnfold (DoneBool b)) t ->
      _unfolded4decomposition m' = Some b /\
      if b then exists s, In (Ev OpFold s) t
      else Forall (avoids [OpFold]) t.

Lemma avoids_not_in (ops : list op) (t : list event) (o : op) (s : status) :
  In o ops -> Forall (avoids ops) t -> ~ In (Ev o s) t.
Proof.
  intros Ho Hall Hin. rewrite Forall_forall in Hall.
  exact (Hall _ Hin Ho).
Qed.

Lemma avoids_weaken (ops ops' : list op) (t : list event) :
  incl ops' ops -> Forall (avoids ops) t -> Forall (avoids ops') t.
Proof.
  intros Hincl Hall. eapply Forall_impl; [|exact Hall].
  intros [o s| | |]; simpl; auto.
Qed.

Lemma quiet_folds_back m m' : quiet m m' -> folds_back m m'.
Proof.
  intros [(t & Ht & Hall) _]. exists t. split; [assumption|].
  intros b Hb. exfalso.
  eapply avoids_not_in; [|exact Hall|exact Hb]. simpl; auto.
Qed.

Lemma quiet_then_folds_back m m1 m' :
  quiet m m1 -> folds_back m1 m' -> folds_back m m'.
Proof.
  intros [(t1 & Ht1 & Hall) _] (t & Ht & Hb).
  exists (t1 ++ t)%list. rewrite Ht, Ht1, app_assoc.
  split; [reflexivity|]. intros b Hin.
  apply in_app_or in Hin. destruct Hin as [Hin|Hin].
  { exfalso. eapply avoids_not_in; [|exact Hall|exact Hin]. simpl; auto. }
  destruct (Hb b Hin) as [Hu Hf]. split; [assumption|].
  destruct b.
  - destruct Hf as [s Hs]. exists s. apply in_or_app. auto.
  - apply Forall_app. split; [|assumption].
    eapply avoids_weaken; [|exact Hall].
    intros o [<-|[]]. simpl; auto.
Qed.

Lemma folds_back_then_quiet m m1 m' :
  folds_back m m1 -> quiet m1 m' -> folds_back m m'.
Proof.
  intros (t & Ht & Hb) [(t1 & Ht1 & Hall) Hsame].
  exists (t ++ t1)%list. rewrite Ht1, Ht, app_assoc.
  split; [reflexivity|]. intros b Hin.
  apply in_app_or in Hin. destruct Hin as [Hin|Hin].
  2:{ exfalso. eapply avoids_not_in; [|exact Hall|exact Hin].
      simpl; auto. }
  destruct (Hb b Hin) as [Hu Hf]. unfold same_unfolded in Hsame.
  split; [congruence|]. destruct b.
  - destruct Hf as [s Hs]. exists s. apply in_or_app. auto.
  - apply Forall_app. split; [assumption|].
    eapply avoids_weaken; [|exact Hall].
    intros o [<-|[]]. simpl; auto.
Qed.

(** Runs a hypothesis [H : c m = (r, m')] on a machine whose collaborators
    are oracles, by cases on what each oracle answers. *)
Ltac run_cases H :=
  repeat match type of H with
         | context [match ?x with _ => _ end] =>
             match x with
             | context [match _ with _ => _ end] => fail 1
             | _ => destruct x eqn:?; simpl in H
             end
         end.

Lemma svd_branch_folds_back (a : arguments) :
  stable folds_back (svd_branch env a).
Proof.
  intros m r m' H.
  unfold svd_branch, try_finally, bind, call, call_with, call_on_data,
    set_unfolded4decomposition, get_unfolded4decomposition, read_data, log,
    set_world, assign_data, raise, ret in H.
  simpl in H. run_cases H.
  all: injection H as <- <-; simpl.
  all: eexists; (split; [rewrite <- ?app_assoc; simpl; reflexivity|]).
  all: intros b' Hin; simpl in Hin.
  all: repeat match goal with
              | Hor : _ \/ _ |- _ => destruct Hor
              | Hf : False |- _ => destruct Hf
              | E : Ev _ _ = Ev _ _ |- _ =>
                  first [ discriminate E | injection E as <- ]
              | E : _ = Ev _ _ |- _ => discriminate E
              end.
  all: simpl; split; [reflexivity|].
  all: first [ eexists; simpl; eauto 6
             | repeat (apply Forall_cons; [event_ok|]); apply Forall_nil ].
Qed.

Ltac quiet_auto :=
  apply stable_both;
  [ helpers_emit (avoids [OpUnfold; OpFold; OpSvd])
  | helpers_keep (@same_unfolded_refl W) (@same_unfolded_trans W)
                 same_unfolded_step ].

Lemma prelude_quiet (a : arguments) : stable quiet (prelude env a).
Proof. quiet_auto. Qed.

Lemma commit_quiet (a : arguments) (c : context) (l : learnt) :
  stable quiet (commit env a c l).
Proof. quiet_auto. Qed.

Lemma read_data_quiet : stable quiet read_data.
Proof. quiet_auto. Qed.

Lemma write_data_quiet (r : ref) : stable quiet (write_data r).
Proof. quiet_auto. Qed.

Lemma learn_folds_back (a : arguments) (c : context) :
  stable folds_back (learn env a c).
Proof.
  unfold learn.
  apply (stable_bind3 (R1 := quiet) (R2 := folds_back));
    [quiet_auto| |apply quiet_folds_back|apply quiet_then_folds_back].
  intros scales.
  apply (stable_bind3 (R1 := folds_back) (R2 := quiet));
    [| |auto|apply folds_back_then_quiet].
  - destruct (ctx_algorithm c =? "SVD").
    + apply (stable_bind3 (R1 := folds_back) (R2 := quiet));
        [apply svd_branch_folds_back| |auto|apply folds_back_then_quiet].
      intros [[factors ev] loadings]. quiet_auto.
    + eapply stable_impl; [apply quiet_folds_back|].
      destruct (obj c); quiet_auto.
  - intros [[[[ev evr] factors] loadings] reproject].
    destruct (obj c); quiet_auto.
Qed.

(** In every run of [decomposition]: once [unfold()] has returned,
    [_unfolded4decomposition] holds what it returned until the exit, by
    return or by exception; when it returned [True], [fold()] is called on
    the way out of the SVD branch, and the attribute is nevertheless left
    at [True], the statement after [fold()] being a comparison; when it
    returned [False], [fold()] is never called. *)
Theorem decomposition_folds_back_but_keeps_flag
        (a : arguments) (m : machine W) (r : result unit) (m' : machine W) :
  decomposition env a m = (r, m') ->
  exists t, trace m' = (trace m ++ t)%list /\
    forall b, In (Ev OpUnfold (DoneBool b)) t ->
      _unfolded4decomposition m' = Some b /\
      if b then exists s, In (Ev OpFold s) t
      else Forall (avoids [OpFold]) t.
Proof.
  revert m r m'. change (stable folds_back (decomposition env a)).
  unfold decomposition.
  apply (stable_bind3 (R1 := quiet) (R2 := folds_back));
    [apply prelude_quiet| |apply quiet_folds_back
    |apply quiet_then_folds_back].
  intros c.
  apply (stable_bind3 (R1 := quiet) (R2 := folds_back));
    [apply read_data_quiet| |apply quiet_folds_back
    |apply quiet_then_folds_back].
  intros original_data.
  apply (stable_bind3 (R1 := folds_back) (R2 := quiet));
    [| |auto|apply folds_back_then_quiet].
  - apply (stable_try_finally3 (R1 := folds_back) (R2 := quiet));
      [apply learn_folds_back|apply write_data_quiet
      |apply folds_back_then_quiet].
  - intros l. apply commit_quiet.
Qed.

(** *** SVD with a mask *)

Let masked (a : arguments) : bool :=
  negb (is_none (navigation_mask a)) || negb (is_none (signal_mask a)).

(** What a run that ends with [oe] shows when masks are given to the SVD
    branch. *)
Let refuses_masks (m : machine W) (oe : option exn) (m' : machine W)
  : Prop :=
  exists t, trace m' = (trace m ++ t)%list /\
    Forall (avoids [OpSvd]) t /\ oe <> None /\
    (forall b, In (Ev OpUnfold (DoneBool b)) t ->
               (forall e, ~ In (Ev OpFold (Failed e)) t) ->
               oe = Some NotImplementedError).

Lemma refuses_masks_after m m1 oe m' :
  quiet m m1 -> refuses_masks m1 oe m' -> refuses_masks m oe m'.
Proof.
  intros [(t1 & Ht1 & Hall) _] (t & Ht & Hsvd & Hoe & Hni).
  exists (t1 ++ t)%list. rewrite Ht, Ht1, app_assoc.
  split; [reflexivity|]. split.
  { apply Forall_app. split; [|assumption].
    eapply avoids_weaken; [|exact Hall]. intros o [<-|[]]. simpl; auto. }
  split; [assumption|]. intros b Hin Hnofold.
  apply in_app_or in Hin. destruct Hin as [Hin|Hin].
  { exfalso. eapply avoids_not_in; [|exact Hall|exact Hin]. simpl; auto. }
  apply (Hni b Hin). intros e He. apply (Hnofold e).
  apply in_or_app. auto.
Qed.

Lemma refuses_masks_raised m e m' :
  quiet m m' -> refuses_masks m (Some e) m'.
Proof.
  intros [(t & Ht & Hall) _]. exists t. split; [assumption|]. split.
  { eapply avoids_weaken; [|exact Hall]. intros o [<-|[]]. simpl; auto. }
  split; [discriminate|]. intros b Hin _. exfalso.
  eapply avoids_not_in; [|exact Hall|exact Hin]. simpl; auto.
Qed.

Lemma refuses_masks_then_write m m1 oe (d : ref) :
  refuses_masks m oe m1 -> refuses_masks m oe (snd (write_data d m1)).
Proof.
  intros (t & Ht & Hsvd & Hoe & Hni).
  exists (t ++ [WriteData d])%list. rewrite write_data_eq. simpl.
  rewrite Ht, app_assoc. split; [reflexivity|]. split.
  { apply Forall_app. split; [assumption|repeat constructor]. }
  split; [assumption|]. intros b Hin Hnofold.
  apply in_app_or in Hin. destruct Hin as [Hin|[Hin|[]]]; [|discriminate].
  apply (Hni b Hin). intros e He. apply (Hnofold e).
  apply in_or_app. auto.
Qed.

Lemma svd_branch_refuses_masks (a : arguments) (m : machine W)
      (r : result (ref * ref * ref)) (m' : machine W) :
  masked a = true ->
  svd_branch env a m = (r, m') -> refuses_masks m (raised r) m'.
Proof.
  intros Hmask H. unfold masked in Hmask.
  unfold svd_branch, try_finally, bind, call, call_with, call_on_data,
    set_unfolded4decomposition, get_unfolded4decomposition, read_data, log,
    set_world, assign_data, raise, ret in H.
  rewrite Hmask in H. simpl in H. run_cases H.
  all: injection H as <- <-; simpl.
  all: eexists; (split; [rewrite <- ?app_assoc; simpl; reflexivity|]).
  all: split; [repeat (apply Forall_cons; [event_ok|]); apply Forall_nil|].
  all: split; [discriminate|].
  all: intros b' Hin Hnofold; simpl in Hin.
  all: try reflexivity.
  all: exfalso.
  all: repeat match goal with
              | Hor : _ \/ _ |- _ => destruct Hor
              | Hf : False |- _ => destruct Hf
              | E : Ev _ _ = Ev _ _ |- _ =>
                  first [ discriminate E | injection E as <- ]
              end.
  all: eapply Hnofold; simpl; eauto.
Qed.

Lemma learn_refuses_masks (a : arguments) (c : context) (m : machine W)
      (r : result learnt) (m' : machine W) :
  ctx_algorithm c = "SVD" -> masked a = true ->
  learn env a c m = (r, m') -> refuses_masks m (raised r) m'.
Proof.
  intros Hc Hmask H. unfold learn in H. rewrite Hc in H. simpl in H.
  assert (Hscales : stable quiet
            (if normalize_poissonian_noise a
             then bind (normalise env a c) (fun s => ret (Some s))
             else ret None)) by quiet_auto.
  apply bind_inv in H.
  destruct H as [(e & H & ->)|(scales & m1 & H1 & H)].
  { apply refuses_masks_raised. exact (Hscales _ _ _ H). }
  apply refuses_masks_after with m1; [exact (Hscales _ _ _ H1)|].
  clear H1 Hscales.
  apply bind_inv in H. destruct H as [(e & H & ->)|(got & m2 & H2 & H)].
  - apply bind_inv in H. destruct H as [(e' & H & E)|(x & m2 & H2 & H)].
    + injection E as <-.
      exact (@svd_branch_refuses_masks a _ _ _ Hmask H).
    + destruct x as [[factors ev] loadings]. discriminate.
  - exfalso. apply bind_inv in H2.
    destruct H2 as [(e' & _ & E)|(x & m3 & H3 & _)]; [discriminate|].
    destruct (@svd_branch_refuses_masks a _ _ _ Hmask H3)
      as (_ & _ & _ & Hoe & _).
    apply Hoe. reflexivity.
Qed.

(** With [algorithm="SVD"] and a navigation or signal mask,
    [decomposition] never computes the SVD and never returns: it raises.
    Once [unfold()] has returned, the exception is the
    [NotImplementedError] of the mask check, unless the [fold()] of the
    [finally] clause itself raises. *)
Theorem decomposition_masked_svd_not_implemented
        (a : arguments) (m : machine W) (r : result unit) (m' : machine W) :
  algorithm a = "SVD" ->
  navigation_mask a <> None \/ signal_mask a <> None ->
  decomposition env a m = (r, m') ->
  exists t, trace m' = (trace m ++ t)%list /\
    Forall (avoids [OpSvd]) t /\
    (exists e, r = Exn e) /\
    (forall b, In (Ev OpUnfold (DoneBool b)) t ->
               (forall e, ~ In (Ev OpFold (Failed e)) t) ->
               r = Exn NotImplementedError).
Proof.
  intros Halg Hmasks H.
  assert (Hmask : masked a = true).
  { unfold masked.
    destruct (navigation_mask a), (signal_mask a); simpl; try reflexivity.
    destruct Hmasks; congruence. }
  cut (refuses_masks m (raised r) m').
  { intros (t & Ht & Hsvd & Hoe & Hni). exists t.
    split; [assumption|]. split; [assumption|].
    destruct r as [u|e]; simpl in *; [congruence|].
    split; [eexists; reflexivity|].
    intros b Hin Hnofold. specialize (Hni b Hin Hnofold).
    congruence. }
  unfold decomposition in H.
  apply bind_inv in H. destruct H as [(e & H & ->)|(c & m1 & H1 & H)].
  { apply refuses_masks_raised. apply prelude_quiet in H. exact H. }
  destruct (prelude_returns _ _ H1) as (Hc & _ & _).
  rewrite Halg in Hc. simpl in Hc.
  apply prelude_quiet in H1.
  apply refuses_masks_after with m1; [exact H1|]. clear H1.
  apply bind_inv in H. destruct H as [(e & H & ->)|(orig & m2 & H2 & H)].
  { apply refuses_masks_raised. apply read_data_quiet in H. exact H. }
  apply read_data_quiet in H2.
  apply refuses_masks_after with m2; [exact H2|]. clear H2.
  assert (Hfinally : forall rl ml,
    try_finally (learn env a c) (write_data orig) m2 = (rl, ml) ->
    refuses_masks m2 (raised rl) ml).
  { intros rl ml Hl. apply try_finally_inv in Hl.
    destruct Hl as (rb & mb & rc & Hb & Hw & ->).
    apply (@learn_refuses_masks a c _ _ _ Hc Hmask) in Hb.
    apply (@refuses_masks_then_write _ _ _ orig) in Hb.
    rewrite write_data_eq in Hw. injection Hw as <- <-.
    rewrite write_data_eq in Hb. exact Hb. }
  apply bind_inv in H. destruct H as [(e & H & ->)|(l & m3 & H3 & H)].
  - exact (Hfinally _ _ H).
  - exfalso. destruct (Hfinally _ _ H3) as (t0 & _ & _ & Hoe & _).
    apply Hoe. reflexivity.
Qed.

End DecompositionFacts.

Lemma decomposition_restores_data_witness :
  Effects.data (snd Decomposition.pca_run)
  = Effects.data (Decomposition.fresh_signal 3 10).
Proof.
  apply (@decomposition_restores_data nat Decomposition.bench
           (Decomposition.call_arguments "PCA" (Some 3%Z) None)
           (Decomposition.fresh_signal 3 10)
           (fst Decomposition.pca_run) (snd Decomposition.pca_run)).
  vm_compute. reflexivity.
Defined.

Lemma decomposition_requires_output_dimension_witness :
  exists m' t,
    Decomposition.decomposition Decomposition.bench
      (Decomposition.call_arguments "ORPCA" None None)
      (Decomposition.fresh_signal 3 10) = (Effects.Exn ValueError, m') /\
    Effects.trace m'
    = Effects.trace (Decomposition.fresh_signal 3 10) ++ t /\
    Forall (fun e => e = Effects.Warning) t /\
    Effects.data m' = Effects.data (Decomposition.fresh_signal 3 10) /\
    Effects.world m' = Effects.world (Decomposition.fresh_signal 3 10) /\
    Effects.results m' = Effects.results (Decomposition.fresh_signal 3 10) /\
    Effects._unfolded4decomposition m'
    = Effects._unfolded4decomposition (Decomposition.fresh_signal 3 10).
Proof.
  apply (@decomposition_requires_output_dimension nat Decomposition.bench
           (Decomposition.call_arguments "ORPCA" None None)
           (Decomposition.fresh_signal 3 10)).
  - simpl. auto.
  - reflexivity.
Defined.

Lemma decomposition_unknown_algorithm_witness :
  exists t,
    Effects.trace (snd Decomposition.nmf_run)
    = Effects.trace (Decomposition.fresh_signal 3 10) ++ t /\
    Forall (fun e => e = Effects.Warning \/ e = Effects.ReadData \/
                     Observations.calls Effects.OpAligned e) t /\
    (fst Decomposition.nmf_run = Effects.Exn ValueError \/
     exists e, fst Decomposition.nmf_run = Effects.Exn e /\
               In (Effects.Ev Effects.OpAligned (Effects.Failed e)) t) /\
    Effects.data (snd Decomposition.nmf_run)
    = Effects.data (Decomposition.fresh_signal 3 10) /\
    Effects.results (snd Decomposition.nmf_run)
    = Effects.results (Decomposition.fresh_signal 3 10).
Proof.
  apply (@decomposition_unknown_algorithm nat Decomposition.bench
           (Decomposition.call_arguments "NMF" None None)
           (Decomposition.fresh_signal 3 10)
           (fst Decomposition.nmf_run) (snd Decomposition.nmf_run)).
  - simpl. intuition discriminate.
  - vm_compute. reflexivity.
Defined.


Lemma decomposition_folds_back_but_keeps_flag_witness :
  exists t,
    Effects.trace (snd Decomposition.svd_run)
    = Effects.trace (Decomposition.fresh_signal 3 10) ++ t /\
    forall b,
      In (Effects.Ev Effects.OpUnfold (Effects.DoneBool b)) t ->
      Effects._unfolded4decomposition (snd Decomposition.svd_run) = Some b /\
      if b then exists s, In (Effects.Ev Effects.OpFold s) t
      else Forall (Observations.avoids [Effects.OpFold]) t.
Proof.
  apply (@decomposition_folds_back_but_keeps_flag nat Decomposition.bench
           (Decomposition.call_arguments "SVD" None None)
           (Decomposition.fresh_signal 3 10)
           (fst Decomposition.svd_run) (snd Decomposition.svd_run)).
  vm_compute. reflexivity.
Defined.

Lemma decomposition_masked_svd_not_implemented_witness :
  exists t,
    Effects.trace (snd Decomposition.masked_svd_run)
    = Effects.trace (Decomposition.fresh_signal 3 10) ++ t /\
    Forall (Observations.avoids [Effects.OpSvd]) t /\
    (exists e, fst Decomposition.masked_svd_run = Effects.Exn e) /\
    (forall b,
        In (Effects.Ev Effects.OpUnfold (Effects.DoneBool b)) t ->
        (forall e, ~ In (Effects.Ev Effects.OpFold (Effects.Failed e)) t) ->
        fst Decomposition.masked_svd_run = Effects.Exn NotImplementedError).
Proof.
  apply (@decomposition_masked_svd_not_implemented nat Decomposition.bench
           (Decomposition.call_arguments "SVD" None
              (Some (Decomposition.Ndarray 4)))
           (Decomposition.fresh_signal 3 10)
           (fst Decomposition.masked_svd_run)
           (snd Decomposition.masked_svd_run)).
  - reflexivity.
  - left. discriminate.
  - vm_compute. reflexivity.
Defined.

(** The runs of the examples. *)
Example svd_run_folds_and_restores :
  fst Decomposition.svd_run = Effects.Val tt /\
  Effects.data (snd Decomposition.svd_run) = 3%nat /\
  Effects._unfolded4decomposition (snd Decomposition.svd_run) = Some true /\
  Effects.trace (snd Decomposition.svd_run)
  = [Effects.ReadData; Effects.Ev Effects.OpAligned Effects.Done;
     Effects.ReadData;
     Effects.Ev Effects.OpUnfold (Effects.DoneBool true);
     Effects.ReadData; Effects.Ev Effects.OpSvd Effects.Done;
     Effects.Ev Effects.OpFold Effects.Done;
     Effects.Ev Effects.OpVarianceRatio Effects.Done;
     Effects.WriteData 3; Effects.Ev Effects.OpPrint Effects.Done].
Proof. vm_compute. auto. Qed.

Example masked_svd_run_raises :
  fst Decomposition.masked_svd_run = Effects.Exn NotImplementedError /\
  Effects.trace (snd Decomposition.masked_svd_run)
  = [Effects.ReadData; Effects.Ev Effects.OpAligned Effects.Done;
     Effects.ReadData;
     Effects.Ev Effects.OpUnfold (Effects.DoneBool true);
     Effects.Ev Effects.OpFold Effects.Done; Effects.WriteData 3].
Proof. vm_compute. auto. Qed.

(** *** The learning loop, batch by batch *)

Section Batches.
Import Decomposition.
Local Open Scope Z_scope.

Lemma group_nonempty {X} (n : Z) (l : list X) : forall pending,
  Forall (fun b => b <> []) (group n pending l).
Proof.
  induction l as [|x l IH]; intros pending; simpl.
  - destruct pending; repeat constructor. discriminate.
  - destruct (Z.of_nat (length (pending ++ [x])) =? n).
    + constructor; [|apply IH]. destruct pending; discriminate.
    + apply IH.
Qed.

Lemma group_concat {X} (n : Z) (l : list X) : forall pending,
  concat (group n pending l) = pending ++ l.
Proof.
  induction l as [|x l IH]; intros pending; simpl.
  - destruct pending; simpl; rewrite ?app_nil_r; reflexivity.
  - destruct (Z.of_nat (length (pending ++ [x])) =? n); simpl.
    + rewrite IH, <- app_assoc. reflexivity.
    + rewrite IH, <- app_assoc. reflexivity.
Qed.

(** A batch that is not the last one has [num_chunks] items. *)
Lemma group_full {X} (n : Z) (l : list X) : forall pending pre b post,
  group n pending l = pre ++ b :: post -> post <> [] ->
  Z.of_nat (length b) = n.
Proof.
  induction l as [|x l IH]; intros pending pre b post; simpl.
  - destruct pending; intros H Hpost.
    + destruct pre; discriminate.
    + destruct pre as [|p [|q pre]]; simpl in H;
        [injection H as _ <-; congruence|discriminate|discriminate].
  - destruct (Z.eqb_spec (Z.of_nat (length (pending ++ [x]))) n) as [E|_].
    + destruct pre as [|p pre]; simpl; intros H Hpost.
      * injection H as <- _. exact E.
      * injection H as _ H. exact (IH _ _ _ _ H Hpost).
    + apply IH.
Qed.

(** The first batch starts with what is pending. *)
Lemma group_prefix {X} (n : Z) (l : list X) : forall pending,
  pending <> [] ->
  exists more rest, group n pending l = (pending ++ more) :: rest.
Proof.
  induction l as [|x l IH]; intros pending Hp; simpl.
  - destruct pending; [congruence|].
    exists [], []. rewrite app_nil_r. reflexivity.
  - destruct (Z.of_nat (length (pending ++ [x])) =? n).
    + exists [x], (group n [] l). reflexivity.
    + destruct (IH (pending ++ [x])) as (more & rest & E).
      { destruct pending; discriminate. }
      exists (x :: more), rest. rewrite E, <- app_assoc. reflexivity.
Qed.

(** The batches of the learning loop are the items in their order, cut
    into consecutive batches: none is empty, and every batch but the last
    has exactly [num_chunks] items. *)
Theorem group_cuts_into_batches {X} (num_chunks : Z) (l : list X) :
  concat (group num_chunks [] l) = l /\
  Forall (fun b => b <> []) (group num_chunks [] l) /\
  (forall pre b post,
      group num_chunks [] l = pre ++ b :: post -> post <> [] ->
      Z.of_nat (length b) = num_chunks).
Proof.
  split; [apply (group_concat num_chunks l [])|].
  split; [apply group_nonempty|apply group_full].
Qed.

(** With a [num_chunks] that no count of blocks reaches (zero, negative,
    or more than there are blocks), all blocks make one batch. *)
Theorem group_single_batch {X} (num_chunks : Z) (l : list X) :
  l <> [] ->
  (num_chunks <= 0 \/ Z.of_nat (length l) < num_chunks) ->
  group num_chunks [] l = [l].
Proof.
  intros Hl Hn.
  assert (Hgen : forall l pending : list X,
    (num_chunks <= 0 \/ Z.of_nat (length (pending ++ l)) < num_chunks) ->
    pending ++ l <> [] ->
    group num_chunks pending l = [pending ++ l]).
  { clear l Hl Hn. induction l as [|x l IH]; intros pending Hn Hne; simpl.
    - rewrite app_nil_r in *. destruct pending; [congruence|reflexivity].
    - destruct (Z.eqb_spec (Z.of_nat (length (pending ++ [x]))) num_chunks)
        as [E|_].
      + exfalso. rewrite !length_app in *. simpl in *. lia.
      + rewrite IH.
        * rewrite <- app_assoc. reflexivity.
        * rewrite <- app_assoc. exact Hn.
        * destruct pending; discriminate. }
  apply (Hgen l []); assumption.
Qed.

Lemma group_single_batch_witness :
  group 0 [] [1; 2; 3] = [[1; 2; 3]].
Proof.
  apply (@group_single_batch Z 0 [1; 2; 3]); [discriminate|lia].
Defined.

End Batches.

Section StreamFacts.
Import Effects Observations Decomposition.
Variable W : Type.
Variable env : collaborators W.

Lemma bind_assoc {A B C} (c : M W A) (k : A -> M W B) (k' : B -> M W C) m :
  bind (bind c k) k' m = bind c (fun a => bind (k a) k') m.
Proof. unfold bind. destruct (c m) as [[a|e] m1]; reflexivity. Qed.

Lemma bind_ext {A B} (c : M W A) (k k' : A -> M W B) m :
  (forall a m', k a m' = k' a m') -> bind c k m = bind c k' m.
Proof.
  intros H. unfold bind. destruct (c m) as [[a|e] m1]; [apply H|reflexivity].
Qed.

Lemma bind_ret_l {A B} (a : A) (k : A -> M W B) m : bind (ret a) k m = k a m.
Proof. reflexivity. Qed.

Lemma bind_ret_unit (c : M W unit) m : bind c (fun _ => ret tt) m = c m.
Proof. unfold bind, ret. destruct (c m) as [[[]|e] m1]; reflexivity. Qed.

Lemma try_except_ext {A} (b1 b2 : M W A) handles handler m :
  (forall m', b1 m' = b2 m') ->
  try_except b1 handles handler m = try_except b2 handles handler m.
Proof. intros H. unfold try_except. rewrite H. reflexivity. Qed.

(** The loop from the indices [inds] on, with the blocks [pending]
    already fetched (those at the indices [fetched]), is the run of the
    batches that [group] makes. *)
Let run_first (c : context) (o : ref) (pending : list ref)
    (fetched : list (list nat)) (batches : list (list (list nat)))
  : M W unit :=
  match batches with
  | [] => ret tt
  | b :: rest =>
      bind (fetch env (skipn (length fetched) b))
           (fun more =>
              bind (call OpFit (fit env (ctx_algorithm c) o
                                    (pending ++ more)))
                   (fun _ => learn_batches env c o rest))
  end.

Let loop_from (c : context) (o : ref) (inds : list (list nat))
    (pending : list ref) : M W unit :=
  bind (for_fold inds pending
          (fun ind this_data =>
             bind (call OpGetBlock (get_block env ind))
               (fun chunk =>
                  let this_data := this_data ++ [chunk] in
                  if (Z.of_nat (length this_data) =? ctx_num_chunks c)%Z
                  then bind (call OpFit (fit env (ctx_algorithm c) o
                                             this_data))
                            (fun _ => ret [])
                  else ret this_data)))
       (fun this_data =>
          match this_data with
          | [] => ret tt
          | _ => call OpFit (fit env (ctx_algorithm c) o this_data)
          end).

Lemma run_first_nothing_pending c o batches m :
  run_first c o [] [] batches m = learn_batches env c o batches m.
Proof.
  destruct batches as [|b rest]; [reflexivity|].
  unfold run_first, learn_batches. cbn [for_each skipn length app].
  rewrite bind_assoc. reflexivity.
Qed.

Lemma skipn_own_length {X} (l more : list X) :
  skipn (length l) (l ++ more) = more.
Proof. induction l as [|x l IH]; simpl; auto. Qed.

Lemma loop_from_batches (c : context) (o : ref) (inds : list (list nat)) :
  forall pending fetched m,
    length pending = length fetched ->
    loop_from c o inds pending m
    = run_first c o pending fetched
                (group (ctx_num_chunks c) fetched inds) m.
Proof.
  induction inds as [|ind inds IH]; intros pending fetched m Hlen.
  - unfold loop_from. simpl.
    destruct fetched as [|i fetched]; destruct pending as [|p pending];
      try discriminate; simpl; [reflexivity|].
    rewrite skipn_all2 by (simpl; lia). simpl.
    rewrite !bind_ret_l, app_nil_r.
    symmetry. apply bind_ret_unit.
  - unfold loop_from. cbn [for_fold]. fold (loop_from c o inds).
    rewrite !bind_assoc. cbn [group]. cbv zeta.
    assert (Ecount : forall chunk : ref,
      length (pending ++ [chunk]) = length (fetched ++ [ind]))
      by (intros; rewrite !length_app; simpl; lia).
    destruct (Z.of_nat (length (fetched ++ [ind])) =? ctx_num_chunks c)%Z
      eqn:Efull.
    + (* the batch is complete: fit it, and go on with nothing pending *)
      unfold run_first.
      rewrite (skipn_own_length fetched [ind]). cbn [fetch].
      rewrite !bind_assoc. apply bind_ext. intros chunk m1.
      rewrite Ecount, Efull.
      transitivity
        (bind (call OpFit (fit env (ctx_algorithm c) o (pending ++ [chunk])))
              (fun _ => learn_batches env c o
                          (group (ctx_num_chunks c) [] inds)) m1);
        [|reflexivity].
      rewrite bind_assoc. apply bind_ext. intros _ m2.
      rewrite bind_ret_l.
      change (loop_from c o inds [] m2
              = learn_batches env c o (group (ctx_num_chunks c) [] inds) m2).
      rewrite (IH [] [] m2 eq_refl). apply run_first_nothing_pending.
    + (* the batch goes on *)
      destruct (@group_prefix _ (ctx_num_chunks c) inds (fetched ++ [ind]))
        as (more & rest & Eg); [destruct fetched; discriminate|].
      rewrite Eg. unfold run_first.
      rewrite <- app_assoc. rewrite (skipn_own_length fetched).
      cbn [app fetch]. rewrite !bind_assoc.
      apply bind_ext. intros chunk m1.
      rewrite Ecount, Efull.
      rewrite bind_ret_l.
      change (loop_from c o inds (pending ++ [chunk]) m1
              = bind (bind (fetch env more) (fun chunks => ret (chunk :: chunks)))
                     (fun more0 =>
                        bind (call OpFit (fit env (ctx_algorithm c) o
                                              (pending ++ more0)))
                             (fun _ => learn_batches env c o rest)) m1).
      rewrite (IH (pending ++ [chunk]) (fetched ++ [ind]) m1 (Ecount chunk)).
      rewrite Eg. unfold run_first.
      rewrite (skipn_own_length (fetched ++ [ind]) more).
      rewrite bind_assoc. apply bind_ext. intros chunks m2.
      rewrite bind_ret_l, <- app_assoc. reflexivity.
Qed.

(** [stream_learn] learns batch by batch: after the checks of the masks
    and the set-up of the block iterator, it fetches the blocks of the
    first batch one after the other and fits them together, then those of
    the second batch, and so on, where the batches are the block indices
    cut by [group] with [num_chunks]: every block is fetched once and
    fitted once, in the order of the iterator. *)
Theorem stream_learn_in_batches
        (a : arguments) (c : context) (o : ref) (m : machine W) :
  stream_learn env a c o m = stream_learn_batched env a c o m.
Proof.
  unfold stream_learn, stream_learn_batched.
  apply bind_ext. intros _ m1. apply bind_ext. intros _ m2.
  apply try_except_ext. intros m3.
  unfold iterate_blocks.
  repeat (rewrite bind_assoc; apply bind_ext; intros ? ?).
  cbv zeta.
  match goal with
  | |- _ = learn_batches _ _ _ (group _ _ ?inds) ?m4 =>
      change (loop_from c o inds [] m4
              = learn_batches env c o
                  (group (ctx_num_chunks c) [] inds) m4);
      rewrite (loop_from_batches c o inds [] [] m4 eq_refl)
  end.
  apply run_first_nothing_pending.
Qed.

End StreamFacts.
